(** * rlm-explained: streaming logger, educational enricher, usage
      accounting and upload parser

    A shallow embedding of the server-side Python modules
      - [server/educational/annotations.py]  (module [Annotations])
      - [server/educational/enricher.py]     (module [Enricher])
      - [server/stream_logger.py]            (module [StreamLogger])
      - [rlm/clients/cerebras.py]            (module [Cerebras])
      - [server/file_parser.py]              (module [FileParser])
    followed by the properties proved about them.

    Conventions.  A Python [str] is a [string] whose characters are the
    code points below 256, except for the text decoded from an upload,
    which is a list of code points; [int] is [Z]; [float] is a primitive
    float; [bytes] is a list of integers in 0..255.  Code that can raise
    returns a [res]; code that works on mutable lists and dicts runs in the
    heap monad [Heap.M]. *)

From Stdlib Require Import ZArith NArith String Ascii List Lia Sorted Floats.PrimFloat.
From stdpp Require Import base option list gmap strings pretty.
Import ListNotations.

Local Open Scope string_scope.
Local Open Scope list_scope.
Local Open Scope Z_scope.

(** ** Results of code that may raise *)

Inductive exn : Type :=
| AttributeError
| TypeError
| IndexError
| ValueError (msg : string)
| ImportError (msg : string)
| OtherError (msg : string).

Inductive res (A : Type) : Type :=
| Ok (a : A)
| Raise (e : exn).
Arguments Ok {A} a.
Arguments Raise {A} e.

(** ** Python string primitives *)

Module Text.

Definition newline : ascii := ascii_of_N 10.
Definition dot : ascii := ascii_of_N 46.

Definition in_range (lo hi n : N) : bool := ((lo <=? n) && (n <=? hi))%N.

(** [str.lower] on one character: A-Z and the upper-case letters of the
    Latin-1 supplement move 32 places up. *)
Definition lower_char (c : ascii) : ascii :=
  let n := N_of_ascii c in
  if in_range 65 90 n || in_range 192 214 n || in_range 216 222 n
  then ascii_of_N (n + 32) else c.

Fixpoint lower (s : string) : string :=
  match s with
  | EmptyString => EmptyString
  | String c s' => String (lower_char c) (lower s')
  end.

(** [\w] of the [re] module on [str] patterns: alphanumeric or
    underscore. *)
Definition is_word (c : ascii) : bool :=
  let n := N_of_ascii c in
  in_range 48 57 n || in_range 65 90 n || in_range 97 122 n || (n =? 95)%N
  || (n =? 170)%N || (n =? 181)%N || (n =? 186)%N
  || in_range 178 179 n || (n =? 185)%N || in_range 188 190 n
  || in_range 192 214 n || in_range 216 246 n || in_range 248 255 n.

(** [s.startswith(p)]. *)
Fixpoint starts_with (p s : string) : bool :=
  match p with
  | EmptyString => true
  | String a p' =>
      match s with
      | String b s' => Ascii.eqb a b && starts_with p' s'
      | EmptyString => false
      end
  end.

(** [needle in hay] for two strings. *)
Fixpoint contains (needle hay : string) : bool :=
  starts_with needle hay ||
  match hay with
  | EmptyString => false
  | String _ hay' => contains needle hay'
  end.

(** [s.split(sep)] for a one-character separator: never empty. *)
Fixpoint split (sep : ascii) (s : string) : list string :=
  match s with
  | EmptyString => [EmptyString]
  | String c s' =>
      if Ascii.eqb c sep then EmptyString :: split sep s'
      else match split sep s' with
           | h :: t => String c h :: t
           | [] => [String c EmptyString]
           end
  end.

(** The cut of [s] at its last [sep], when there is one. *)
Fixpoint rcut (sep : ascii) (s : string) : option (string * string) :=
  match s with
  | EmptyString => None
  | String c s' =>
      match rcut sep s' with
      | Some (a, b) => Some (String c a, b)
      | None => if Ascii.eqb c sep then Some (EmptyString, s') else None
      end
  end.

(** [s.rsplit(sep, 1)]. *)
Definition rsplit1 (sep : ascii) (s : string) : list string :=
  match rcut sep s with
  | Some (a, b) => [a; b]
  | None => [s]
  end.

(** [len(s)]. *)
Definition len (s : string) : Z := Z.of_nat (String.length s).

(** Truth value of a string. *)
Definition nonempty (s : string) : bool :=
  match s with EmptyString => false | _ => true end.

End Text.

(** ** The fragment of regular expressions used by [CODE_PATTERNS] *)

Module Regex.

Inductive re : Type :=
| Lit (s : string)      (* literal text *)
| AnyStar               (* .*  *)
| WordB                 (* \b  *)
| Seq (r1 r2 : re)
| Alt (r1 r2 : re).

(** A position in the subject is the character before it, if any, and
    the text after it. *)
Definition cont : Type := option ascii -> string -> bool.

Definition word_at (c : option ascii) : bool :=
  match c with Some a => Text.is_word a | None => false end.

Definition next_char (s : string) : option ascii :=
  match s with EmptyString => None | String c _ => Some c end.

Fixpoint lit (l : string) (prev : option ascii) (s : string) (k : cont) : bool :=
  match l with
  | EmptyString => k prev s
  | String c l' =>
      match s with
      | String d s' => if Ascii.eqb c d then lit l' (Some d) s' k else false
      | EmptyString => false
      end
  end.

(** [.*] is greedy: the longest run of non-newline characters is tried
    first. *)
Fixpoint any_star (prev : option ascii) (s : string) (k : cont) : bool :=
  match s with
  | String c s' =>
      (negb (Ascii.eqb c Text.newline) && any_star (Some c) s' k) || k prev s
  | EmptyString => k prev s
  end.

Fixpoint matches (r : re) (prev : option ascii) (s : string) (k : cont) : bool :=
  match r with
  | Lit l => lit l prev s k
  | AnyStar => any_star prev s k
  | WordB => xorb (word_at prev) (word_at (next_char s)) && k prev s
  | Seq r1 r2 => matches r1 prev s (fun p s' => matches r2 p s' k)
  | Alt r1 r2 => matches r1 prev s k || matches r2 prev s k
  end.

Fixpoint search_from (r : re) (prev : option ascii) (s : string) : bool :=
  matches r prev s (fun _ _ => true) ||
  match s with
  | EmptyString => false
  | String c s' => search_from r (Some c) s'
  end.

(** [re.search(r, s)] as a truth value. *)
Definition search (r : re) (s : string) : bool := search_from r None s.

End Regex.


(** ** [server/educational/annotations.py] *)

Module Annotations.
Import Regex.

Record pattern : Type := Pattern {
  regex : re;
  pat_explanation : string;
  pat_importance : string
}.

(** [CODE_PATTERNS], in the order of the source. *)
Definition CODE_PATTERNS : list pattern := [
  (* context\[.*\]|context\[:|\bcontext\b *)
  Pattern
    (Alt (Seq (Lit "context[") (Seq AnyStar (Lit "]")))
         (Alt (Lit "context[:") (Seq WordB (Seq (Lit "context") WordB))))
    "Accessing the transcript data. RLM treats your document as a variable it can slice and analyze."
    "key";
  (* llm_query\( *)
  Pattern (Lit "llm_query(")
    "Calling a sub-LM (recursive call). This is where RLM delegates part of the analysis to another language model."
    "key";
  (* llm_query_batched\( *)
  Pattern (Lit "llm_query_batched(")
    "Calling multiple sub-LMs in parallel. This dramatically speeds up analysis of multiple chunks."
    "key";
  (* for .* in .*chunk|for .* in .*section *)
  Pattern
    (Alt (Seq (Lit "for ") (Seq AnyStar (Seq (Lit " in ") (Seq AnyStar (Lit "chunk")))))
         (Seq (Lit "for ") (Seq AnyStar (Seq (Lit " in ") (Seq AnyStar (Lit "section"))))))
    "Iterating over chunks of the document. RLM breaks large texts into manageable pieces."
    "context";
  (* buffer.*=|buffers\.append|answers\.append *)
  Pattern
    (Alt (Seq (Lit "buffer") (Seq AnyStar (Lit "=")))
         (Alt (Lit "buffers.append") (Lit "answers.append")))
    "Accumulating information across iterations. RLM builds up knowledge step by step."
    "context";
  (* print\( *)
  Pattern (Lit "print(")
    "Outputting to the REPL. RLM can see this output in the next iteration to guide its reasoning."
    "detail";
  (* len\(context\)|len\( *)
  Pattern (Alt (Lit "len(context)") (Lit "len("))
    "Measuring the size of data. RLM often checks lengths to decide how to chunk."
    "detail";
  (* FINAL\(|FINAL_VAR\( *)
  Pattern (Alt (Lit "FINAL(") (Lit "FINAL_VAR("))
    "Signaling the final answer! This tells RLM that it has found the answer."
    "key"
].

(** One entry of [PHASE_EXPLANATIONS]. *)
Record phase_info : Type := PhaseInfo {
  icon : string;
  title : string;
  explanation : string;
  importance : string
}.

Definition PHASE_EXPLANATIONS (phase : string) : option phase_info :=
  if String.eqb phase "exploring" then Some (PhaseInfo
    "magnifying_glass" "Exploring"
    "The RLM is examining your document to understand its structure. It's figuring out how long the text is, what format it's in, and planning how to break it into chunks."
    "This exploration phase is crucial. RLM can handle documents of any length by first understanding what it's working with.")
  else if String.eqb phase "analyzing" then Some (PhaseInfo
    "chart_bar" "Analyzing"
    "The RLM is breaking your document into chunks and analyzing each one. It uses sub-LMs (smaller language models) to process each chunk, extracting relevant information to answer your question."
    "This is where RLM's recursive nature shines. By dividing the problem, it can handle documents that would be too large for a single LLM call.")
  else if String.eqb phase "synthesizing" then Some (PhaseInfo
    "link" "Synthesizing"
    "The RLM is combining results from different chunks. It's using buffers to accumulate findings and may query additional sub-LMs to resolve conflicts or fill gaps in the information."
    "Synthesis is how RLM builds coherent understanding from fragmented analysis. It's like assembling pieces of a puzzle.")
  else if String.eqb phase "answering" then Some (PhaseInfo
    "check_circle" "Answering"
    "The RLM has gathered enough information and is formulating the final answer. It uses FINAL() or FINAL_VAR() to signal that it has completed its analysis."
    "The answer emerges from the iterative process. RLM doesn't guess - it builds up to the answer through systematic analysis.")
  else None.

(** The dict appended by [annotate] for one line. *)
Record annotation : Type := Annotation {
  line : Z;
  ann_explanation : string;
  ann_importance : string
}.

(** The inner [for pattern in self._patterns: ... break]: the first
    pattern that matches the line. *)
Fixpoint first_match (ps : list pattern) (l : string) : option pattern :=
  match ps with
  | [] => None
  | p :: ps' => if search (regex p) l then Some p else first_match ps' l
  end.

(** The outer [for i, line in enumerate(lines, 1)]. *)
Fixpoint annotate_from (ps : list pattern) (i : Z) (lines : list string)
  : list annotation :=
  match lines with
  | [] => []
  | l :: rest =>
      match first_match ps l with
      | Some p =>
          Annotation i (pat_explanation p) (pat_importance p)
            :: annotate_from ps (i + 1) rest
      | None => annotate_from ps (i + 1) rest
      end
  end.

(** [CodeAnnotator.annotate]. *)
Definition annotate (code : string) : list annotation :=
  annotate_from CODE_PATTERNS 1 (Text.split Text.newline code).

(** [CodeAnnotator.get_key_annotations]. *)
Definition get_key_annotations (code : string) : list annotation :=
  List.filter (fun a => String.eqb (ann_importance a) "key") (annotate code).

End Annotations.

(** ** Python objects on a heap

    Lists and dicts are mutable objects reached through references; an
    iteration-event dict decoded from JSON is a graph of such objects.  The
    heap is the list of all objects allocated so far, a reference is an
    index into it. *)

Module Heap.

Abbreviation loc := nat.

Inductive val : Type :=
| VNone
| VBool (b : bool)
| VInt (z : Z)
| VFloat (f : float)
| VStr (s : string)
| VRef (l : loc).

Inductive obj : Type :=
| OList (xs : list val)
| ODict (kvs : gmap string val).

Abbreviation heap := (list obj).

(** Computations that read and write the heap and may raise. *)
Definition M (A : Type) : Type := heap -> res A * heap.

#[global] Instance M_ret : MRet M := fun A a h => (Ok a, h).
#[global] Instance M_bind : MBind M := fun A B k c h =>
  match c h with
  | (Ok a, h') => k a h'
  | (Raise e, h') => (Raise e, h')
  end.

Definition raise {A : Type} (e : exn) : M A := fun h => (Raise e, h).

(** A list display or dict display: a new object. *)
Definition alloc (o : obj) : M loc := fun h => (Ok (length h), h ++ [o]).

Definition read (l : loc) : M obj := fun h =>
  match h !! l with
  | Some o => (Ok o, h)
  | None => (Raise (OtherError "dangling reference"), h)
  end.

Definition write (l : loc) (o : obj) : M unit := fun h =>
  (Ok tt, <[l := o]> h).

(** [d.get(k, default)]: only a dict has the method. *)
Definition dict_get (d : val) (k : string) (default : val) : M val :=
  match d with
  | VRef l =>
      o ← read l;
      match o with
      | ODict kvs => mret (match kvs !! k with Some v => v | None => default end)
      | OList _ => raise AttributeError
      end
  | _ => raise AttributeError
  end.

(** [bool(v)]. *)
Definition truthy (v : val) : M bool :=
  match v with
  | VNone => mret false
  | VBool b => mret b
  | VInt z => mret (negb (z =? 0))
  | VFloat f => mret (negb (PrimFloat.eqb f 0%float))
  | VStr s => mret (Text.nonempty s)
  | VRef l =>
      o ← read l;
      match o with
      | OList xs => mret (match xs with [] => false | _ => true end)
      | ODict kvs => mret (negb (bool_decide (kvs = ∅)))
      end
  end.

(** [needle in v] for a string literal [needle]: substring of a string,
    element of a list, key of a dict. *)
Definition str_in (needle : string) (v : val) : M bool :=
  match v with
  | VStr s => mret (Text.contains needle s)
  | VRef l =>
      o ← read l;
      match o with
      | OList xs =>
          mret (existsb (fun x => match x with
                                  | VStr s => String.eqb needle s
                                  | _ => false
                                  end) xs)
      | ODict kvs => mret (bool_decide (is_Some (kvs !! needle)))
      end
  | _ => raise TypeError
  end.

(** [v.lower()]. *)
Definition str_lower (v : val) : M string :=
  match v with
  | VStr s => mret (Text.lower s)
  | _ => raise AttributeError
  end.

Fixpoint chars (s : string) : list val :=
  match s with
  | EmptyString => []
  | String c s' => VStr (String c EmptyString) :: chars s'
  end.

(** The items a [for] loop over [v] visits: the characters of a string,
    the elements of a list, the keys of a dict (in the order of the map,
    not of insertion). *)
Definition iter (v : val) : M (list val) :=
  match v with
  | VStr s => mret (chars s)
  | VRef l =>
      o ← read l;
      match o with
      | OList xs => mret xs
      | ODict kvs => mret (VStr <$> (map_to_list kvs).*1)
      end
  | _ => raise TypeError
  end.

(** [len(v)]. *)
Definition len (v : val) : M Z :=
  match v with
  | VStr s => mret (Text.len s)
  | VRef l =>
      o ← read l;
      match o with
      | OList xs => mret (Z.of_nat (length xs))
      | ODict kvs => mret (Z.of_nat (size kvs))
      end
  | _ => raise TypeError
  end.

(** [l.append(v)] and [l.extend(src)] on a list object. *)
Definition list_append (l : loc) (v : val) : M unit :=
  o ← read l;
  match o with
  | OList xs => write l (OList (xs ++ [v]))
  | ODict _ => raise AttributeError
  end.

Definition list_extend (l : loc) (src : loc) : M unit :=
  o ← read src;
  match o with
  | OList ys =>
      o' ← read l;
      match o' with
      | OList xs => write l (OList (xs ++ ys))
      | ODict _ => raise AttributeError
      end
  | ODict _ => raise TypeError
  end.

(** [for x in xs: body(x)]. *)
Fixpoint for_each {A : Type} (xs : list A) (body : A -> M unit) : M unit :=
  match xs with
  | [] => mret tt
  | x :: xs' => body x ;; for_each xs' body
  end.

(** [any(p(x) for x in xs)]: stops at the first true. *)
Fixpoint any_of {A : Type} (xs : list A) (p : A -> M bool) : M bool :=
  match xs with
  | [] => mret false
  | x :: xs' => b ← p x; if b : bool then mret true else any_of xs' p
  end.

(** [sum(f(x) for x in xs)]. *)
Fixpoint sum_of {A : Type} (xs : list A) (f : A -> M Z) (acc : Z) : M Z :=
  match xs with
  | [] => mret acc
  | x :: xs' => n ← f x; sum_of xs' f (acc + n)
  end.

End Heap.

(** ** [server/educational/enricher.py] *)

Module Enricher.
Import Heap.

(** The dataclass [EnrichedIteration].  [code_blocks] and
    [code_annotations] are references to the lists built by [enrich];
    [phase_info] is [None] for the empty dict. *)
Record EnrichedIteration : Type := {
  iteration_number : val;
  response : val;
  code_blocks : val;
  final_answer : val;
  iteration_time : val;
  phase : string;
  phase_info : option Annotations.phase_info;
  what_happened : string;
  code_annotations : val
}.

(** [EducationalEnricher._detect_phase]. *)
Definition _detect_phase (response code_blocks final_answer : val) : M string :=
  response_lower ← str_lower response;
  answered ← truthy final_answer;
  if answered : bool then mret "answering" else
  blocks ← iter code_blocks;
  has_llm_query ←
    any_of blocks (fun block =>
      code ← dict_get block "code" (VStr ""); str_in "llm_query" code);
  has_buffer ←
    any_of blocks (fun block =>
      code ← dict_get block "code" (VStr "");
      b ← str_in "buffer" code;
      if b : bool then mret true else
      code' ← dict_get block "code" (VStr ""); str_in "answer" code');
  if has_llm_query && has_buffer then mret "synthesizing"
  else if has_llm_query then mret "analyzing"
  else if Text.contains "chunk" response_lower
          || Text.contains "split" response_lower then mret "analyzing"
  else mret "exploring".

(** [EducationalEnricher._summarize]; [code_blocks] is the list built by
    [enrich]. *)
Definition _summarize (iteration_number code_blocks final_answer : val)
  : M string :=
  bs ← iter code_blocks;
  sub_calls ←
    sum_of bs (fun b =>
      d ← alloc (OList []);
      calls ← dict_get b "subLmCalls" (VRef d); len calls) 0;
  answered ← truthy final_answer;
  if answered : bool then
    mret "RLM found the answer after analyzing the document."
  else if 0 <? sub_calls then
    mret ("RLM called " +:+ pretty sub_calls
            +:+ " sub-LM(s) to analyze parts of the document.")
  else
    nonempty ← truthy code_blocks;
    if nonempty : bool then
      n ← len code_blocks;
      mret ("RLM wrote " +:+ pretty n
              +:+ " code block(s) to explore the document.")
    else mret "RLM is thinking about how to approach the question.".

(** The dict [annotate] appends for one line, as a heap object. *)
Definition annotation_dict (a : Annotations.annotation) : obj :=
  ODict (<["line" := VInt (Annotations.line a)]>
         (<["explanation" := VStr (Annotations.ann_explanation a)]>
         (<["importance" := VStr (Annotations.ann_importance a)]> ∅))).

(** [self._annotator.annotate(code)]: [code.split] exists on strings
    only; the result is a new list to which one new dict per annotation
    is appended. *)
Definition annotate (code : val) : M loc :=
  match code with
  | VStr s =>
      annotations ← alloc (OList []);
      for_each (Annotations.annotate s) (fun a =>
        d ← alloc (annotation_dict a); list_append annotations (VRef d));;
      mret annotations
  | _ => raise AttributeError
  end.

(** [isinstance(final_answer, (list, tuple)) and len(final_answer) == 2]
    selects [final_answer[1]]. *)
Definition unwrap_final_answer (final_answer : val) : M val :=
  match final_answer with
  | VRef l =>
      o ← read l;
      match o with
      | OList [_; second] => mret second
      | _ => mret final_answer
      end
  | _ => mret final_answer
  end.

(** The body of [for block in raw_code_blocks]. *)
Definition enrich_block (code_blocks all_annotations : loc) (block : val)
  : M unit :=
  code ← dict_get block "code" (VStr "");
  d ← alloc (ODict ∅);
  result ← dict_get block "result" (VRef d);
  annotations ← annotate code;
  list_extend all_annotations annotations;;
  stdout ← dict_get result "stdout" (VStr "");
  stderr ← dict_get result "stderr" (VStr "");
  d1 ← alloc (ODict ∅);
  locals ← dict_get result "locals" (VRef d1);
  execution_time ← dict_get result "execution_time" (VInt 0);
  d2 ← alloc (OList []);
  rlm_calls ← dict_get result "rlm_calls" (VRef d2);
  new_block ← alloc (ODict
    (<["code" := code]>
    (<["stdout" := stdout]>
    (<["stderr" := stderr]>
    (<["locals" := locals]>
    (<["executionTime" := execution_time]>
    (<["subLmCalls" := rlm_calls]>
    (<["annotations" := VRef annotations]> ∅))))))));
  list_append code_blocks (VRef new_block).

(** [EducationalEnricher.enrich]. *)
Definition enrich (iteration_data : val) : M EnrichedIteration :=
  iteration_number ← dict_get iteration_data "iteration" (VInt 0);
  response ← dict_get iteration_data "response" (VStr "");
  d ← alloc (OList []);
  raw_code_blocks ← dict_get iteration_data "code_blocks" (VRef d);
  final_answer ← dict_get iteration_data "final_answer" VNone;
  t ← dict_get iteration_data "iteration_time" (VInt 0);
  t_true ← truthy t;
  let iteration_time := if t_true : bool then t else VInt 0 in
  final_answer ← unwrap_final_answer final_answer;
  phase ← _detect_phase response raw_code_blocks final_answer;
  let phase_info := Annotations.PHASE_EXPLANATIONS phase in
  code_blocks ← alloc (OList []);
  all_annotations ← alloc (OList []);
  blocks ← iter raw_code_blocks;
  for_each blocks (enrich_block code_blocks all_annotations);;
  what_happened ←
    _summarize iteration_number (VRef code_blocks) final_answer;
  mret {| iteration_number := iteration_number;
          response := response;
          code_blocks := VRef code_blocks;
          final_answer := final_answer;
          iteration_time := iteration_time;
          phase := phase;
          phase_info := phase_info;
          what_happened := what_happened;
          code_annotations := VRef all_annotations |}.

End Enricher.

(** ** JSON values and insertion-ordered dicts *)

#[local] Set Warnings "-register-all".

Module Json.

Inductive json : Type :=
| JNull
| JBool (b : bool)
| JInt (z : Z)
| JFloat (f : float)
| JStr (s : string)
| JArr (xs : list json)
| JObj (kvs : list (string * json)).

(** A dict display keeps its keys in insertion order. *)
Abbreviation dict := (list (string * json)).

Fixpoint dict_get (k : string) (d : dict) : option json :=
  match d with
  | [] => None
  | (k', v) :: d' => if String.eqb k k' then Some v else dict_get k d'
  end.

(** [d[k] = v]: an existing key keeps its place. *)
Fixpoint dict_set (k : string) (v : json) (d : dict) : dict :=
  match d with
  | [] => [(k, v)]
  | (k', v') :: d' =>
      if String.eqb k k' then (k, v) :: d' else (k', v') :: dict_set k v d'
  end.

(** [{**d, **extra}]: the entries of [extra] are set one after the
    other. *)
Definition dict_update (d extra : dict) : dict :=
  fold_left (fun acc kv => dict_set (fst kv) (snd kv) acc) extra d.

Definition opt_str (o : option string) : json :=
  match o with Some s => JStr s | None => JNull end.

End Json.

(** ** [rlm.core.types] *)

Module Types.
Import Json.

(** Modelled from the spec: the module [rlm.core.types] (REPLResult,
    CodeBlock, RLMIteration, RLMMetadata and their [to_dict]) is
    imported by the logger but is not part of the sources.  The records
    follow the data model, the keys of [to_dict] follow the payload
    column of the event-stream schema; the iteration number of an
    [iteration] event is the key the logger itself writes. *)
Record REPLResult : Type := {
  stdout : string;
  stderr : string;
  locals : list (string * string);
  execution_time : float;
  rlm_calls : list json
}.

Record CodeBlock : Type := {
  code : string;
  result : REPLResult
}.

Record RLMIteration : Type := {
  prompt : json;
  response : string;
  code_blocks : list CodeBlock;
  final_answer : option string;
  iteration_time : float
}.

Record RLMMetadata : Type := {
  model : string;
  provider : string;
  environment : string;
  max_iterations : Z;
  start_time : string
}.

Definition result_to_dict (r : REPLResult) : dict :=
  [("stdout", JStr (stdout r));
   ("stderr", JStr (stderr r));
   ("locals", JObj (map (fun kv => (fst kv, JStr (snd kv))) (locals r)));
   ("execution_time", JFloat (execution_time r));
   ("rlm_calls", JArr (rlm_calls r))].

Definition block_to_dict (b : CodeBlock) : dict :=
  [("code", JStr (code b)); ("result", JObj (result_to_dict (result b)))].

Definition iteration_to_dict (it : RLMIteration) : dict :=
  [("prompt", prompt it);
   ("response", JStr (response it));
   ("code_blocks", JArr (map (fun b => JObj (block_to_dict b)) (code_blocks it)));
   ("final_answer", opt_str (final_answer it));
   ("iteration_time", JFloat (iteration_time it))].

Definition metadata_to_dict (m : RLMMetadata) : dict :=
  [("model", JStr (model m));
   ("provider", JStr (provider m));
   ("environment", JStr (environment m));
   ("max_iterations", JInt (max_iterations m));
   ("start_time", JStr (start_time m))].

End Types.

(** ** [server/stream_logger.py] *)

Module StreamLogger.
Import Json Types.

(** The logger object.  A queue item is the entry that [json.dumps]
    serialises, or [None] for the terminal sentinel; [put] adds at the
    back, [get] takes from the front. *)
Record t : Type := Logger {
  _iteration_count : Z;
  _metadata_logged : bool;
  _queue : list (option dict);
  _metadata : option RLMMetadata
}.

(** [StreamLogger.__init__]. *)
Definition init : t := Logger 0 false [] None.

Definition put (item : option dict) (lg : t) : t :=
  Logger (_iteration_count lg) (_metadata_logged lg)
         (_queue lg ++ [item]) (_metadata lg).

(** [log_metadata]; [now] is [datetime.now().isoformat()]. *)
Definition log_metadata (lg : t) (metadata : RLMMetadata) (now : string) : t :=
  if _metadata_logged lg then lg else
  let entry :=
    dict_update [("type", JStr "metadata"); ("timestamp", JStr now)]
                (metadata_to_dict metadata) in
  Logger (_iteration_count lg) true
         (_queue lg ++ [Some entry]) (Some metadata).

(** [log]. *)
Definition log (lg : t) (iteration : RLMIteration) (now : string) : t :=
  let count := _iteration_count lg + 1 in
  let entry :=
    dict_update [("type", JStr "iteration"); ("iteration", JInt count);
                 ("timestamp", JStr now)]
                (iteration_to_dict iteration) in
  Logger count (_metadata_logged lg) (_queue lg ++ [Some entry]) (_metadata lg).

(** [log_token]. *)
Definition log_token (lg : t) (token : string) (iteration : Z) : t :=
  put (Some [("type", JStr "token"); ("iteration", JInt iteration);
             ("content", JStr token)]) lg.

(** [log_code_result]. *)
Definition log_code_result (lg : t) (iteration : Z) (code : string)
  (result : dict) : t :=
  put (Some [("type", JStr "code_result"); ("iteration", JInt iteration);
             ("code", JStr code); ("result", JObj result)]) lg.

(** [signal_complete]. *)
Definition signal_complete (lg : t) : t := put None lg.

(** *** [stream_iterations]

    The completion function runs on a worker thread and the generator
    body on the caller's thread; the queue is what they share.  What the
    completion function does to the logger is a sequence of method calls
    followed by the way it ends. *)

Inductive call : Type :=
| CallLogMetadata (metadata : RLMMetadata) (now : string)
| CallLog (iteration : RLMIteration) (now : string)
| CallLogToken (token : string) (iteration : Z)
| CallLogCodeResult (iteration : Z) (code : string) (result : dict)
| CallSignalComplete.

Definition do_call (lg : t) (c : call) : t :=
  match c with
  | CallLogMetadata m now => log_metadata lg m now
  | CallLog it now => log lg it now
  | CallLogToken tok i => log_token lg tok i
  | CallLogCodeResult i c r => log_code_result lg i c r
  | CallSignalComplete => signal_complete lg
  end.

(** How the call [completion_fn(context, root_prompt=root_prompt)] ends:
    it returns, raises an [Exception] whose [str] is [msg], raises
    something [except Exception] does not catch, or never ends. *)
Inductive outcome : Type :=
| Returns
| RaisesException (msg : string)
| RaisesOther
| Diverges.

Record completion : Type := Completion {
  calls : list call;
  ending : outcome;
  error_time : string      (* the clock read by the [except] clause *)
}.

Definition error_entry (msg now : string) : dict :=
  [("type", JStr "error"); ("timestamp", JStr now); ("error", JStr msg)].

(** Control points of [run_completion] on the worker thread. *)
Inductive worker : Type :=
| WIdle                       (* thread not started *)
| WRunning (todo : list call) (* inside [completion_fn] *)
| WExcept (msg : string)      (* in the [except] clause *)
| WFinally                    (* in the [finally] clause *)
| WDone.                      (* thread finished *)

(** Control points of the generator body.  At [GLoop] with something
    already yielded the generator is suspended at [yield item] until the
    consumer asks for the next item, which resumes it up to
    [self._queue.get()]. *)
Inductive generator : Type :=
| GStart                      (* before [thread.start()] *)
| GLoop                       (* at [self._queue.get()] *)
| GJoin                       (* at [thread.join()] *)
| GReturned
| GClosed.                    (* ended by the consumer, [thread.join()]
                                 not reached *)

Record state : Type := State {
  logger : t;
  wk : worker;
  gen : generator;
  yielded : list dict;            (* what the consumer received, in order *)
  taken : list (option dict)      (* what [get] returned, in order *)
}.

Definition start (lg : t) : state := State lg WIdle GStart [] [].

(** Everything ever put on the queue, in the order of the [put]s. *)
Definition history (s : state) : list (option dict) :=
  taken s ++ _queue (logger s).

(** One step of the worker thread. *)
Definition step_worker (fn : completion) (s : state) : option state :=
  match wk s with
  | WIdle => None
  | WRunning (c :: todo) =>
      Some (State (do_call (logger s) c) (WRunning todo) (gen s)
                  (yielded s) (taken s))
  | WRunning [] =>
      match ending fn with
      | Returns => Some (State (logger s) WFinally (gen s) (yielded s) (taken s))
      | RaisesException msg =>
          Some (State (logger s) (WExcept msg) (gen s) (yielded s) (taken s))
      | RaisesOther =>
          Some (State (logger s) WFinally (gen s) (yielded s) (taken s))
      | Diverges => None
      end
  | WExcept msg =>
      Some (State (put (Some (error_entry msg (error_time fn))) (logger s))
                  WFinally (gen s) (yielded s) (taken s))
  | WFinally =>
      Some (State (signal_complete (logger s)) WDone (gen s)
                  (yielded s) (taken s))
  | WDone => None
  end.

Definition with_queue (q : list (option dict)) (lg : t) : t :=
  Logger (_iteration_count lg) (_metadata_logged lg) q (_metadata lg).

(** One step of the generator: [get] blocks on an empty queue, [join]
    blocks until the worker has finished. *)
Definition step_generator (fn : completion) (s : state) : option state :=
  match gen s with
  | GStart =>
      match wk s with
      | WIdle => Some (State (logger s) (WRunning (calls fn)) GLoop
                             (yielded s) (taken s))
      | _ => None
      end
  | GLoop =>
      match _queue (logger s) with
      | [] => None
      | Some item :: q =>
          Some (State (with_queue q (logger s)) (wk s) GLoop
                      (yielded s ++ [item]) (taken s ++ [Some item]))
      | None :: q =>
          Some (State (with_queue q (logger s)) (wk s) GJoin
                      (yielded s) (taken s ++ [None]))
      end
  | GJoin =>
      match wk s with
      | WDone => Some (State (logger s) WDone GReturned (yielded s) (taken s))
      | _ => None
      end
  | GReturned => None
  | GClosed => None
  end.

(** The consumer stops instead of asking for the next item: a generator
    that was never advanced, or that is suspended at [yield item], is
    closed (by [close()], by the collector, or because the loop that
    consumes it is left).  No [try] guards the [yield], so the body ends
    there, [thread.join()] is not run, and the worker thread goes on.
    Between the first [next] and the first [yield] the consumer is
    inside [next] and cannot close; so it is at [thread.join()]. *)
Definition step_close (s : state) : option state :=
  match gen s with
  | GStart => Some (State (logger s) (wk s) GClosed (yielded s) (taken s))
  | GLoop =>
      match yielded s with
      | [] => None
      | _ :: _ => Some (State (logger s) (wk s) GClosed (yielded s) (taken s))
      end
  | _ => None
  end.

(** The two threads interleave in any order, and the consumer may
    stop. *)
Definition step (fn : completion) (s s' : state) : Prop :=
  step_worker fn s = Some s' \/ step_generator fn s = Some s' \/
  step_close s = Some s'.

(** Who moves: the worker thread, the consumer asking for the next item,
    or the consumer closing the generator. *)
Inductive thread : Type := Worker | Consumer | Close.

(** A run under a given schedule. *)
Fixpoint run (fn : completion) (sched : list thread) (s : state)
  : option state :=
  match sched with
  | [] => Some s
  | Worker :: sched' =>
      match step_worker fn s with
      | Some s' => run fn sched' s'
      | None => None
      end
  | Consumer :: sched' =>
      match step_generator fn s with
      | Some s' => run fn sched' s'
      | None => None
      end
  | Close :: sched' =>
      match step_close s with
      | Some s' => run fn sched' s'
      | None => None
      end
  end.

(** The states a call [stream_iterations(fn, ...)] on logger [lg] can
    reach. *)
Definition reachable (fn : completion) (lg : t) (s : state) : Prop :=
  rtc (step fn) (start lg) s.

(** The type of an entry. *)
Definition entry_type (e : dict) : option json := dict_get "type" e.

Definition is_type (ty : string) (item : option dict) : bool :=
  match item with
  | Some e =>
      match entry_type e with
      | Some (JStr ty') => String.eqb ty ty'
      | _ => false
      end
  | None => false
  end.

End StreamLogger.

(** ** [rlm/clients/cerebras.py] *)

Module Cerebras.

(** The usage counters of a [CerebrasClient].  The three per-model
    tables are [defaultdict(int)]: a model that is absent counts 0. *)
Record client : Type := Client {
  model_name : option string;
  model_call_counts : gmap string Z;
  model_input_tokens : gmap string Z;
  model_output_tokens : gmap string Z;
  last_prompt_tokens : Z;
  last_completion_tokens : Z
}.

(** [__init__]. *)
Definition init (model_name : option string) : client :=
  Client model_name ∅ ∅ ∅ 0 0.

(** [d[k]] of a [defaultdict(int)]. *)
Definition counter (d : gmap string Z) (k : string) : Z := default 0 (d !! k).

(** [d[k] += n]. *)
Definition bump (d : gmap string Z) (k : string) (n : Z) : gmap string Z :=
  <[k := counter d k + n]> d.

Abbreviation message := (list (string * string)).

(** The argument [prompt]: a string, a list (whose items are dicts or
    not), or anything else. *)
Inductive prompt : Type :=
| PromptStr (s : string)
| PromptList (items : list (option message))
| PromptOther.

(** [_prepare_messages]. *)
Definition _prepare_messages (p : prompt) : res (list (option message)) :=
  match p with
  | PromptStr s => Ok [Some [("role", "user"); ("content", s)]]
  | PromptList items =>
      if forallb (fun i => match i with Some _ => true | None => false end) items
      then Ok items
      else Raise (ValueError "Invalid prompt type")
  | PromptOther => Raise (ValueError "Invalid prompt type")
  end.

(** [model or self.model_name], then [if not model]. *)
Definition resolve_model (model : option string) (c : client) : option string :=
  let chosen :=
    match model with
    | Some m => if Text.nonempty m then Some m else model_name c
    | None => model_name c
    end in
  match chosen with
  | Some m => if Text.nonempty m then Some m else None
  | None => None
  end.

(** The provider's reply to a non-streaming request: the text and, when
    reported, the prompt and completion token counts. *)
Record response : Type := Response {
  content : string;
  usage : option (Z * Z)
}.

(** [_track_usage]. *)
Definition _track_usage (c : client) (r : response) (model : string) : client :=
  let counts := bump (model_call_counts c) model 1 in
  match usage r with
  | Some (prompt_tokens, completion_tokens) =>
      Client (model_name c) counts
             (bump (model_input_tokens c) model prompt_tokens)
             (bump (model_output_tokens c) model completion_tokens)
             prompt_tokens completion_tokens
  | None =>
      Client (model_name c) counts (model_input_tokens c)
             (model_output_tokens c) (last_prompt_tokens c)
             (last_completion_tokens c)
  end.

(** [_track_usage_streaming]. *)
Definition _track_usage_streaming (c : client) (model : string)
  (full_response : string) : client :=
  let counts := bump (model_call_counts c) model 1 in
  let approx_tokens := Text.len full_response / 4 in
  Client (model_name c) counts (model_input_tokens c)
         (bump (model_output_tokens c) model approx_tokens)
         (last_prompt_tokens c) approx_tokens.

(** The provider's stream: the [delta.content] of each chunk ([None]
    when the chunk has none) and whether the stream ends normally. *)
Record stream : Type := Stream {
  chunks : list (option string);
  failure : option exn
}.

(** The loop [for chunk in stream]: the tokens yielded and the text
    accumulated. *)
Fixpoint consume (cs : list (option string)) (full_response : string)
  : list string * string :=
  match cs with
  | [] => ([], full_response)
  | chunk :: cs' =>
      let token := match chunk with Some s => s | None => "" end in
      if Text.nonempty token then
        let r := consume cs' (full_response +:+ token) in
        (token :: fst r, snd r)
      else consume cs' full_response
  end.

(** [stream_completion], driven to exhaustion: the tokens it yields, the
    value it returns (or the exception it raises) and the client
    afterwards. *)
Definition stream_completion (c : client) (p : prompt) (model : option string)
  (st : stream) : list string * res string * client :=
  match _prepare_messages p with
  | Raise e => ([], Raise e, c)
  | Ok messages =>
      match resolve_model model c with
      | None => ([], Raise (ValueError "Model name is required for Cerebras client."), c)
      | Some m =>
          let r := consume (chunks st) "" in
          match failure st with
          | Some e => (fst r, Raise e, c)
          | None => (fst r, Ok (snd r), _track_usage_streaming c m (snd r))
          end
      end
  end.

(** [get_last_usage]: calls, input tokens, output tokens. *)
Definition get_last_usage (c : client) : Z * Z * Z :=
  (1, last_prompt_tokens c, last_completion_tokens c).

End Cerebras.

(** ** UTF-8 decoding of [bytes] *)

Module Utf8.

(** A byte is an integer in 0..255, a decoded character a code point. *)
Definition cont (b : Z) : bool := (128 <=? b) && (b <=? 191).

Definition replacement : Z := 65533.

(** What the decoder finds at the front of the input. *)
Inductive chunk : Type :=
| Char (cp : Z) (rest : list Z)    (* a well-formed sequence *)
| Bad (rest : list Z).             (* an ill-formed one, and where
                                      decoding resumes *)

Definition in_range (lo hi b : Z) : bool := (lo <=? b) && (b <=? hi).

(** The range of the second byte after lead byte [b0]. *)
Definition second_ok (b0 b1 : Z) : bool :=
  if b0 =? 224 then in_range 160 191 b1
  else if b0 =? 237 then in_range 128 159 b1
  else if b0 =? 240 then in_range 144 191 b1
  else if b0 =? 244 then in_range 128 143 b1
  else cont b1.

(** One decoding step on a non-empty input [b0 :: t0].  An ill-formed
    sequence ends before the first byte that cannot continue it. *)
Definition front (b0 : Z) (t0 : list Z) : chunk :=
  if b0 <? 128 then Char b0 t0
  else if in_range 194 223 b0 then
    match t0 with
    | b1 :: t1 =>
        if cont b1 then Char ((b0 - 192) * 64 + (b1 - 128)) t1 else Bad t0
    | [] => Bad []
    end
  else if in_range 224 239 b0 then
    match t0 with
    | b1 :: t1 =>
        if second_ok b0 b1 then
          match t1 with
          | b2 :: t2 =>
              if cont b2
              then Char ((b0 - 224) * 4096 + (b1 - 128) * 64 + (b2 - 128)) t2
              else Bad t1
          | [] => Bad []
          end
        else Bad t0
    | [] => Bad []
    end
  else if in_range 240 244 b0 then
    match t0 with
    | b1 :: t1 =>
        if second_ok b0 b1 then
          match t1 with
          | b2 :: t2 =>
              if cont b2 then
                match t2 with
                | b3 :: t3 =>
                    if cont b3
                    then Char ((b0 - 240) * 262144 + (b1 - 128) * 4096
                               + (b2 - 128) * 64 + (b3 - 128)) t3
                    else Bad t2
                | [] => Bad []
                end
              else Bad t1
          | [] => Bad []
          end
        else Bad t0
    | [] => Bad []
    end
  else Bad t0.

(** The decoding loops; every step consumes at least one byte, so a
    [fuel] of the number of bytes is never used up. *)
Fixpoint decode_strict (fuel : nat) (bs : list Z) : option (list Z) :=
  match bs with
  | [] => Some []
  | b0 :: t0 =>
      match fuel with
      | O => None
      | S fuel' =>
          match front b0 t0 with
          | Char cp rest => cons cp <$> decode_strict fuel' rest
          | Bad _ => None
          end
      end
  end.

Fixpoint decode_replace (fuel : nat) (bs : list Z) : list Z :=
  match bs with
  | [] => []
  | b0 :: t0 =>
      match fuel with
      | O => []
      | S fuel' =>
          match front b0 t0 with
          | Char cp rest => cp :: decode_replace fuel' rest
          | Bad rest => replacement :: decode_replace fuel' rest
          end
      end
  end.

(** [content.decode("utf-8")]: [None] stands for [UnicodeDecodeError]. *)
Definition decode (content : list Z) : option (list Z) :=
  decode_strict (length content) content.

(** [content.decode("utf-8", errors="replace")]. *)
Definition decode_lossy (content : list Z) : list Z :=
  decode_replace (length content) content.

End Utf8.

(** ** [server/file_parser.py] *)

Module FileParser.

Section Parser.

(** The [marker] package is imported inside [parse_file]: it is either
    not installed or provides the conversion of a PDF to markdown. *)
Variable marker : option (list Z -> res (list Z)).

(** [parse_file]: the text, as code points, and the type tag. *)
Definition parse_file (filename : string) (content : list Z)
  : res (list Z * string) :=
  let parts := Text.rsplit1 Text.dot (Text.lower filename) in
  if (length parts =? 1)%nat then
    Raise (ValueError ("File has no extension: " +:+ filename
                       +:+ ". Supported extensions: .txt, .md, .pdf"))
  else
    match parts !! 1%nat with
    | None => Raise IndexError
    | Some ext =>
        if String.eqb ext "txt" || String.eqb ext "md" then
          match Utf8.decode content with
          | Some text => Ok (text, ext)
          | None => Ok (Utf8.decode_lossy content, ext)
          end
        else if String.eqb ext "pdf" then
          match marker with
          | None =>
              Raise (ImportError "marker-pdf is required for PDF parsing. Install with: pip install marker-pdf")
          | Some convert =>
              match convert content with
              | Ok markdown => Ok (markdown, "pdf")
              | Raise e => Raise e
              end
          end
        else
          Raise (ValueError ("Unsupported file type: ." +:+ ext
                             +:+ ". Supported: .txt, .md, .pdf"))
    end.

End Parser.

(** [get_supported_extensions]. *)
Definition get_supported_extensions : list string := ["txt"; "md"; "pdf"].

End FileParser.

(** * Properties *)

(** ** Lists *)

Lemma filter_none {A : Type} (P : A -> Prop) `{!forall x, Decision (P x)}
    (l : list A) :
  (forall x, x ∈ l -> ~ P x) -> filter P l = [].
Proof.
  induction l as [|x l IH]; intros Hl; [done|].
  rewrite filter_cons_False by (apply Hl; left).
  apply IH. intros y Hy. apply Hl. by right.
Qed.

(** ** Strings *)

Lemma append_cons a (s t : string) : String a s +:+ t = String a (s +:+ t).
Proof. reflexivity. Qed.

Lemma append_empty_r (s : string) : s +:+ "" = s.
Proof. induction s as [|a s IH]; [done|]. by rewrite append_cons, IH. Qed.

Lemma append_assoc (a b c : string) : (a +:+ b) +:+ c = a +:+ (b +:+ c).
Proof. induction a as [|x a IH]; [done|]. by rewrite !append_cons, IH. Qed.

(** ** The code annotator *)

Section annotator_properties.
Import Annotations.

(** [p] is the first pattern of [ps] that matches the line [l]. *)
Definition first_matching (ps : list pattern) (l : string) (p : pattern) : Prop :=
  exists pre post,
    ps = pre ++ p :: post /\
    Regex.search (regex p) l = true /\
    Forall (fun q => Regex.search (regex q) l = false) pre.

Lemma first_match_first ps l p :
  first_matching ps l p -> first_match ps l = Some p.
Proof.
  intros (pre & post & -> & Hp & Hpre).
  induction Hpre as [|q pre Hq _ IH]; simpl.
  - by rewrite Hp.
  - by rewrite Hq.
Qed.

Lemma first_match_none ps l :
  Forall (fun q => Regex.search (regex q) l = false) ps -> first_match ps l = None.
Proof. induction 1 as [|q ps Hq _ IH]; simpl; [done | by rewrite Hq]. Qed.

Lemma first_match_Some ps l p :
  first_match ps l = Some p -> first_matching ps l p.
Proof.
  induction ps as [|q ps IH]; simpl; [done|].
  destruct (Regex.search (regex q) l) eqn:Hq.
  - intros [= ->]. by exists [], ps.
  - intros (pre & post & -> & Hp & Hpre)%IH.
    exists (q :: pre), post. repeat split; [done | by constructor].
Qed.

Lemma annotate_from_bounds ps start lines a :
  a ∈ annotate_from ps start lines ->
  start <= line a < start + Z.of_nat (length lines).
Proof.
  revert start. induction lines as [|l lines IH]; intros start; simpl.
  - by intros ?%elem_of_nil.
  - destruct (first_match ps l).
    + intros [-> | Ha%IH]%elem_of_cons; simpl; lia.
    + intros Ha%IH. lia.
Qed.

Lemma annotate_from_importance ps start lines a :
  a ∈ annotate_from ps start lines ->
  exists p, p ∈ ps /\ ann_explanation a = pat_explanation p
            /\ ann_importance a = pat_importance p.
Proof.
  revert start. induction lines as [|l lines IH]; intros start; simpl.
  - by intros ?%elem_of_nil.
  - destruct (first_match ps l) as [p|] eqn:Hp; [|by apply IH].
    intros [-> | Ha]%elem_of_cons; [|by eapply IH].
    apply first_match_Some in Hp as (pre & post & -> & _).
    exists p. split; [|done]. apply elem_of_app. right. by left.
Qed.

Lemma annotate_from_later ps start lines n :
  n < start -> filter (fun a => line a = n) (annotate_from ps start lines) = [].
Proof.
  intros Hn. apply filter_none.
  intros a Ha%annotate_from_bounds. lia.
Qed.

Lemma annotate_from_line ps start lines (i : nat) l n :
  lines !! i = Some l -> n = start + Z.of_nat i ->
  filter (fun a => line a = n) (annotate_from ps start lines) =
  match first_match ps l with
  | Some p => [Annotation n (pat_explanation p) (pat_importance p)]
  | None => []
  end.
Proof.
  revert start i. induction lines as [|l0 lines IH]; intros start i; [done|].
  destruct i as [|i]; simpl.
  - intros [= ->] ->. rewrite Z.add_0_r.
    destruct (first_match ps l) as [p|].
    + rewrite filter_cons_True by done.
      by rewrite annotate_from_later by lia.
    + by rewrite annotate_from_later by lia.
  - intros Hl ->.
    destruct (first_match ps l0) as [p0|].
    + rewrite filter_cons_False by (simpl; lia). apply (IH _ i); [done | lia].
    + apply (IH _ i); [done | lia].
Qed.

Lemma annotate_from_sorted ps start lines :
  StronglySorted Z.lt (line <$> annotate_from ps start lines).
Proof.
  revert start. induction lines as [|l lines IH]; intros start; simpl.
  - constructor.
  - destruct (first_match ps l); [|apply IH].
    simpl. constructor; [apply IH|].
    apply Forall_forall. intros n (a & -> & Ha%annotate_from_bounds)%list_elem_of_fmap.
    simpl. lia.
Qed.

Lemma CODE_PATTERNS_importance p :
  p ∈ CODE_PATTERNS -> pat_importance p ∈ ["key"; "context"; "detail"].
Proof.
  unfold CODE_PATTERNS. rewrite !elem_of_cons, elem_of_nil.
  intros H. repeat (destruct H as [-> | H]; [simpl; set_solver|]). done.
Qed.

(** C3. [annotate] works line by line, numbering the lines of
    [code.split("\n")] from 1.  A line on which some pattern of
    [CODE_PATTERNS] matches gets exactly one annotation, carrying the
    explanation and importance of the first such pattern in list order;
    a line on which no pattern matches gets none.  Every annotation
    belongs to a line, its importance is one of key, context, detail,
    and the annotations come in increasing line order. *)
Theorem annotate_first_match_per_line (code : string) :
  let lines := Text.split Text.newline code in
  (forall (i : nat) l p,
      lines !! i = Some l -> first_matching CODE_PATTERNS l p ->
      filter (fun a => line a = Z.of_nat i + 1) (annotate code) =
      [Annotation (Z.of_nat i + 1) (pat_explanation p) (pat_importance p)]) /\
  (forall (i : nat) l,
      lines !! i = Some l ->
      Forall (fun q => Regex.search (regex q) l = false) CODE_PATTERNS ->
      filter (fun a => line a = Z.of_nat i + 1) (annotate code) = []) /\
  (forall a, a ∈ annotate code ->
      1 <= line a <= Z.of_nat (length lines) /\
      ann_importance a ∈ ["key"; "context"; "detail"]) /\
  StronglySorted Z.lt (line <$> annotate code).
Proof.
  intros lines. unfold annotate. fold lines. repeat split.
  - intros i l p Hl Hp.
    rewrite (annotate_from_line _ 1 _ i l) by (done || lia).
    by rewrite (first_match_first _ _ _ Hp).
  - intros i l Hl Hnone.
    rewrite (annotate_from_line _ 1 _ i l) by (done || lia).
    by rewrite (first_match_none _ _ Hnone).
  - apply annotate_from_bounds in H. lia.
  - apply annotate_from_bounds in H. lia.
  - apply annotate_from_importance in H as (p & Hp & _ & ->).
    by apply CODE_PATTERNS_importance.
  - apply annotate_from_sorted.
Qed.

(** A line with an index lookup and a print: the context pattern comes
    first in the list and wins. *)
Lemma annotate_first_match_per_line_witness :
  filter (fun a => line a = 2) (annotate "x = 1
print(context[:10])") =
  [Annotation 2 "Accessing the transcript data. RLM treats your document as a variable it can slice and analyze." "key"].
Proof.
  pose proof (annotate_first_match_per_line "x = 1
print(context[:10])") as (H & _).
  apply (H 1%nat "print(context[:10])" (Pattern
    (Regex.Alt (Regex.Seq (Regex.Lit "context[") (Regex.Seq Regex.AnyStar (Regex.Lit "]")))
         (Regex.Alt (Regex.Lit "context[:") (Regex.Seq Regex.WordB (Regex.Seq (Regex.Lit "context") Regex.WordB))))
    "Accessing the transcript data. RLM treats your document as a variable it can slice and analyze."
    "key")).
  - reflexivity.
  - exists [], (tail CODE_PATTERNS).
    split; [reflexivity | split; [vm_compute; reflexivity | constructor]].
Defined.

End annotator_properties.

(** ** Usage accounting of the Cerebras client *)

Section usage_properties.
Import Cerebras.

Lemma counter_bump d k n : counter (bump d k n) k = counter d k + n.
Proof. unfold counter, bump. by rewrite lookup_insert_eq. Qed.

Lemma counter_bump_ne d k k' n : k <> k' -> counter (bump d k n) k' = counter d k'.
Proof. intros. unfold counter, bump. by rewrite lookup_insert_ne. Qed.

(** The text accumulated by the streaming loop is the concatenation of
    the tokens it yields. *)
Lemma consume_concat cs acc :
  snd (consume cs acc) = acc +:+ String.concat "" (fst (consume cs acc)).
Proof.
  revert acc. induction cs as [|chunk cs IH]; intros acc; simpl.
  - by rewrite append_empty_r.
  - destruct (Text.nonempty _) eqn:Hne; [|apply IH].
    simpl. rewrite IH, append_assoc. f_equal.
    destruct (fst (consume cs _)); simpl; [|done].
    by rewrite append_empty_r.
Qed.

(** The tokens yielded are the non-empty chunk contents, in order. *)
Lemma consume_tokens cs acc :
  fst (consume cs acc) =
  List.filter Text.nonempty
    (map (fun chunk => match chunk with Some s => s | None => "" end) cs).
Proof.
  revert acc. induction cs as [|chunk cs IH]; intros acc; simpl; [done|].
  destruct (Text.nonempty _); simpl; by rewrite IH.
Qed.

(** C7. A streaming completion that runs to its end for model [m] and
    returns the text [t] adds 1 to the call count of [m], adds
    [len(t) // 4] to the cumulative output tokens of [m], sets the
    last-completion counter to that value, and leaves both input-token
    counters (the per-model table and the last-prompt counter) as they
    were.  The counters of other models do not change. *)
Theorem stream_completion_usage (c : client) (p : prompt)
    (model : option string) (st : stream) (m : string) msgs :
  _prepare_messages p = Ok msgs ->
  resolve_model model c = Some m ->
  failure st = None ->
  exists tokens t c',
    stream_completion c p model st = (tokens, Ok t, c') /\
    t = String.concat "" tokens /\
    counter (model_call_counts c') m = counter (model_call_counts c) m + 1 /\
    counter (model_output_tokens c') m =
      counter (model_output_tokens c) m + Text.len t / 4 /\
    last_completion_tokens c' = Text.len t / 4 /\
    model_input_tokens c' = model_input_tokens c /\
    last_prompt_tokens c' = last_prompt_tokens c /\
    (forall m', m <> m' ->
       counter (model_call_counts c') m' = counter (model_call_counts c) m' /\
       counter (model_output_tokens c') m' = counter (model_output_tokens c) m').
Proof.
  intros Hp Hm Hst. unfold stream_completion. rewrite Hp, Hm, Hst.
  eexists _, _, _. split; [reflexivity|].
  split; [by rewrite consume_concat|]. simpl.
  rewrite !counter_bump. repeat split; try done.
  all: by apply counter_bump_ne.
Qed.

(** A fresh client streaming ten characters in three chunks: two output
    tokens are accounted. *)
Lemma stream_completion_usage_witness :
  exists tokens t c',
    stream_completion (init (Some "gpt-oss-120b")) (PromptStr "hi") None
      (Stream [Some "Hello"; None; Some ", you"] None) = (tokens, Ok t, c') /\
    t = "Hello, you" /\
    counter (model_call_counts c') "gpt-oss-120b" = 1 /\
    counter (model_output_tokens c') "gpt-oss-120b" = 2 /\
    last_completion_tokens c' = 2 /\
    counter (model_input_tokens c') "gpt-oss-120b" = 0 /\
    last_prompt_tokens c' = 0.
Proof.
  destruct (stream_completion_usage (init (Some "gpt-oss-120b")) (PromptStr "hi")
              None (Stream [Some "Hello"; None; Some ", you"] None)
              "gpt-oss-120b" [Some [("role", "user"); ("content", "hi")]]
              eq_refl eq_refl eq_refl)
    as (tokens & t & c' & Hrun & Ht & Hcalls & Hout & Hlast & Hin & Hprompt & _).
  exists tokens, t, c'.
  assert (tokens = ["Hello"; ", you"]) as Htok by (vm_compute in Hrun; congruence).
  subst tokens. simpl in Ht. subst t.
  rewrite Hin, Hprompt. repeat split; try done.
Defined.

End usage_properties.

(** ** The upload parser *)

Section parser_properties.
Import FileParser.

Lemma contains_dot_cons c s :
  Text.contains "." (String c s) = Ascii.eqb c Text.dot || Text.contains "." s.
Proof.
  destruct c as [[] [] [] [] [] [] [] []]; destruct s; reflexivity.
Qed.

Lemma contains_dot_app s1 s2 :
  Text.contains "." (s1 +:+ s2) = Text.contains "." s1 || Text.contains "." s2.
Proof.
  induction s1 as [|c s1 IH]; [by destruct s2|].
  by rewrite append_cons, !contains_dot_cons, IH, orb_assoc.
Qed.

Lemma lower_char_dot c :
  Ascii.eqb (Text.lower_char c) Text.dot = Ascii.eqb c Text.dot.
Proof. by destruct c as [[] [] [] [] [] [] [] []]. Qed.

Lemma lower_app s1 s2 : Text.lower (s1 +:+ s2) = Text.lower s1 +:+ Text.lower s2.
Proof.
  induction s1 as [|c s1 IH]; [done|].
  rewrite append_cons. simpl. by rewrite append_cons, IH.
Qed.

Lemma contains_dot_lower s : Text.contains "." (Text.lower s) = Text.contains "." s.
Proof.
  induction s as [|c s IH]; [done|].
  change (Text.lower (String c s)) with (String (Text.lower_char c) (Text.lower s)).
  by rewrite !contains_dot_cons, lower_char_dot, IH.
Qed.

Lemma rcut_none s :
  Text.contains "." s = false -> Text.rcut Text.dot s = None.
Proof.
  induction s as [|c s IH]; [done|].
  rewrite contains_dot_cons. intros [Hc Hs]%orb_false_elim.
  simpl. by rewrite (IH Hs), Hc.
Qed.

Lemma rcut_last stem e :
  Text.contains "." e = false ->
  Text.rcut Text.dot (stem +:+ "." +:+ e) = Some (stem, e).
Proof.
  intros He. induction stem as [|c stem IH].
  - change ("" +:+ "." +:+ e) with (String Text.dot e).
    simpl. by rewrite (rcut_none _ He).
  - rewrite append_cons. simpl. by rewrite IH.
Qed.

Lemma rcut_Some s a b :
  Text.rcut Text.dot s = Some (a, b) ->
  s = a +:+ "." +:+ b /\ Text.contains "." b = false.
Proof.
  revert a. induction s as [|c s IH]; intros a; [done|]. simpl.
  destruct (Text.rcut Text.dot s) as [[a' b']|] eqn:Hcut.
  - intros [= <- <-]. destruct (IH a' eq_refl) as [-> Hb].
    by rewrite append_cons.
  - destruct (Ascii.eqb_spec c Text.dot) as [->|_]; [|done].
    intros [= <- <-]. split; [done|].
    clear IH. induction s as [|d s IH]; [done|].
    simpl in Hcut. destruct (Text.rcut Text.dot s) as [[]|]; [done|].
    destruct (Ascii.eqb d Text.dot) eqn:Hd; [done|].
    rewrite contains_dot_cons, Hd. by apply IH.
Qed.

Lemma rcut_lower s :
  Text.rcut Text.dot (Text.lower s) =
  match Text.rcut Text.dot s with
  | Some (a, b) => Some (Text.lower a, Text.lower b)
  | None => None
  end.
Proof.
  induction s as [|c s IH]; [done|]. simpl. rewrite IH.
  destruct (Text.rcut Text.dot s) as [[a b]|]; [done|].
  rewrite lower_char_dot. by destruct (Ascii.eqb c Text.dot).
Qed.

(** A decoding step consumes at least the lead byte. *)
Lemma front_rest b0 t0 :
  match Utf8.front b0 t0 with
  | Utf8.Char _ rest | Utf8.Bad rest => (length rest <= length t0)%nat
  end.
Proof.
  unfold Utf8.front.
  repeat (case_match; simplify_eq/=; try lia).
Qed.

Lemma decode_replace_fuel n m bs :
  (length bs <= n)%nat -> (length bs <= m)%nat ->
  Utf8.decode_replace n bs = Utf8.decode_replace m bs.
Proof.
  revert m bs. induction n as [|n IH]; intros m bs Hn Hm.
  - destruct bs; [by destruct m | simpl in Hn; lia].
  - destruct bs as [|b0 t0]; [by destruct m|]. destruct m as [|m]; [simpl in Hm; lia|].
    simpl in *. pose proof (front_rest b0 t0) as Hrest.
    destruct (Utf8.front b0 t0); f_equal; apply IH; lia.
Qed.

Lemma decode_strict_fuel n m bs :
  (length bs <= n)%nat -> (length bs <= m)%nat ->
  Utf8.decode_strict n bs = Utf8.decode_strict m bs.
Proof.
  revert m bs. induction n as [|n IH]; intros m bs Hn Hm.
  - destruct bs; [by destruct m | simpl in Hn; lia].
  - destruct bs as [|b0 t0]; [by destruct m|]. destruct m as [|m]; [simpl in Hm; lia|].
    simpl in *. pose proof (front_rest b0 t0) as Hrest.
    destruct (Utf8.front b0 t0); f_equal; apply IH; lia.
Qed.

(** Where strict decoding succeeds, decoding with replacement gives the
    same text. *)
Lemma decode_replace_strict n bs text :
  Utf8.decode_strict n bs = Some text -> Utf8.decode_replace n bs = text.
Proof.
  revert bs text. induction n as [|n IH]; intros [|b0 t0] text; simpl; try congruence.
  destruct (Utf8.front b0 t0) as [cp rest|rest]; [|done].
  destruct (Utf8.decode_strict n rest) as [t|] eqn:Ht; simpl; [|done].
  intros [= <-]. f_equal. by apply IH.
Qed.

Context (marker : option (list Z -> res (list Z))).

Lemma parse_file_with_extension stem e content :
  Text.contains "." e = false ->
  parse_file marker (stem +:+ "." +:+ e) content =
  let ext := Text.lower e in
  if String.eqb ext "txt" || String.eqb ext "md" then
    Ok (match Utf8.decode content with
        | Some text => text
        | None => Utf8.decode_lossy content
        end, ext)
  else if String.eqb ext "pdf" then
    match marker with
    | None => Raise (ImportError "marker-pdf is required for PDF parsing. Install with: pip install marker-pdf")
    | Some convert =>
        match convert content with
        | Ok markdown => Ok (markdown, "pdf")
        | Raise e => Raise e
        end
    end
  else Raise (ValueError ("Unsupported file type: ." +:+ ext
                          +:+ ". Supported: .txt, .md, .pdf")).
Proof.
  intros He. unfold parse_file, Text.rsplit1.
  rewrite rcut_lower, (rcut_last _ _ He). simpl.
  by destruct (Utf8.decode content).
Qed.

(** C9. [parse_file] raises [ValueError] for a file name without a dot
    and for one whose extension, lower-cased, is none of txt, md, pdf;
    for an extension that is txt or md in any letter case it returns
    the decoded text with the lower-cased extension as type tag; and
    whenever it returns, the tag is the lower-cased extension of the
    file name and is one of the supported extensions. *)
Theorem parse_file_extensions (filename : string) (content : list Z) :
  (Text.contains "." filename = false ->
     exists msg, parse_file marker filename content = Raise (ValueError msg)) /\
  (forall stem e,
     filename = stem +:+ "." +:+ e -> Text.contains "." e = false ->
     (Text.lower e ∉ get_supported_extensions ->
        exists msg, parse_file marker filename content = Raise (ValueError msg)) /\
     (Text.lower e = "txt" \/ Text.lower e = "md" ->
        exists text,
          parse_file marker filename content = Ok (text, Text.lower e) /\
          (Utf8.decode content = Some text \/
           Utf8.decode content = None /\ text = Utf8.decode_lossy content))) /\
  (forall text tag,
     parse_file marker filename content = Ok (text, tag) ->
     tag ∈ get_supported_extensions /\
     exists stem e, filename = stem +:+ "." +:+ e /\
                    Text.contains "." e = false /\ tag = Text.lower e).
Proof.
  split; [|split].
  - intros Hno. unfold parse_file, Text.rsplit1.
    rewrite rcut_none by (by rewrite contains_dot_lower). simpl. eauto.
  - intros stem e -> He. rewrite (parse_file_with_extension _ _ _ He). simpl.
    unfold get_supported_extensions. split.
    + intros Hnot.
      destruct (String.eqb_spec (Text.lower e) "txt") as [Heq|_];
        [rewrite Heq in Hnot; set_solver|].
      destruct (String.eqb_spec (Text.lower e) "md") as [Heq|_];
        [rewrite Heq in Hnot; set_solver|].
      destruct (String.eqb_spec (Text.lower e) "pdf") as [Heq|_];
        [rewrite Heq in Hnot; set_solver|].
      simpl. eauto.
    + intros Hext.
      assert (String.eqb (Text.lower e) "txt" || String.eqb (Text.lower e) "md" = true)
        as -> by (destruct Hext as [-> | ->]; done).
      eexists. split; [done|]. destruct (Utf8.decode content); eauto.
  - intros text tag Hok.
    destruct (Text.rcut Text.dot filename) as [[stem e]|] eqn:Hcut.
    + apply rcut_Some in Hcut as [-> He].
      rewrite (parse_file_with_extension _ _ _ He) in Hok. simpl in Hok.
      unfold get_supported_extensions.
      destruct (String.eqb_spec (Text.lower e) "txt") as [Heq|_].
      { simpl in Hok. injection Hok as _ <-. split; [rewrite Heq; set_solver | eauto]. }
      destruct (String.eqb_spec (Text.lower e) "md") as [Heq|_].
      { simpl in Hok. injection Hok as _ <-. split; [rewrite Heq; set_solver | eauto]. }
      destruct (String.eqb_spec (Text.lower e) "pdf") as [Heq|_]; [|done].
      simpl in Hok. destruct marker as [convert|]; [|done].
      destruct (convert content); [|done].
      injection Hok as _ <-. split; [set_solver|]. exists stem, e. by rewrite Heq.
    + unfold parse_file, Text.rsplit1 in Hok.
      rewrite rcut_lower, Hcut in Hok. done.
Qed.

(** C10. For a file name whose extension is txt or md in any letter
    case, [parse_file] returns normally for every byte string: the text
    is the strict UTF-8 decoding when the bytes are well formed, and
    otherwise the decoding with every ill-formed sequence replaced by
    U+FFFD.  Neither decoding loop runs out of fuel: more fuel than the
    number of bytes changes nothing. *)
Theorem parse_file_text_always_returns (stem e : string) (content : list Z) :
  Text.lower e = "txt" \/ Text.lower e = "md" ->
  exists text,
    parse_file marker (stem +:+ "." +:+ e) content = Ok (text, Text.lower e) /\
    text = match Utf8.decode content with
           | Some t => t
           | None => Utf8.decode_lossy content
           end /\
    (forall n, (length content <= n)%nat ->
       Utf8.decode_strict n content = Utf8.decode content /\
       Utf8.decode_replace n content = Utf8.decode_lossy content).
Proof.
  intros Hext.
  assert (Text.contains "." e = false) as He
    by (rewrite <- contains_dot_lower; by destruct Hext as [-> | ->]).
  rewrite (parse_file_with_extension _ _ _ He). simpl.
  assert (String.eqb (Text.lower e) "txt" || String.eqb (Text.lower e) "md" = true)
    as -> by (destruct Hext as [-> | ->]; done).
  eexists. split; [done|]. split; [done|].
  intros n Hn. split.
  - by apply decode_strict_fuel.
  - by apply decode_replace_fuel.
Qed.

End parser_properties.

(** An upper-case extension is accepted; a file without one is refused. *)
Lemma parse_file_extensions_witness :
  (exists text, FileParser.parse_file None "Notes.TXT" [104; 105] = Ok (text, "txt")) /\
  (exists msg, FileParser.parse_file None "README" [104; 105] = Raise (ValueError msg)).
Proof.
  destruct (parse_file_extensions None "Notes.TXT" [104; 105]) as (_ & Hext & _).
  destruct (Hext "Notes" "TXT" eq_refl eq_refl) as [_ Htxt].
  destruct (Htxt (or_introl eq_refl)) as (text & Hok & _).
  destruct (parse_file_extensions None "README" [104; 105]) as (Hno & _).
  split; [by exists text | exact (Hno eq_refl)].
Defined.

(** The bytes of a text cut in the middle of a character: the upload is
    still parsed, with the truncated sequence replaced. *)
Lemma parse_file_text_always_returns_witness :
  exists text,
    FileParser.parse_file None "notes.md" [72; 105; 226; 130] = Ok (text, "md") /\
    text = [72; 105; 65533].
Proof.
  destruct (parse_file_text_always_returns None "notes" "md" [72; 105; 226; 130]
              (or_intror eq_refl)) as (text & Hok & Htext & _).
  exists text. split; [exact Hok | exact Htext].
Defined.


(** ** The stream logger: method calls *)

Section logger_call_properties.
Import Json Types StreamLogger.

(** The logger after a sequence of method calls on a new logger. *)
Definition after (cs : list call) : t := fold_left do_call cs init.

Definition is_log (c : call) : bool :=
  match c with CallLog _ _ => true | _ => false end.

Definition is_log_metadata (c : call) : bool :=
  match c with CallLogMetadata _ _ => true | _ => false end.

(** The iteration numbers carried by the [iteration] events of a queue. *)
Definition iteration_numbers (q : list (option dict)) : list (option json) :=
  map (fun item => match item with
                   | Some e => dict_get "iteration" e
                   | None => None
                   end)
      (List.filter (is_type "iteration") q).

Lemma after_snoc cs c : after (cs ++ [c]) = do_call (after cs) c.
Proof. unfold after. by rewrite fold_left_app. Qed.

Lemma log_queue lg it now :
  exists e, _queue (log lg it now) = _queue lg ++ [Some e] /\
            entry_type e = Some (JStr "iteration") /\
            dict_get "iteration" e = Some (JInt (_iteration_count lg + 1)).
Proof. eexists. repeat split. Qed.

Lemma log_metadata_queue lg m now :
  _metadata_logged lg = false ->
  exists e, _queue (log_metadata lg m now) = _queue lg ++ [Some e] /\
            entry_type e = Some (JStr "metadata").
Proof. intros H. unfold log_metadata. rewrite H. eexists. repeat split. Qed.

(** What a call adds to the queue. *)
Lemma do_call_queue lg c :
  exists new, _queue (do_call lg c) = _queue lg ++ new /\
    (forall ty, List.filter (is_type ty) new =
       match c with
       | CallLog _ _ => if String.eqb ty "iteration" then new else []
       | CallLogMetadata _ _ => if String.eqb ty "metadata" then new else []
       | CallLogToken _ _ => if String.eqb ty "token" then new else []
       | CallLogCodeResult _ _ _ => if String.eqb ty "code_result" then new else []
       | CallSignalComplete => []
       end) /\
    (length new <= 1)%nat.
Proof.
  destruct c as [m now|it now|tok i|i code r|]; simpl.
  - unfold log_metadata. destruct (_metadata_logged lg).
    + exists []. rewrite app_nil_r.
      split; [done|]. split; [|simpl; lia].
      intros ty. by destruct (String.eqb ty "metadata").
    + eexists [_]. split; [reflexivity|]. split; [|simpl; lia].
      intros ty. simpl. by destruct (String.eqb ty "metadata").
  - eexists [_]. split; [reflexivity|]. split; [|simpl; lia].
    intros ty. simpl. by destruct (String.eqb ty "iteration").
  - eexists [_]. split; [reflexivity|]. split; [|simpl; lia].
    intros ty. simpl. by destruct (String.eqb ty "token").
  - eexists [_]. split; [reflexivity|]. split; [|simpl; lia].
    intros ty. simpl. by destruct (String.eqb ty "code_result").
  - eexists [_]. split; [reflexivity|]. split; [done | simpl; lia].
Qed.

Lemma filter_is_log_snoc cs c :
  length (List.filter is_log (cs ++ [c])) =
  (length (List.filter is_log cs) + (if is_log c then 1 else 0))%nat.
Proof. rewrite List.filter_app, length_app. simpl. by destruct (is_log c). Qed.

(** C5. The counter of a new logger is 0 and every call of [log] adds
    exactly 1 to it.  After any sequence of method calls that contains [n]
    calls of [log], the [iteration] events on the queue carry the numbers
    1, 2, ..., n in this order. *)
Theorem log_numbers_iterations (cs : list call) :
  let n := Z.of_nat (length (List.filter is_log cs)) in
  _iteration_count init = 0 /\
  (forall lg it now, _iteration_count (log lg it now) = _iteration_count lg + 1) /\
  _iteration_count (after cs) = n /\
  iteration_numbers (_queue (after cs)) = map (fun k => Some (JInt k)) (seqZ 1 n).
Proof.
  simpl. split; [done|]. split; [done|].
  induction cs as [|c cs [IHn IHq]] using rev_ind; [done|].
  rewrite after_snoc, filter_is_log_snoc.
  destruct (do_call_queue (after cs) c) as (new & Hq & Hty & _).
  specialize (Hty "iteration"). unfold iteration_numbers in *.
  rewrite Hq, List.filter_app, map_app, IHq, Hty.
  destruct c as [m now|it now|tok i|i code r|]; simpl in *.
  - rewrite Nat.add_0_r, app_nil_r. split; [|done].
    unfold log_metadata. by destruct (_metadata_logged _).
  - rewrite Nat.add_1_r, seqZ_S, map_app, IHn. split; [lia|].
    f_equal. simpl.
    destruct (log_queue (after cs) it now) as (e & Hq' & _ & He).
    simpl in Hq'. rewrite Hq in Hq'. apply app_inv_head in Hq'. subst new.
    simpl. rewrite He, IHn. do 3 f_equal. lia.
  - by rewrite Nat.add_0_r, app_nil_r.
  - by rewrite Nat.add_0_r, app_nil_r.
  - by rewrite Nat.add_0_r, app_nil_r.
Qed.

(** The number of [metadata] events a queue holds. *)
Definition metadata_events (q : list (option dict)) : nat :=
  length (List.filter (is_type "metadata") q).

Lemma after_metadata cs :
  metadata_events (_queue (after cs)) =
  (if _metadata_logged (after cs) then 1 else 0)%nat /\
  _metadata_logged (after cs) = existsb is_log_metadata cs.
Proof.
  induction cs as [|c cs [IHn IHb]] using rev_ind; [done|].
  rewrite after_snoc, existsb_app, <- IHb. simpl. rewrite orb_false_r.
  destruct (do_call_queue (after cs) c) as (new & Hq & Hty & _).
  specialize (Hty "metadata"). unfold metadata_events in *.
  rewrite Hq, List.filter_app, length_app, IHn, Hty.
  destruct c as [m now|it now|tok i|i code r|]; simpl in *;
    try (by rewrite Nat.add_0_r, orb_false_r).
  unfold log_metadata in *. rewrite orb_true_r.
  destruct (_metadata_logged (after cs)) eqn:Hl; simpl in *.
  - rewrite <- (app_nil_r (_queue (after cs))) in Hq at 1.
    apply app_inv_head in Hq. subst new. by rewrite Hl.
  - apply app_inv_head in Hq. by subst new.
Qed.

(** C6. On a logger that has not logged metadata, [log_metadata] puts
    exactly one event on the queue, of type [metadata]; on a logger that
    has, it changes nothing, whatever the argument.  Calling it twice is
    the same as calling it once, and after any sequence of method calls on
    a new logger the queue holds at most one [metadata] event: one if
    [log_metadata] was called, none otherwise. *)
Theorem log_metadata_idempotent :
  (forall lg m now, _metadata_logged lg = false ->
     exists e, _queue (log_metadata lg m now) = _queue lg ++ [Some e] /\
               entry_type e = Some (JStr "metadata") /\
               _metadata_logged (log_metadata lg m now) = true) /\
  (forall lg m now, _metadata_logged lg = true -> log_metadata lg m now = lg) /\
  (forall lg m1 now1 m2 now2,
     log_metadata (log_metadata lg m1 now1) m2 now2 = log_metadata lg m1 now1) /\
  (forall cs,
     metadata_events (_queue (after cs)) =
     (if existsb is_log_metadata cs then 1 else 0)%nat).
Proof.
  repeat split.
  - intros lg m now H. unfold log_metadata. rewrite H. eexists. repeat split.
  - intros lg m now H. unfold log_metadata. by rewrite H.
  - intros lg m1 now1 m2 now2. unfold log_metadata.
    destruct (_metadata_logged lg) eqn:H; simpl; [by rewrite H | done].
  - intros cs. destruct (after_metadata cs) as [-> ->]. done.
Qed.

End logger_call_properties.


(** ** The stream logger: [stream_iterations] *)

Section stream_properties.
Import Json Types StreamLogger.

Definition past_loop (g : generator) : bool :=
  match g with GJoin | GReturned => true | _ => false end.

(** The logger as it would be had nothing been taken off the queue. *)
Definition full (s : state) : t := with_queue (history s) (logger s).

(** The logger, nothing taken off, when the worker enters [finally]. *)
Definition before_finally (fn : completion) (lg : t) : t :=
  let l := fold_left do_call (calls fn) lg in
  match ending fn with
  | RaisesException msg => put (Some (error_entry msg (error_time fn))) l
  | _ => l
  end.

Definition worker_inv (fn : completion) (lg : t) (s : state) : Prop :=
  match wk s with
  | WIdle => full s = lg /\ (gen s = GStart \/ gen s = GClosed)
  | WRunning todo =>
      exists finished, calls fn = finished ++ todo /\
                       full s = fold_left do_call finished lg
  | WExcept msg =>
      ending fn = RaisesException msg /\
      full s = fold_left do_call (calls fn) lg
  | WFinally => ending fn <> Diverges /\ full s = before_finally fn lg
  | WDone =>
      ending fn <> Diverges /\ full s = signal_complete (before_finally fn lg)
  end.

Definition generator_inv (s : state) : Prop :=
  taken s = (Some <$> yielded s) ++ (if past_loop (gen s) then [None] else []) /\
  (gen s = GStart -> wk s = WIdle) /\
  (gen s = GReturned -> wk s = WDone).

Definition inv (fn : completion) (lg : t) (s : state) : Prop :=
  worker_inv fn lg s /\ generator_inv s.

(** How far a state is from the end of the run. *)
Definition measure (fn : completion) (s : state) : nat :=
  (2 * match wk s with
       | WIdle => length (calls fn) + 3
       | WRunning todo => length todo + 3
       | WExcept _ => 2
       | WFinally => 1
       | WDone => 0
       end
   + length (_queue (logger s))
   + match gen s with
     | GStart => 3 | GLoop => 2 | GJoin => 1 | GReturned | GClosed => 0
     end)%nat.

Lemma with_queue_id lg : with_queue (_queue lg) lg = lg.
Proof. by destruct lg. Qed.

Lemma do_call_with_queue lg c :
  exists new, _queue (do_call lg c) = _queue lg ++ new /\
              (length new <= 1)%nat /\
              forall q, do_call (with_queue q lg) c = with_queue (q ++ new) (do_call lg c).
Proof.
  destruct lg as [n logged q0 md].
  destruct c as [m now|it now|tok i|i code r|]; simpl;
    try (eexists [_]; split; [reflexivity|]; split; [simpl; lia | done]).
  unfold log_metadata. simpl. destruct logged.
  - exists []. rewrite app_nil_r. split; [done|]. split; [simpl; lia|].
    intros q. unfold with_queue. simpl. by rewrite app_nil_r.
  - eexists [_]. split; [reflexivity|]. split; [simpl; lia | done].
Qed.

Lemma full_do_call lg c tk :
  with_queue (tk ++ _queue (do_call lg c)) (do_call lg c) =
  do_call (with_queue (tk ++ _queue lg) lg) c.
Proof.
  destruct (do_call_with_queue lg c) as (new & Hq & _ & Hw).
  by rewrite Hw, Hq, app_assoc.
Qed.

Lemma full_put lg x tk :
  with_queue (tk ++ _queue (put x lg)) (put x lg) =
  put x (with_queue (tk ++ _queue lg) lg).
Proof. destruct lg. unfold with_queue, put. simpl. by rewrite app_assoc. Qed.

Lemma start_inv fn lg : inv fn lg (start lg).
Proof.
  split; [split; [apply with_queue_id | by left]|].
  by split; [|split].
Qed.

Lemma step_worker_worker_inv fn lg s s' :
  worker_inv fn lg s -> step_worker fn s = Some s' -> worker_inv fn lg s'.
Proof.
  destruct s as [l w g ys tk].
  unfold worker_inv, step_worker, full, history.
  cbn [wk logger gen yielded taken].
  intros Hw Hs. destruct w as [|[|c todo]|msg| |]; try done.
  - destruct Hw as (fin & Hfin & Hfull). rewrite app_nil_r in Hfin. subst fin.
    unfold before_finally.
    destruct (ending fn) eqn:He; try done;
      injection Hs as <-; cbn [wk logger gen yielded taken]; by rewrite ?He.
  - injection Hs as <-. cbn [wk logger gen yielded taken].
    destruct Hw as (fin & Hfin & Hfull). exists (fin ++ [c]).
    split; [by rewrite <- app_assoc|].
    by rewrite fold_left_app, <- Hfull, full_do_call.
  - injection Hs as <-. cbn [wk logger gen yielded taken].
    destruct Hw as [He Hfull]. split; [by rewrite He|].
    unfold before_finally. by rewrite He, <- Hfull, full_put.
  - injection Hs as <-. cbn [wk logger gen yielded taken].
    destruct Hw as [He Hfull]. split; [done|].
    unfold signal_complete. by rewrite <- Hfull, full_put.
Qed.

Lemma step_worker_generator_inv fn s s' :
  generator_inv s -> step_worker fn s = Some s' -> generator_inv s'.
Proof.
  destruct s as [l w g ys tk].
  unfold generator_inv, step_worker. simpl.
  intros (Htk & Hstart & Hret) Hs.
  assert (g <> GStart /\ (g = GReturned -> w = WDone)) as [Hg1 Hg2].
  { split; [|done]. intros ->. rewrite (Hstart eq_refl) in Hs. done. }
  assert (g <> GReturned) as Hg3 by (intros Hg; rewrite (Hg2 Hg) in Hs; done).
  destruct w as [|[|c todo]|msg| |]; try done;
    [destruct (ending fn); try done|..];
    injection Hs as <-; (split; [done | by split]).
Qed.

Lemma step_generator_worker_inv fn lg s s' :
  worker_inv fn lg s -> step_generator fn s = Some s' -> worker_inv fn lg s'.
Proof.
  destruct s as [[n logged q md] w g ys tk].
  unfold worker_inv, step_generator, full, history, with_queue. simpl.
  intros Hw Hs. destruct g; simplify_eq/=.
  - destruct w; simplify_eq/=. destruct Hw as [Hfull _]. by exists [].
  - destruct q as [|[item|] q]; simplify_eq/=;
      rewrite <- !app_assoc; simpl;
      (destruct w; [by destruct Hw as [_ [|]] | done..]).
  - by destruct w; simplify_eq/=.
Qed.

Lemma step_generator_generator_inv fn s s' :
  generator_inv s -> step_generator fn s = Some s' -> generator_inv s'.
Proof.
  destruct s as [[n logged q md] w g ys tk].
  unfold generator_inv, step_generator. simpl.
  intros (Htk & Hstart & Hret) Hs. destruct g; simplify_eq/=.
  - by destruct w; simplify_eq/=.
  - destruct q as [|[item|] q]; simplify_eq/=.
    + split; [|done]. by rewrite !app_nil_r, fmap_app.
    + split; [|done]. by rewrite !app_nil_r.
  - by destruct w; simplify_eq/=.
Qed.

(** Closing changes the control point of the generator only. *)
Lemma step_close_Some s s' :
  step_close s = Some s' ->
  s' = State (logger s) (wk s) GClosed (yielded s) (taken s) /\
  (gen s = GStart \/ gen s = GLoop /\ yielded s <> []).
Proof.
  unfold step_close. destruct (gen s); try done.
  - intros [= <-]. auto.
  - destruct (yielded s); [done|]. intros [= <-]. auto.
Qed.

Lemma step_close_inv fn lg s s' :
  inv fn lg s -> step_close s = Some s' -> inv fn lg s'.
Proof.
  intros [Hw (Htk & Hstart & Hret)] [-> Hg]%step_close_Some.
  assert (past_loop (gen s) = false) as Hpast
    by (by destruct Hg as [-> | [-> _]]).
  split.
  - unfold worker_inv, full, history in *. cbn [wk logger gen yielded taken].
    destruct (wk s); try done. destruct Hw as [Hfull _]. auto.
  - unfold generator_inv. cbn [wk logger gen yielded taken].
    rewrite Hpast in Htk. by split.
Qed.

Lemma step_inv fn lg s s' : inv fn lg s -> step fn s s' -> inv fn lg s'.
Proof.
  intros Hinv [Hs | [Hs | Hs]]; [| |by eapply step_close_inv].
  all: destruct Hinv as [Hw Hg]; split;
    eauto using step_worker_worker_inv, step_worker_generator_inv,
                step_generator_worker_inv, step_generator_generator_inv.
Qed.

Lemma reachable_inv fn lg s : reachable fn lg s -> inv fn lg s.
Proof.
  intros H. pattern s. revert s H. apply rtc_ind_r; [apply start_inv|].
  intros y z _ Hstep Hy. by eapply step_inv.
Qed.

Lemma inv_rtc fn lg s s' : inv fn lg s -> rtc (step fn) s s' -> inv fn lg s'.
Proof. intros Hi H. induction H; [done|]. eauto using step_inv. Qed.

(** A run under a schedule is a sequence of steps. *)
Lemma run_rtc fn sched s s' : run fn sched s = Some s' -> rtc (step fn) s s'.
Proof.
  revert s. induction sched as [|th sched IH]; intros s; simpl.
  - intros [= ->]. done.
  - destruct th.
    + destruct (step_worker fn s) as [s1|] eqn:H1; [|done].
      intros H. eapply rtc_l; [by left | by apply IH].
    + destruct (step_generator fn s) as [s1|] eqn:H1; [|done].
      intros H. eapply rtc_l; [right; by left | by apply IH].
    + destruct (step_close s) as [s1|] eqn:H1; [|done].
      intros H. eapply rtc_l; [right; by right | by apply IH].
Qed.

Lemma run_reachable fn lg sched s :
  run fn sched (start lg) = Some s -> reachable fn lg s.
Proof. apply run_rtc. Qed.

(** A step only adds at the back of the history and of what was
    yielded. *)
Lemma step_history fn s s' :
  step fn s s' ->
  (exists new, history s' = history s ++ new) /\
  (exists ys, yielded s' = yielded s ++ ys).
Proof.
  intros [Hs | [Hs | Hs]].
  3:{ apply step_close_Some in Hs as [-> _]. unfold history.
      cbn [logger yielded taken].
      split; exists []; by rewrite app_nil_r. }
  all: revert Hs; destruct s as [l w g ys tk];
    unfold step_worker, step_generator, history;
    cbn [wk logger gen yielded taken]; intros Hs.
  - split; [|exists []; rewrite app_nil_r;
             destruct w as [|[|c todo]|msg| |]; try done;
             [destruct (ending fn); try done|..]; by injection Hs as <-].
    destruct w as [|[|c todo]|msg| |]; try done.
    + exists []. destruct (ending fn); try done;
        injection Hs as <-; by rewrite app_nil_r.
    + injection Hs as <-. cbn [logger taken].
      destruct (do_call_with_queue l c) as (new & -> & _).
      exists new. by rewrite app_assoc.
    + injection Hs as <-. eexists [_]. unfold put. simpl. by rewrite app_assoc.
    + injection Hs as <-. eexists [_]. unfold signal_complete, put. simpl.
      by rewrite app_assoc.
  - destruct g; try done.
    + destruct w; try done. injection Hs as <-. simpl.
      split; [exists [] | exists []]; by rewrite app_nil_r.
    + destruct l as [n logged [|[item|] q] md]; try done;
        injection Hs as <-; simpl.
      * split; [exists []; by rewrite app_nil_r, <- app_assoc | by exists [item]].
      * split; [exists []; by rewrite app_nil_r, <- app_assoc
               | exists []; by rewrite app_nil_r].
    + destruct w; try done. injection Hs as <-. simpl.
      split; [exists [] | exists []]; by rewrite app_nil_r.
Qed.

(** After the sentinel was taken the generator yields nothing more. *)
Lemma step_past_loop fn s s' :
  past_loop (gen s) = true -> step fn s s' ->
  yielded s' = yielded s /\ past_loop (gen s') = true.
Proof.
  intros Hg [Hs | [Hs | Hs]].
  3:{ apply step_close_Some in Hs as [_ [Hs | [Hs _]]]; by rewrite Hs in Hg. }
  all: revert Hg Hs; destruct s as [l w g ys tk];
    unfold step_worker, step_generator;
    cbn [wk logger gen yielded taken]; intros Hg Hs.
  - destruct w as [|[|c todo]|msg| |]; try done;
      [destruct (ending fn); try done|..]; by injection Hs as <-.
  - destruct g; try done. destruct w; try done. by injection Hs as <-.
Qed.

Lemma rtc_past_loop fn s s' :
  past_loop (gen s) = true -> rtc (step fn) s s' ->
  yielded s' = yielded s /\ past_loop (gen s') = true.
Proof.
  intros Hg H. induction H as [|s s1 s2 Hstep _ IH]; [done|].
  destruct (step_past_loop _ _ _ Hg Hstep) as [Hy Hg1].
  destruct (IH Hg1) as [Hy2 Hg2]. by rewrite Hy2, Hy.
Qed.

Lemma step_measure fn s s' : step fn s s' -> (measure fn s' < measure fn s)%nat.
Proof.
  intros [Hs | [Hs | Hs]].
  3:{ apply step_close_Some in Hs as [-> Hg]. unfold measure.
      cbn [wk logger gen]. destruct Hg as [-> | [-> _]]; lia. }
  all: revert Hs; destruct s as [l w g ys tk];
    unfold step_worker, step_generator, measure;
    cbn [wk logger gen yielded taken]; intros Hs.
  - destruct w as [|[|c todo]|msg| |]; try done.
    + destruct (ending fn); try done; injection Hs as <-; simpl; lia.
    + injection Hs as <-. cbn [wk logger gen].
      destruct (do_call_with_queue l c) as (new & -> & Hlen & _).
      rewrite length_app. simpl. lia.
    + injection Hs as <-. unfold put. simpl. rewrite length_app. simpl. lia.
    + injection Hs as <-. unfold signal_complete, put. simpl.
      rewrite length_app. simpl. lia.
  - destruct g; try done.
    + destruct w; try done. injection Hs as <-. simpl. lia.
    + destruct l as [n logged [|[item|] q] md]; try done;
        injection Hs as <-; simpl; lia.
    + destruct w; try done. injection Hs as <-. simpl. lia.
Qed.

(** Unless the completion function runs forever, a run whose generator
    has neither returned nor been closed can always go on without the
    consumer stopping. *)
Lemma progress fn lg s :
  ending fn <> Diverges -> inv fn lg s ->
  gen s <> GReturned -> gen s <> GClosed ->
  exists s', step_worker fn s = Some s' \/ step_generator fn s = Some s'.
Proof.
  destruct s as [l w g ys tk]. intros Hend [Hw (Htk & Hstart & _)] Hg Hc.
  unfold worker_inv, full, history, step_worker, step_generator in *.
  cbn [wk logger gen yielded taken] in *.
  destruct w as [|[|c todo]|msg| |].
  - destruct Hw as [_ [-> | ->]]; [eauto | done].
  - destruct (ending fn); try done; eauto.
  - eauto.
  - eauto.
  - eauto.
  - destruct g; try done.
    + by specialize (Hstart eq_refl).
    + destruct Hw as [_ Hfull]. simpl in Htk. rewrite app_nil_r in Htk.
      destruct l as [n logged [|[item|] q] md]; simpl; eauto.
      exfalso. unfold with_queue, signal_complete, put in Hfull. simpl in Hfull.
      injection Hfull as _ _ Hq _. rewrite app_nil_r, Htk in Hq.
      assert (None ∈ (Some <$> ys : list (option dict))) as Hin.
      { rewrite Hq. apply elem_of_app. right. by left. }
      apply list_elem_of_fmap in Hin as (? & ? & _). done.
    + eauto.
Qed.

(** The worker thread never waits for the consumer. *)
Lemma worker_progress fn s :
  ending fn <> Diverges -> wk s <> WIdle -> wk s <> WDone ->
  exists s', step_worker fn s = Some s' /\ wk s' <> WIdle.
Proof.
  intros Hend Hidle Hdone. unfold step_worker.
  destruct (wk s) as [|[|c todo]|msg| |]; try done; [|by eexists..].
  destruct (ending fn); try done; by eexists.
Qed.

(** Only the consumer closes the generator, and a closed generator
    stays closed. *)
Lemma step_open fn s s' :
  step_worker fn s = Some s' \/ step_generator fn s = Some s' ->
  gen s <> GClosed -> gen s' <> GClosed.
Proof.
  destruct s as [l w g ys tk]. unfold step_worker, step_generator.
  cbn [wk logger gen yielded taken]. intros [Hs | Hs] Hg.
  - destruct w as [|[|c todo]|msg| |]; try done;
      [destruct (ending fn); try done|..]; by injection Hs as <-.
  - destruct g; try done.
    + destruct w; try done. by injection Hs as <-.
    + destruct (_queue l) as [|[item|] q]; try done; by injection Hs as <-.
    + destruct w; try done. by injection Hs as <-.
Qed.

Lemma step_closed fn s s' :
  gen s = GClosed -> step fn s s' ->
  gen s' = GClosed /\ yielded s' = yielded s.
Proof.
  intros Hg [Hs | [Hs | Hs]].
  - revert Hs. unfold step_worker.
    destruct (wk s) as [|[|c todo]|msg| |]; try done;
      [destruct (ending fn); try done|..]; by intros [= <-].
  - unfold step_generator in Hs. by rewrite Hg in Hs.
  - by apply step_close_Some in Hs as [-> _].
Qed.

Lemma rtc_closed fn s s' :
  gen s = GClosed -> rtc (step fn) s s' ->
  gen s' = GClosed /\ yielded s' = yielded s.
Proof.
  intros Hg H. induction H as [|s s1 s2 Hstep _ IH]; [done|].
  destruct (step_closed _ _ _ Hg Hstep) as [Hg1 Hy].
  destruct (IH Hg1) as [Hg2 Hy2]. by rewrite Hy2, Hy.
Qed.

#[local] Instance generator_eq_dec : EqDecision generator.
Proof. solve_decision. Defined.

Lemma worker_cases (w : worker) :
  w = WDone \/ w = WIdle \/ (w <> WIdle /\ w <> WDone).
Proof. destruct w; auto. Qed.

(** Every such run can be continued, as long as the consumer does not
    stop, until the generator has returned. *)
Lemma completes fn lg :
  ending fn <> Diverges ->
  forall n s, (measure fn s <= n)%nat -> inv fn lg s -> gen s <> GClosed ->
  exists s', rtc (step fn) s s' /\ gen s' = GReturned /\ wk s' = WDone.
Proof.
  intros Hend n. induction n as [|n IH]; intros s Hn Hinv Hopen.
  - destruct (decide (gen s = GReturned)) as [Hg|Hg].
    + exists s. destruct Hinv as [_ (_ & _ & Hret)].
      split; [done | split; [done | by apply Hret]].
    + destruct (progress _ _ _ Hend Hinv Hg Hopen) as [s' Hs].
      assert (step fn s s') as Hstep%step_measure by (unfold step; tauto). lia.
  - destruct (decide (gen s = GReturned)) as [Hg|Hg].
    + exists s. destruct Hinv as [_ (_ & _ & Hret)].
      split; [done | split; [done | by apply Hret]].
    + destruct (progress _ _ _ Hend Hinv Hg Hopen) as [s' Hs].
      assert (step fn s s') as Hstep by (unfold step; tauto).
      pose proof (step_measure _ _ _ Hstep).
      destruct (IH s') as (s'' & Hrtc & Hfin);
        [lia | by eapply step_inv | by eapply step_open |].
      exists s''. split; [by eapply rtc_l | done].
Qed.

(** Once started, the worker thread runs to its end whatever the
    consumer does. *)
Lemma worker_finishes fn :
  ending fn <> Diverges ->
  forall n s, (measure fn s <= n)%nat -> wk s <> WIdle ->
  exists s', rtc (step fn) s s' /\ wk s' = WDone.
Proof.
  intros Hend n. induction n as [|n IH]; intros s Hn Hidle.
  - destruct (worker_cases (wk s)) as [Hw | [Hw | [_ Hw]]]; [by exists s | done |].
    destruct (worker_progress _ _ Hend Hidle Hw) as (s' & Hs & _).
    assert (step fn s s') as Hstep%step_measure by (by left). lia.
  - destruct (worker_cases (wk s)) as [Hw | [Hw | [_ Hw]]]; [by exists s | done |].
    destruct (worker_progress _ _ Hend Hidle Hw) as (s' & Hs & Hidle').
    assert (step fn s s') as Hstep by (by left).
    pose proof (step_measure _ _ _ Hstep).
    destruct (IH s') as (s'' & Hrtc & Hfin); [lia | done |].
    exists s''. split; [by eapply rtc_l | done].
Qed.

Lemma worker_completes fn lg s :
  ending fn <> Diverges -> inv fn lg s ->
  ~ (wk s = WIdle /\ gen s = GClosed) ->
  exists s', rtc (step fn) s s' /\ wk s' = WDone.
Proof.
  intros Hend [Hw _] Hstart.
  destruct (worker_cases (wk s)) as [Hdone | [Hidle | [Hidle _]]];
    [by exists s | | by apply (worker_finishes fn Hend (measure fn s))].
  assert (gen s = GStart) as Hg.
  { unfold worker_inv in Hw. rewrite Hidle in Hw.
    destruct Hw as [_ [Hg | Hg]]; [done | tauto]. }
  set (s1 := State (logger s) (WRunning (calls fn)) GLoop (yielded s) (taken s)).
  assert (step fn s s1) as Hstep.
  { right. left. unfold step_generator. by rewrite Hg, Hidle. }
  destruct (worker_finishes fn Hend (measure fn s1) s1) as (s' & Hrtc & Hdone);
    [lia | done |].
  exists s'. split; [by eapply rtc_l | done].
Qed.

(** C4. In every state a call of [stream_iterations] can reach, the
    events yielded so far are, in order, the first items ever put on the
    queue; once the generator has left its loop the next item of the
    history is the terminal sentinel, and from then on nothing is yielded
    any more, whatever is put on the queue afterwards.  Steps only add at
    the back of the history and of the yielded events. *)
Theorem stream_order (fn : completion) (lg : t) (s : state) :
  reachable fn lg s ->
  (exists rest,
     history s = (Some <$> yielded s) ++ rest /\
     (past_loop (gen s) = true -> exists rest', rest = None :: rest')) /\
  (forall s', step fn s s' ->
     (exists new, history s' = history s ++ new) /\
     (exists ys, yielded s' = yielded s ++ ys)) /\
  (past_loop (gen s) = true ->
   forall s', rtc (step fn) s s' -> yielded s' = yielded s).
Proof.
  intros Hr. apply reachable_inv in Hr as [_ (Htk & _)].
  split; [|split].
  - unfold history. rewrite Htk.
    destruct (past_loop (gen s)).
    + exists (None :: _queue (logger s)).
      split; [by rewrite <- app_assoc | eauto].
    + exists (_queue (logger s)). split; [by rewrite app_nil_r | done].
  - intros s'. apply step_history.
  - intros Hg s' Hrtc. by destruct (rtc_past_loop _ _ _ Hg Hrtc).
Qed.

(** A run that cannot go on has returned with the worker joined, or
    the consumer closed the generator: then the worker has finished, or
    was never started. *)
Lemma stuck_returned fn lg s :
  ending fn <> Diverges -> inv fn lg s ->
  (forall s', ~ step fn s s') ->
  gen s = GReturned /\ wk s = WDone \/
  gen s = GClosed /\ (wk s = WDone \/ wk s = WIdle).
Proof.
  intros Hend Hinv Hstuck.
  destruct (decide (gen s = GReturned)) as [Hg|Hg].
  { destruct Hinv as [_ (_ & _ & Hret)]. auto. }
  destruct (decide (gen s = GClosed)) as [Hc|Hc].
  - right. split; [done|].
    destruct (worker_cases (wk s)) as [Hd | [Hi | [Hi Hd]]];
      [by left | by right |].
    destruct (worker_progress _ _ Hend Hi Hd) as (s' & Hs & _).
    destruct (Hstuck s'). by left.
  - destruct (progress _ _ _ Hend Hinv Hg Hc) as [s' Hs].
    destruct (Hstuck s'). unfold step. tauto.
Qed.



(** A completion function that logs a token, signals completion too
    early and logs another token: the second token is never yielded. *)
Definition early_complete : completion :=
  Completion [CallLogToken "a" 1; CallSignalComplete; CallLogToken "b" 1]
             Returns "12:00".

Lemma stream_order_witness :
  exists s,
    run early_complete
      [Consumer; Worker; Worker; Worker; Consumer; Consumer; Worker; Worker;
       Consumer] (start init) = Some s /\
    gen s = GReturned /\
    length (yielded s) = 1%nat /\
    length (history s) = 4%nat /\
    exists rest, history s = (Some <$> yielded s) ++ rest /\
                 (past_loop (gen s) = true -> exists rest', rest = None :: rest').
Proof.
  eexists. split; [vm_compute; reflexivity|].
  split; [reflexivity|]. split; [reflexivity|]. split; [reflexivity|].
  refine (proj1 (stream_order early_complete init _ _)).
  apply (run_reachable _ _
           [Consumer; Worker; Worker; Worker; Consumer; Consumer; Worker; Worker;
            Consumer]).
  vm_compute. reflexivity.
Defined.

(** A completion function that logs one token and then fails. *)
Definition failing : completion :=
  Completion [CallLogToken "a" 1] (RaisesException "boom") "12:00".


End stream_properties.


(** ** The enricher: what it does to the heap *)

Section heap_properties.
Import Heap.

(** From [h] to [h'] objects were only added, and of the objects of [h]
    only those at the locations [W] may have changed. *)
Definition stable (W : list loc) (h h' : heap) : Prop :=
  (length h <= length h')%nat /\
  forall l, (l < length h)%nat -> l ∉ W -> h' !! l = h !! l.

(** A list object of [h] is still a list object in [h']. *)
Definition lists_kept (h h' : heap) : Prop :=
  forall l xs, h !! l = Some (OList xs) -> exists xs', h' !! l = Some (OList xs').

(** The computation [c] changes no object that exists when it starts,
    except at the locations [W], where a list stays a list; and its
    results satisfy [Q]. *)
Definition keeps {A : Type} (W : list loc) (c : M A) (Q : A -> Prop) : Prop :=
  forall h, stable W h (snd (c h)) /\ lists_kept h (snd (c h)) /\
            forall a, fst (c h) = Ok a -> Q a.

Lemma stable_refl W h : stable W h h.
Proof. by split. Qed.

Lemma stable_trans W h1 h2 h3 : stable W h1 h2 -> stable W h2 h3 -> stable W h1 h3.
Proof.
  intros [Hl1 H1] [Hl2 H2]. split; [lia|].
  intros l Hl HW. rewrite H2 by (done || lia). by apply H1.
Qed.

Lemma lists_kept_refl h : lists_kept h h.
Proof. intros l xs Hl. eauto. Qed.

Lemma lists_kept_trans h1 h2 h3 :
  lists_kept h1 h2 -> lists_kept h2 h3 -> lists_kept h1 h3.
Proof. intros H1 H2 l xs Hl. destruct (H1 _ _ Hl) as [xs' Hl']. eauto. Qed.

Lemma lists_kept_alloc h o : lists_kept h (h ++ [o]).
Proof. intros l xs Hl. exists xs. by apply lookup_app_l_Some. Qed.

Lemma keeps_ret {A} W (a : A) (Q : A -> Prop) : Q a -> keeps W (mret a) Q.
Proof.
  intros Ha h. split; [apply stable_refl|]. split; [apply lists_kept_refl|].
  by intros ? [= <-].
Qed.

Lemma keeps_raise {A} W e (Q : A -> Prop) : keeps W (raise e) Q.
Proof.
  intros h. split; [apply stable_refl|]. split; [apply lists_kept_refl | done].
Qed.

Lemma keeps_bind {A B} W (c : M A) (k : A -> M B) (Q : A -> Prop) (R : B -> Prop) :
  keeps W c Q -> (forall a, Q a -> keeps W (k a) R) -> keeps W (c ≫= k) R.
Proof.
  intros Hc Hk h. destruct (Hc h) as (Hst & Hli & HQ).
  unfold mbind, M_bind. destruct (c h) as [[a|e] h1]; simpl in *; [|done].
  destruct (Hk a (HQ a eq_refl) h1) as (Hst' & Hli' & HR).
  split; [by eapply stable_trans|]. split; [by eapply lists_kept_trans | done].
Qed.

Lemma keeps_weaken {A} W (c : M A) (Q R : A -> Prop) :
  keeps W c Q -> (forall a, Q a -> R a) -> keeps W c R.
Proof.
  intros Hc HQR h. destruct (Hc h) as (? & ? & ?). split; [done|]. split; [done | eauto].
Qed.

Lemma keeps_read W l : keeps W (read l) (fun _ => True).
Proof.
  intros h. unfold read.
  destruct (h !! l);
    (split; [apply stable_refl|]; split; [apply lists_kept_refl | done]).
Qed.

Lemma keeps_alloc W o : keeps W (alloc o) (fun _ => True).
Proof.
  intros h. split; [|split; [apply lists_kept_alloc | done]].
  simpl. split; [rewrite length_app; lia|].
  intros l Hl _. by apply lookup_app_l.
Qed.

(** An object the computation allocates itself may be changed by what
    follows. *)
Lemma keeps_alloc_bind {A} W o (k : loc -> M A) (Q : A -> Prop) :
  (forall l, keeps (l :: W) (k l) Q) -> keeps W (alloc o ≫= k) Q.
Proof.
  intros Hk h. unfold mbind, M_bind, alloc.
  destruct (Hk (length h) (h ++ [o])) as ([Hlen Hst] & Hli & HQ).
  split; [|split; [|done]].
  - rewrite length_app in Hlen. simpl in Hlen. split; [lia|].
    intros l Hl HW. rewrite Hst.
    + by apply lookup_app_l.
    + rewrite length_app. lia.
    + rewrite not_elem_of_cons. split; [lia | done].
  - eapply lists_kept_trans; [apply lists_kept_alloc | done].
Qed.

(** Writing a list where there is a list. *)
Lemma keeps_write_list W l xs ys h :
  l ∈ W -> h !! l = Some (OList xs) ->
  stable W h (<[l := OList ys]> h) /\ lists_kept h (<[l := OList ys]> h).
Proof.
  intros HW Hl. split.
  - split; [by rewrite length_insert|].
    intros l' _ Hl'. apply list_lookup_insert_ne. by intros ->.
  - intros l' xs' Hl'. destruct (decide (l = l')) as [<-|Hne].
    + exists ys. apply list_lookup_insert_eq. by eapply lookup_lt_Some.
    + exists xs'. by rewrite list_lookup_insert_ne.
Qed.

Lemma keeps_mono {A} W W' (c : M A) (Q : A -> Prop) :
  (forall l, l ∈ W -> l ∈ W') -> keeps W c Q -> keeps W' c Q.
Proof.
  intros Hsub Hc h. destruct (Hc h) as ([Hlen Hst] & Hli & HQ).
  split; [|done]. split; [done|]. intros l Hl Hnot. apply Hst; [done|].
  intros HW. by apply Hnot, Hsub.
Qed.

(** One step of a frame proof: split a bind, or analyse the value the
    computation branches on. *)
Ltac keeps_step :=
  match goal with
  | |- keeps _ (mret _) _ => by apply keeps_ret
  | |- keeps _ (raise _) _ => apply keeps_raise
  | |- keeps _ (mbind _ (alloc _)) _ => apply keeps_alloc_bind; intros ?
  | |- keeps _ (mbind _ _) _ =>
      eapply keeps_bind; [solve [eauto with keeps] | intros ? _]
  | |- keeps _ (match ?x with _ => _ end) _ => destruct x
  | |- keeps _ _ _ => solve [eauto with keeps]
  end.

Ltac keeps_auto := repeat keeps_step.

Create HintDb keeps.
#[local] Hint Resolve keeps_read keeps_alloc : keeps.

Lemma keeps_dict_get W d k default :
  keeps W (dict_get d k default) (fun _ => True).
Proof. unfold dict_get. keeps_auto. Qed.

Lemma keeps_truthy W v : keeps W (truthy v) (fun _ => True).
Proof. unfold truthy. keeps_auto. Qed.

Lemma keeps_str_in W needle v : keeps W (str_in needle v) (fun _ => True).
Proof. unfold str_in. keeps_auto. Qed.

Lemma keeps_str_lower W v : keeps W (str_lower v) (fun _ => True).
Proof. unfold str_lower. keeps_auto. Qed.

Lemma keeps_iter W v : keeps W (iter v) (fun _ => True).
Proof. unfold iter. keeps_auto. Qed.

Lemma keeps_len W v : keeps W (len v) (fun _ => True).
Proof. unfold len. keeps_auto. Qed.

#[local] Hint Resolve keeps_dict_get keeps_truthy keeps_str_in keeps_str_lower
  keeps_iter keeps_len : keeps.

Lemma keeps_list_append W l v :
  l ∈ W -> keeps W (list_append l v) (fun _ => True).
Proof.
  intros HW h. unfold list_append, mbind, M_bind, read, write.
  destruct (h !! l) as [[xs|kvs]|] eqn:Hl; simpl.
  - destruct (keeps_write_list W l xs (xs ++ [v]) h HW Hl). by split.
  - split; [apply stable_refl|]. split; [apply lists_kept_refl | done].
  - split; [apply stable_refl|]. split; [apply lists_kept_refl | done].
Qed.

Lemma keeps_list_extend W l src :
  l ∈ W -> keeps W (list_extend l src) (fun _ => True).
Proof.
  intros HW h. unfold list_extend, mbind, M_bind, read, write.
  destruct (h !! src) as [[ys|kvs]|] eqn:Hsrc; simpl;
    try (split; [apply stable_refl|]; split; [apply lists_kept_refl | done]).
  destruct (h !! l) as [[xs|kvs]|] eqn:Hl; simpl;
    try (split; [apply stable_refl|]; split; [apply lists_kept_refl | done]).
  destruct (keeps_write_list W l xs (xs ++ ys) h HW Hl). by split.
Qed.

Lemma keeps_for_each {A} W (xs : list A) body :
  (forall x, keeps W (body x) (fun _ => True)) ->
  keeps W (for_each xs body) (fun _ => True).
Proof.
  intros Hbody. induction xs as [|x xs IH]; simpl; [by apply keeps_ret|].
  eapply keeps_bind; [apply Hbody | by intros].
Qed.

Lemma keeps_any_of {A} W (xs : list A) p :
  (forall x, keeps W (p x) (fun _ => True)) ->
  keeps W (any_of xs p) (fun _ => True).
Proof.
  intros Hp. induction xs as [|x xs IH]; simpl; [by apply keeps_ret|].
  eapply keeps_bind; [apply Hp|]. intros [] _; [by apply keeps_ret | done].
Qed.

Lemma keeps_sum_of {A} W (xs : list A) f acc :
  (forall x, keeps W (f x) (fun _ => True)) ->
  keeps W (sum_of xs f acc) (fun _ => True).
Proof.
  intros Hf. revert acc. induction xs as [|x xs IH]; intros acc; simpl;
    [by apply keeps_ret|].
  eapply keeps_bind; [apply Hf | by intros].
Qed.

Lemma keeps_annotate W code : keeps W (Enricher.annotate code) (fun _ => True).
Proof.
  unfold Enricher.annotate. destruct code; try apply keeps_raise.
  apply keeps_alloc_bind. intros annotations.
  eapply keeps_bind; [|intros _ _; by apply keeps_ret].
  apply keeps_for_each. intros a.
  eapply keeps_bind; [apply keeps_alloc|]. intros d _.
  apply keeps_list_append. by left.
Qed.

Lemma keeps_unwrap_final_answer W v :
  keeps W (Enricher.unwrap_final_answer v) (fun _ => True).
Proof.
  unfold Enricher.unwrap_final_answer. destruct v; try by apply keeps_ret.
  eapply keeps_bind; [apply keeps_read|]. intros o _.
  repeat case_match; by apply keeps_ret.
Qed.

(** The four phases. *)
Definition phases : list string :=
  ["answering"; "synthesizing"; "analyzing"; "exploring"].

Lemma keeps_detect_phase W response blocks final_answer :
  keeps W (Enricher._detect_phase response blocks final_answer)
        (fun phase => phase ∈ phases).
Proof.
  assert (forall p, p ∈ phases -> keeps W (mret p) (fun phase => phase ∈ phases))
    as Hret by (intros; by apply keeps_ret).
  assert ("answering" ∈ phases /\ "synthesizing" ∈ phases
          /\ "analyzing" ∈ phases /\ "exploring" ∈ phases) as (H1 & H2 & H3 & H4).
  { unfold phases. rewrite !elem_of_cons. tauto. }
  unfold Enricher._detect_phase.
  eapply keeps_bind; [apply keeps_str_lower|]. intros lower _.
  eapply keeps_bind; [apply keeps_truthy|]. intros [] _; [by apply Hret|].
  eapply keeps_bind; [apply keeps_iter|]. intros bs _.
  eapply keeps_bind.
  { apply keeps_any_of. intros b.
    eapply keeps_bind; [apply keeps_dict_get|]. intros c _. apply keeps_str_in. }
  intros q _. eapply keeps_bind.
  { apply keeps_any_of. intros b.
    eapply keeps_bind; [apply keeps_dict_get|]. intros c _.
    eapply keeps_bind; [apply keeps_str_in|]. intros [] _; [by apply keeps_ret|].
    eapply keeps_bind; [apply keeps_dict_get|]. intros c' _. apply keeps_str_in. }
  intros b _. repeat case_match; by apply Hret.
Qed.

Lemma keeps_summarize W n blocks final_answer :
  keeps W (Enricher._summarize n blocks final_answer) (fun _ => True).
Proof.
  unfold Enricher._summarize.
  eapply keeps_bind; [apply keeps_iter|]. intros bs _.
  eapply keeps_bind.
  { apply keeps_sum_of. intros b.
    eapply keeps_bind; [apply keeps_alloc|]. intros d _.
    eapply keeps_bind; [apply keeps_dict_get|]. intros c _. apply keeps_len. }
  intros calls _.
  eapply keeps_bind; [apply keeps_truthy|]. intros [] _; [by apply keeps_ret|].
  destruct (0 <? calls); [by apply keeps_ret|].
  eapply keeps_bind; [apply keeps_truthy|]. intros [] _; [|by apply keeps_ret].
  eapply keeps_bind; [apply keeps_len|]. intros k _. by apply keeps_ret.
Qed.

(** One round of the loop changes, of the objects that exist when it
    starts, only the two lists [enrich] itself created. *)
Lemma keeps_enrich_block W code_blocks all_annotations block :
  code_blocks ∈ W -> all_annotations ∈ W ->
  keeps W (Enricher.enrich_block code_blocks all_annotations block) (fun _ => True).
Proof.
  intros Hc Ha. unfold Enricher.enrich_block.
  eapply keeps_bind; [apply keeps_dict_get|]. intros code _.
  eapply keeps_bind; [apply keeps_alloc|]. intros d _.
  eapply keeps_bind; [apply keeps_dict_get|]. intros result _.
  eapply keeps_bind; [apply keeps_annotate|]. intros annotations _.
  eapply keeps_bind; [by apply keeps_list_extend|]. intros _ _.
  eapply keeps_bind; [apply keeps_dict_get|]. intros stdout _.
  eapply keeps_bind; [apply keeps_dict_get|]. intros stderr _.
  eapply keeps_bind; [apply keeps_alloc|]. intros d1 _.
  eapply keeps_bind; [apply keeps_dict_get|]. intros locals _.
  eapply keeps_bind; [apply keeps_dict_get|]. intros execution_time _.
  eapply keeps_bind; [apply keeps_alloc|]. intros d2 _.
  eapply keeps_bind; [apply keeps_dict_get|]. intros rlm_calls _.
  eapply keeps_bind; [apply keeps_alloc|]. intros new_block _.
  by apply keeps_list_append.
Qed.

(** [enrich] changes no object that exists when it is called. *)
Lemma keeps_enrich iteration_data :
  keeps [] (Enricher.enrich iteration_data) (fun _ => True).
Proof.
  unfold Enricher.enrich.
  eapply keeps_bind; [apply keeps_dict_get|]. intros iteration_number _.
  eapply keeps_bind; [apply keeps_dict_get|]. intros response _.
  eapply keeps_bind; [apply keeps_alloc|]. intros d _.
  eapply keeps_bind; [apply keeps_dict_get|]. intros raw_code_blocks _.
  eapply keeps_bind; [apply keeps_dict_get|]. intros final_answer _.
  eapply keeps_bind; [apply keeps_dict_get|]. intros t _.
  eapply keeps_bind; [apply keeps_truthy|]. intros t_true _.
  eapply keeps_bind; [apply keeps_unwrap_final_answer|]. intros final_answer' _.
  eapply keeps_bind; [apply keeps_detect_phase|]. intros phase _.
  apply keeps_alloc_bind. intros code_blocks.
  apply keeps_alloc_bind. intros all_annotations.
  eapply keeps_bind; [apply keeps_iter|]. intros blocks _.
  eapply keeps_bind.
  { apply keeps_for_each. intros block.
    apply keeps_enrich_block; set_solver. }
  intros _ _.
  eapply keeps_bind; [apply keeps_summarize|]. intros what_happened _.
  by apply keeps_ret.
Qed.

(** *** Successful runs, step by step *)

Lemma keeps_stable {A} W (c : M A) Q h r h' :
  keeps W c Q -> c h = (r, h') -> stable W h h'.
Proof. intros Hc Hrun. destruct (Hc h) as [Hst _]. by rewrite Hrun in Hst. Qed.

Lemma keeps_lists {A} W (c : M A) Q h r h' :
  keeps W c Q -> c h = (r, h') -> lists_kept h h'.
Proof. intros Hc Hrun. destruct (Hc h) as (_ & Hli & _). by rewrite Hrun in Hli. Qed.

Lemma keeps_result {A} W (c : M A) (Q : A -> Prop) h a h' :
  keeps W c Q -> c h = (Ok a, h') -> Q a.
Proof.
  intros Hc Hrun. destruct (Hc h) as (_ & _ & HQ). apply HQ. by rewrite Hrun.
Qed.

Lemma bind_Ok {A B} (c : M A) (k : A -> M B) h b h' :
  (c ≫= k) h = (Ok b, h') ->
  exists a h1, c h = (Ok a, h1) /\ k a h1 = (Ok b, h').
Proof.
  unfold mbind, M_bind. destruct (c h) as [[a|e] h1]; [eauto | done].
Qed.

Lemma read_Ok l h o h' : read l h = (Ok o, h') -> h' = h /\ h !! l = Some o.
Proof. unfold read. destruct (h !! l); [|done]. by intros [= -> ->]. Qed.

Lemma dict_get_Ok d k default h v h' :
  dict_get d k default h = (Ok v, h') ->
  h' = h /\ exists l m, d = VRef l /\ h !! l = Some (ODict m) /\
                        v = match m !! k with Some x => x | None => default end.
Proof.
  destruct d; try done. simpl.
  intros (o & h1 & [-> Hl]%read_Ok & Hk)%bind_Ok.
  destruct o; [done|]. injection Hk as <- <-. eauto 10.
Qed.

Lemma list_append_Ok l v h h' :
  list_append l v h = (Ok tt, h') ->
  exists xs, h !! l = Some (OList xs) /\ h' = <[l := OList (xs ++ [v])]> h.
Proof.
  intros (o & h1 & [-> Hl]%read_Ok & Hk)%bind_Ok.
  destruct o; [|done]. injection Hk as <-. eauto.
Qed.

(** The objects of [h] are still there, unchanged, in [h']. *)
Definition extends (h h' : heap) : Prop :=
  forall l o, h !! l = Some o -> h' !! l = Some o.

Lemma extends_stable W h h1 h2 :
  extends h h1 -> stable W h1 h2 ->
  (forall l, l ∈ W -> (length h <= l)%nat) -> extends h h2.
Proof.
  intros Hext [_ Hst] HW l o Hl. rewrite Hst.
  - by apply Hext.
  - apply Hext in Hl. by eapply lookup_lt_Some.
  - intros Hin%HW. apply lookup_lt_Some in Hl. lia.
Qed.

Lemma extends_refl h : extends h h.
Proof. by intros l o. Qed.

End heap_properties.


(** ** The phase classifier *)

Section phase_properties.
Import Heap Enricher.

(** An optional string as a Python value. *)
Definition opt_val (o : option string) : val :=
  match o with Some s => VStr s | None => VNone end.

(** The value [b] is a dict whose [code] entry, [""] when absent, is the
    string [c]. *)
Definition block_code (h : heap) (b : val) (c : string) : Prop :=
  exists l m, b = VRef l /\ h !! l = Some (ODict m) /\
              match m !! "code" with Some v => v | None => VStr "" end = VStr c.

(** The value [v] is a list of code-block dicts with the codes [codes]. *)
Definition blocks_codes (h : heap) (v : val) (codes : list string) : Prop :=
  exists l bs, v = VRef l /\ h !! l = Some (OList bs) /\
               Forall2 (block_code h) bs codes.

(** The classifier as the specification words it: a code block counts for
    [synthesizing] only when the same block mentions both the sub-query
    primitive and a buffer or answer name, and any final answer that is
    present counts for [answering]. *)
Definition spec_phase (response : string) (codes : list string)
    (final_answer : option string) : string :=
  match final_answer with
  | Some _ => "answering"
  | None =>
      if existsb (fun c => Text.contains "llm_query" c
                           && (Text.contains "buffer" c || Text.contains "answer" c))
                 codes
      then "synthesizing"
      else if existsb (Text.contains "llm_query") codes
              || Text.contains "chunk" (Text.lower response)
              || Text.contains "split" (Text.lower response)
      then "analyzing"
      else "exploring"
  end.

Lemma dict_get_code h b c :
  block_code h b c -> dict_get b "code" (VStr "") h = (Ok (VStr c), h).
Proof.
  intros (l & m & -> & Hl & Hc). unfold dict_get, read, mbind, M_bind.
  rewrite Hl. simpl. by rewrite Hc.
Qed.

Lemma any_of_codes h bs codes (p : val -> M bool) (f : string -> bool) :
  Forall2 (block_code h) bs codes ->
  (forall b c, block_code h b c -> p b h = (Ok (f c), h)) ->
  any_of bs p h = (Ok (existsb f codes), h).
Proof.
  intros Hbs Hp. induction Hbs as [|b c bs codes Hb _ IH]; [done|].
  simpl. unfold mbind, M_bind. rewrite (Hp b c Hb).
  destruct (f c); [done | apply IH].
Qed.

Lemma existsb_Exists {A} (f : A -> bool) (l : list A) :
  existsb f l = true <-> Exists (fun x => f x = true) l.
Proof.
  rewrite existsb_exists, Exists_exists. setoid_rewrite list_elem_of_In. done.
Qed.

(** On a well-typed iteration the classifier is this function of the
    response, the codes and the final answer. *)
Definition phase_of (response : string) (codes : list string)
    (final_answer : option string) : string :=
  let has_llm_query := existsb (Text.contains "llm_query") codes in
  let has_buffer :=
    existsb (fun c => Text.contains "buffer" c || Text.contains "answer" c) codes in
  if match final_answer with Some s => Text.nonempty s | None => false end
  then "answering"
  else if has_llm_query && has_buffer then "synthesizing"
  else if has_llm_query then "analyzing"
  else if Text.contains "chunk" (Text.lower response)
          || Text.contains "split" (Text.lower response) then "analyzing"
  else "exploring".

Lemma detect_phase_typed h response blocks codes final_answer :
  blocks_codes h blocks codes ->
  _detect_phase (VStr response) blocks (opt_val final_answer) h =
  (Ok (phase_of response codes final_answer), h).
Proof.
  intros (l & bs & -> & Hl & Hbs). unfold _detect_phase, phase_of.
  unfold mbind at 1, M_bind at 1. simpl.
  unfold mbind at 1, M_bind at 1.
  destruct final_answer as [s|]; simpl.
  - destruct (Text.nonempty s); [done|].
    unfold mbind at 1, M_bind at 1, mbind at 1, M_bind at 1, read.
    rewrite Hl. simpl.
    unfold mbind at 1, M_bind at 1.
    erewrite any_of_codes; [|done|]; last first.
    { intros b c Hb. unfold mbind, M_bind. by rewrite (dict_get_code _ _ _ Hb). }
    unfold mbind at 1, M_bind at 1.
    erewrite (any_of_codes _ _ _ _
                (fun c => Text.contains "buffer" c || Text.contains "answer" c));
      [|done|]; last first.
    { intros b c Hb. unfold mbind, M_bind. rewrite !(dict_get_code _ _ _ Hb).
      simpl. destruct (Text.contains "buffer" c); [done|].
      by rewrite (dict_get_code _ _ _ Hb). }
    by repeat case_match.
  - unfold mbind at 1, M_bind at 1, mbind at 1, M_bind at 1, read.
    rewrite Hl. simpl.
    unfold mbind at 1, M_bind at 1.
    erewrite any_of_codes; [|done|]; last first.
    { intros b c Hb. unfold mbind, M_bind. by rewrite (dict_get_code _ _ _ Hb). }
    unfold mbind at 1, M_bind at 1.
    erewrite (any_of_codes _ _ _ _
                (fun c => Text.contains "buffer" c || Text.contains "answer" c));
      [|done|]; last first.
    { intros b c Hb. unfold mbind, M_bind. rewrite !(dict_get_code _ _ _ Hb).
      simpl. destruct (Text.contains "buffer" c); [done|].
      by rewrite (dict_get_code _ _ _ Hb). }
    by repeat case_match.
Qed.

(** C1, as amended. On an iteration whose response is a string, whose
    code blocks are dicts with string codes and whose final answer is a
    string or absent, [_detect_phase] returns exactly one phase, by
    first match: [answering] when the final answer is present and not
    empty; otherwise [synthesizing] when some code block mentions
    [llm_query] and some code block, the same or another, mentions
    [buffer] or [answer]; otherwise [analyzing] when some code block
    mentions [llm_query], or the lower-cased response mentions [chunk] or
    [split]; otherwise [exploring].  The heap is left as it was. *)
Theorem detect_phase_first_match (h : heap) (response : string) (blocks : val)
    (codes : list string) (final_answer : option string) :
  blocks_codes h blocks codes ->
  let answered := exists s, final_answer = Some s /\ s <> "" in
  let queries := Exists (fun c => Text.contains "llm_query" c = true) codes in
  let buffers :=
    Exists (fun c => Text.contains "buffer" c = true
                     \/ Text.contains "answer" c = true) codes in
  let chunks :=
    Text.contains "chunk" (Text.lower response) = true
    \/ Text.contains "split" (Text.lower response) = true in
  exists phase,
    _detect_phase (VStr response) blocks (opt_val final_answer) h = (Ok phase, h) /\
    (answered -> phase = "answering") /\
    (~ answered -> queries -> buffers -> phase = "synthesizing") /\
    (~ answered -> queries -> ~ buffers -> phase = "analyzing") /\
    (~ answered -> ~ queries -> chunks -> phase = "analyzing") /\
    (~ answered -> ~ queries -> ~ chunks -> phase = "exploring").
Proof.
  intros Hblocks answered queries buffers chunks.
  exists (phase_of response codes final_answer).
  split; [by apply detect_phase_typed|].
  assert (match final_answer with Some s => Text.nonempty s | None => false end = true
          <-> answered) as Hans.
  { unfold answered. destruct final_answer as [[|a s]|]; simpl; split; try done.
    - by intros (s & [= <-] & ?).
    - intros _. by exists (String a s).
    - by intros (s & ? & _). }
  assert (existsb (Text.contains "llm_query") codes = true <-> queries) as Hq
    by apply existsb_Exists.
  assert (existsb (fun c => Text.contains "buffer" c || Text.contains "answer" c) codes
          = true <-> buffers) as Hb.
  { rewrite existsb_Exists. unfold buffers. rewrite !Exists_exists.
    by setoid_rewrite orb_true_iff. }
  assert (Text.contains "chunk" (Text.lower response)
          || Text.contains "split" (Text.lower response) = true <-> chunks) as Hc
    by apply orb_true_iff.
  unfold phase_of.
  destruct (match final_answer with Some s => Text.nonempty s | None => false end);
    destruct (existsb (Text.contains "llm_query") codes);
    destruct (existsb _ codes);
    destruct (Text.contains "chunk" (Text.lower response)
              || Text.contains "split" (Text.lower response));
    simpl; repeat split; intros; try done; exfalso; intuition congruence.
Qed.

(** Two code blocks, the first calling the sub-model, the second filling
    a buffer. *)
Definition two_blocks : heap :=
  [ODict {["code" := VStr "x = llm_query(q)"]};
   ODict {["code" := VStr "buffer = []"]};
   OList [VRef 0%nat; VRef 1%nat]].

Lemma two_blocks_codes :
  blocks_codes two_blocks (VRef 2%nat) ["x = llm_query(q)"; "buffer = []"].
Proof.
  exists 2%nat, [VRef 0%nat; VRef 1%nat]. split; [done|]. split; [done|].
  repeat constructor.
  - by exists 0%nat, {["code" := VStr "x = llm_query(q)"]}.
  - by exists 1%nat, {["code" := VStr "buffer = []"]}.
Qed.

Lemma detect_phase_first_match_witness :
  fst (_detect_phase (VStr "Let me look") (VRef 2%nat) (opt_val None) two_blocks)
  = Ok "synthesizing".
Proof.
  destruct (detect_phase_first_match two_blocks "Let me look" (VRef 2%nat)
              ["x = llm_query(q)"; "buffer = []"] None two_blocks_codes)
    as (phase & -> & _ & Hsyn & _).
  simpl. f_equal. apply Hsyn.
  - by intros (s & ? & _).
  - by left.
  - right. left. by left.
Defined.

(** The classifier differs from the wording of the specification on two
    inputs: no single block of [two_blocks] mentions both names, yet the
    phase is [synthesizing]; and a final answer that is present but empty
    does not give [answering]. *)
Lemma detect_phase_not_spec_phase :
  (blocks_codes two_blocks (VRef 2%nat) ["x = llm_query(q)"; "buffer = []"] /\
   fst (_detect_phase (VStr "") (VRef 2%nat) (opt_val None) two_blocks)
     = Ok "synthesizing" /\
   spec_phase "" ["x = llm_query(q)"; "buffer = []"] None = "analyzing") /\
  (blocks_codes [OList []] (VRef 0%nat) [] /\
   fst (_detect_phase (VStr "") (VRef 0%nat) (opt_val (Some "")) [OList []])
     = Ok "exploring" /\
   spec_phase "" [] (Some "") = "answering").
Proof.
  split.
  - split; [apply two_blocks_codes|]. split; [vm_compute; reflexivity | reflexivity].
  - split; [|split; [vm_compute; reflexivity | reflexivity]].
    exists 0%nat, []. split; [done|]. split; [done | constructor].
Qed.

End phase_properties.


(** ** The enricher: input untouched, original fields embedded *)

Section enrich_properties.
Import Heap Enricher.

(** [m.get(k, default)] on the entries of a dict. *)
Definition entry (m : gmap string val) (k : string) (default : val) : val :=
  match m !! k with Some v => v | None => default end.

(** The entries [mn] of a rebuilt code block carry the fields of the
    original result [res]. *)
Definition result_embeds (h : heap) (res : val) (mn : gmap string val) : Prop :=
  forall lr mr, res = VRef lr -> h !! lr = Some (ODict mr) ->
    mn !! "stdout" = Some (entry mr "stdout" (VStr "")) /\
    mn !! "stderr" = Some (entry mr "stderr" (VStr "")) /\
    mn !! "executionTime" = Some (entry mr "execution_time" (VInt 0)) /\
    (forall v, mr !! "locals" = Some v -> mn !! "locals" = Some v) /\
    (forall v, mr !! "rlm_calls" = Some v -> mn !! "subLmCalls" = Some v).

(** [nb] is a new dict of [h'] that carries the code and the result
    fields of the original block [b] of [h]. *)
Definition block_embeds (h h' : heap) (b nb : val) : Prop :=
  exists ln mn, nb = VRef ln /\ (length h <= ln)%nat /\
    h' !! ln = Some (ODict mn) /\
    forall lb mb, b = VRef lb -> h !! lb = Some (ODict mb) ->
      mn !! "code" = Some (entry mb "code" (VStr "")) /\
      forall res, mb !! "result" = Some res -> result_embeds h res mn.

Lemma alloc_Ok o h l h' : alloc o h = (Ok l, h') -> l = length h /\ h' = h ++ [o].
Proof. by intros [= <- <-]. Qed.

Lemma stable_alloc W o h : stable W h (h ++ [o]).
Proof. exact (keeps_stable W (alloc o) _ h _ _ (keeps_alloc W o) eq_refl). Qed.

Lemma enrich_block_Ok h lc la b hk hk1 acc :
  extends h hk -> (length h <= lc)%nat -> (length h <= la)%nat -> lc <> la ->
  hk !! lc = Some (OList acc) ->
  enrich_block lc la b hk = (Ok tt, hk1) ->
  exists nb, hk1 !! lc = Some (OList (acc ++ [nb])) /\
             block_embeds h hk1 b nb /\
             (exists ln, nb = VRef ln /\ (length hk <= ln)%nat).
Proof.
  intros Hext Hlc Hla Hne Hacc Hrun. unfold enrich_block in Hrun.
  apply bind_Ok in Hrun as (code & h1 & Hcode & Hrun).
  apply dict_get_Ok in Hcode as (-> & lb & mb & -> & Hlb & ->).
  apply bind_Ok in Hrun as (d & h1 & [-> ->]%alloc_Ok & Hrun).
  apply bind_Ok in Hrun as (result & h1 & Hres & Hrun).
  apply dict_get_Ok in Hres as (-> & lb' & mb' & [= <-] & Hlb' & ->).
  rewrite lookup_app_l in Hlb' by (by eapply lookup_lt_Some).
  pose proof (eq_trans (eq_sym Hlb) Hlb') as [= <-]. clear Hlb'.
  apply bind_Ok in Hrun as (anns & h2 & Hann & Hrun).
  apply (keeps_stable [] _ _ _ _ _ (keeps_annotate [] _)) in Hann.
  apply bind_Ok in Hrun as ([] & h3 & Hextend & Hrun).
  apply (keeps_stable [la] _ _ _ _ _
           (keeps_list_extend [la] la _ (list_elem_of_here _ _))) in Hextend.
  pose proof (stable_alloc [] (ODict ∅) hk) as Hst1.
  assert (extends h h3) as Hext3.
  { eapply extends_stable;
      [|exact Hextend|by intros l [->|[]%elem_of_nil]%elem_of_cons].
    eapply extends_stable; [|exact Hann|by intros l []%elem_of_nil].
    eapply extends_stable; [exact Hext|exact Hst1|by intros l []%elem_of_nil]. }
  assert (h3 !! lc = Some (OList acc)) as Hacc3.
  { pose proof (lookup_lt_Some _ _ _ Hacc) as Hlt.
    destruct Hextend as [_ ->];
      [|destruct Hann as [Hl _]; destruct Hst1 as [Hl1 _]; lia
       |by intros [->|[]%elem_of_nil]%elem_of_cons].
    destruct Hann as [_ ->];
      [|destruct Hst1 as [Hl1 _]; lia|by intros []%elem_of_nil].
    destruct Hst1 as [_ ->]; [done|done|by intros []%elem_of_nil]. }
  assert (length hk <= length h3)%nat as Hlen3.
  { destruct Hextend as [? _], Hann as [? _], Hst1 as [? _]. lia. }
  apply bind_Ok in Hrun as (stdout & h4 & Hso & Hrun).
  apply dict_get_Ok in Hso as (-> & lr & mr & Hresult & Hlr & ->).
  apply bind_Ok in Hrun as (stderr & h4 & Hse & Hrun).
  apply dict_get_Ok in Hse as (-> & lr' & mr' & Hresult' & Hlr' & ->).
  pose proof (eq_trans (eq_sym Hresult) Hresult') as [= <-]. clear Hresult'.
  pose proof (eq_trans (eq_sym Hlr) Hlr') as [= <-]. clear Hlr'.
  apply bind_Ok in Hrun as (d1 & h4 & [-> ->]%alloc_Ok & Hrun).
  apply bind_Ok in Hrun as (locals & h4 & Hlo & Hrun).
  apply dict_get_Ok in Hlo as (-> & lr' & mr' & Hresult' & Hlr' & ->).
  pose proof (eq_trans (eq_sym Hresult) Hresult') as [= <-]. clear Hresult'.
  rewrite lookup_app_l in Hlr' by (by eapply lookup_lt_Some).
  pose proof (eq_trans (eq_sym Hlr) Hlr') as [= <-]. clear Hlr'.
  apply bind_Ok in Hrun as (etime & h4 & Het & Hrun).
  apply dict_get_Ok in Het as (-> & lr' & mr' & Hresult' & Hlr' & ->).
  pose proof (eq_trans (eq_sym Hresult) Hresult') as [= <-]. clear Hresult'.
  rewrite lookup_app_l in Hlr' by (by eapply lookup_lt_Some).
  pose proof (eq_trans (eq_sym Hlr) Hlr') as [= <-]. clear Hlr'.
  apply bind_Ok in Hrun as (d2 & h4 & [-> ->]%alloc_Ok & Hrun).
  apply bind_Ok in Hrun as (calls & h4 & Hca & Hrun).
  apply dict_get_Ok in Hca as (-> & lr' & mr' & Hresult' & Hlr' & ->).
  pose proof (eq_trans (eq_sym Hresult) Hresult') as [= <-]. clear Hresult'.
  rewrite !lookup_app_l in Hlr'
    by (rewrite ?length_app; apply lookup_lt_Some in Hlr; simpl; lia).
  pose proof (eq_trans (eq_sym Hlr) Hlr') as [= <-]. clear Hlr'.
  apply bind_Ok in Hrun as (nb & h4 & [-> ->]%alloc_Ok & Hrun).
  apply list_append_Ok in Hrun as (xs & Hxs & ->).
  rewrite !lookup_app_l in Hxs
    by (rewrite ?length_app; apply lookup_lt_Some in Hacc3; simpl; lia).
  pose proof (eq_trans (eq_sym Hacc3) Hxs) as [= <-]. clear Hxs.
  eexists. split; [|split].
  - apply list_lookup_insert_eq. rewrite !length_app. simpl.
    apply lookup_lt_Some in Hacc3. lia.
  - eexists _, _. split; [done|]. split.
    { rewrite !length_app. simpl. apply lookup_lt_Some in Hacc. lia. }
    split.
    { rewrite list_lookup_insert_ne
        by (rewrite !length_app; simpl; apply lookup_lt_Some in Hacc3; lia).
      by apply list_lookup_middle. }
    intros lb0 mb0 [= <-] Hlb0. apply Hext in Hlb0.
    pose proof (eq_trans (eq_sym Hlb) Hlb0) as [= <-]. split; [done|].
    intros res Hres lr0 mr0 -> Hlr0.
    unfold entry in *. rewrite Hres in Hresult. injection Hresult as <-.
    apply Hext3 in Hlr0. pose proof (eq_trans (eq_sym Hlr) Hlr0) as [= <-].
    repeat split; try done.
    + intros v Hv. by rewrite Hv.
    + intros v Hv. by rewrite Hv.
  - eexists. split; [done|]. rewrite !length_app. simpl. lia.
Qed.

Lemma block_embeds_stable W h h1 h2 b nb :
  block_embeds h h1 b nb -> stable W h1 h2 ->
  (forall ln, nb = VRef ln -> ln ∉ W) -> block_embeds h h2 b nb.
Proof.
  intros (ln & mn & -> & Hln & Hmn & Hb) [_ Hst] HW.
  exists ln, mn. split; [done|]. split; [done|]. split; [|done].
  rewrite Hst; [done | by eapply lookup_lt_Some | by apply HW].
Qed.

(** The loop over the code blocks appends one rebuilt block per original
    block, in order. *)
Lemma for_each_blocks h lc la bs :
  (length h <= lc)%nat -> (length h <= la)%nat -> lc <> la ->
  forall hk hk' acc,
    extends h hk -> (la < length hk)%nat -> hk !! lc = Some (OList acc) ->
    for_each bs (enrich_block lc la) hk = (Ok tt, hk') ->
    exists news, hk' !! lc = Some (OList (acc ++ news)) /\
                 Forall2 (block_embeds h hk') bs news.
Proof.
  intros Hlc Hla Hne. induction bs as [|b bs IH]; intros hk hk' acc Hext Hlak Hacc Hrun.
  - injection Hrun as <-. exists []. by rewrite app_nil_r.
  - simpl in Hrun. apply bind_Ok in Hrun as ([] & hk1 & Hb & Hrun).
    pose proof (keeps_stable [lc; la] _ _ _ _ _
                  (keeps_enrich_block [lc; la] lc la b
                     (list_elem_of_here _ _)
                     (list_elem_of_further _ _ _ (list_elem_of_here _ _))) Hb) as Hst.
    destruct (enrich_block_Ok _ _ _ _ _ _ _ Hext Hlc Hla Hne Hacc Hb)
      as (nb & Hacc1 & Hemb & ln & -> & Hln).
    assert (extends h hk1) as Hext1.
    { eapply extends_stable; [exact Hext | exact Hst|].
      by intros l [->|[->|[]%elem_of_nil]%elem_of_cons]%elem_of_cons. }
    assert (la < length hk1)%nat as Hlak1 by (destruct Hst; lia).
    destruct (IH _ _ _ Hext1 Hlak1 Hacc1 Hrun) as (news & Hacc' & Hnews).
    exists (VRef ln :: news). split; [by rewrite <- app_assoc in Hacc'|].
    constructor; [|done].
    eapply block_embeds_stable; [exact Hemb|..].
    + exact (keeps_stable [lc; la] _ _ _ _ _
               (keeps_for_each [lc; la] bs _
                  (fun x => keeps_enrich_block [lc; la] lc la x
                     (list_elem_of_here _ _)
                     (list_elem_of_further _ _ _ (list_elem_of_here _ _)))) Hrun).
    + intros ? [= <-]. apply lookup_lt_Some in Hacc.
      intros [->|[->|[]%elem_of_nil]%elem_of_cons]%elem_of_cons; lia.
Qed.

(** A two-element list stands for its second element. *)
Definition unwrapped (h : heap) (v : val) : val :=
  match v with
  | VRef l =>
      match h !! l with
      | Some (OList [_; second]) => second
      | _ => v
      end
  | _ => v
  end.

Lemma unwrap_final_answer_Ok v h v' h' :
  unwrap_final_answer v h = (Ok v', h') -> h' = h /\ v' = unwrapped h v.
Proof.
  destruct v; simpl; try by intros [= <- <-].
  intros (o & h1 & [-> Hl]%read_Ok & Hk)%bind_Ok. rewrite Hl.
  repeat case_match; by injection Hk as <- <-.
Qed.

Lemma unwrapped_alloc h v : unwrapped (h ++ [OList []]) v = unwrapped h v.
Proof.
  destruct v as [| | | | |l]; try done. simpl.
  destruct (h !! l) as [o|] eqn:Hl.
  - by rewrite (lookup_app_l_Some _ _ _ _ Hl).
  - apply lookup_ge_None in Hl. rewrite lookup_app_r by done.
    by destruct (l - length h)%nat as [|[|]].
Qed.

Lemma truthy_heap v h : snd (truthy v h) = h.
Proof.
  destruct v; try done. simpl. unfold mbind, M_bind, read.
  destruct (h !! l) as [[]|]; done.
Qed.

Lemma truthy_extends v h h1 b :
  extends h h1 -> fst (truthy v h) = Ok b -> fst (truthy v h1) = Ok b.
Proof.
  intros Hext. destruct v; try done. simpl. unfold mbind, M_bind, read.
  destruct (h !! l) as [o|] eqn:Hl; [|done]. rewrite (Hext _ _ Hl).
  by destruct o.
Qed.

Lemma iter_Ok v h xs h' :
  iter v h = (Ok xs, h') ->
  h' = h /\ forall l bs, v = VRef l -> h !! l = Some (OList bs) -> xs = bs.
Proof.
  destruct v; simpl; try done.
  - intros [= <- <-]. split; [done|]. by intros.
  - intros (o & h1 & [-> Hl]%read_Ok & Hk)%bind_Ok.
    destruct o; injection Hk as <- <-; (split; [done|]);
      intros l0 bs [= <-] Hbs; pose proof (eq_trans (eq_sym Hl) Hbs) as [=]; done.
Qed.

Lemma extends_alloc h h1 o : extends h h1 -> extends h (h1 ++ [o]).
Proof.
  intros Hext l x Hl. apply Hext in Hl. rewrite lookup_app_l; [done|].
  by eapply lookup_lt_Some.
Qed.

(** What a successful [enrich] returns, in terms of the heap [h] it was
    called on and the heap [h'] it leaves. *)
Definition embeds (h h' : heap) (m : gmap string val) (e : EnrichedIteration)
  : Prop :=
  iteration_number e = entry m "iteration" (VInt 0) /\
  response e = entry m "response" (VStr "") /\
  final_answer e = unwrapped h (entry m "final_answer" VNone) /\
  (forall b, fst (truthy (entry m "iteration_time" (VInt 0)) h) = Ok b ->
     iteration_time e = if b then entry m "iteration_time" (VInt 0) else VInt 0) /\
  (exists lc news,
     code_blocks e = VRef lc /\ (length h <= lc)%nat /\
     h' !! lc = Some (OList news) /\
     forall lr bs, m !! "code_blocks" = Some (VRef lr) ->
                   h !! lr = Some (OList bs) ->
                   Forall2 (block_embeds h h') bs news) /\
  phase e ∈ phases /\
  phase_info e = Annotations.PHASE_EXPLANATIONS (phase e) /\
  is_Some (phase_info e) /\
  (exists la anns,
     code_annotations e = VRef la /\ (length h <= la)%nat /\
     h' !! la = Some (OList anns)).

Lemma phases_explained p : p ∈ phases -> is_Some (Annotations.PHASE_EXPLANATIONS p).
Proof.
  unfold phases. rewrite !elem_of_cons, elem_of_nil.
  intros [->|[->|[->|[->|[]]]]]; by eexists.
Qed.

Lemma enrich_Ok h data e h' :
  enrich data h = (Ok e, h') ->
  exists l m, data = VRef l /\ h !! l = Some (ODict m) /\ embeds h h' m e.
Proof.
  intros Hrun. unfold enrich in Hrun.
  apply bind_Ok in Hrun as (n & h1 & Hn & Hrun).
  apply dict_get_Ok in Hn as (-> & l & m & -> & Hl & ->).
  exists l, m. split; [done|]. split; [done|].
  apply bind_Ok in Hrun as (resp & h1 & Hresp & Hrun).
  apply dict_get_Ok in Hresp as (-> & l' & m' & [= <-] & Hl' & ->).
  pose proof (eq_trans (eq_sym Hl) Hl') as [= <-]. clear Hl'.
  apply bind_Ok in Hrun as (d & h1 & [-> ->]%alloc_Ok & Hrun).
  apply bind_Ok in Hrun as (raw & h1 & Hraw & Hrun).
  apply dict_get_Ok in Hraw as (-> & l' & m' & [= <-] & Hl' & ->).
  rewrite lookup_app_l in Hl' by (by eapply lookup_lt_Some).
  pose proof (eq_trans (eq_sym Hl) Hl') as [= <-]. clear Hl'.
  apply bind_Ok in Hrun as (fa & h1 & Hfa & Hrun).
  apply dict_get_Ok in Hfa as (-> & l' & m' & [= <-] & Hl' & ->).
  rewrite lookup_app_l in Hl' by (by eapply lookup_lt_Some).
  pose proof (eq_trans (eq_sym Hl) Hl') as [= <-]. clear Hl'.
  apply bind_Ok in Hrun as (t & h1 & Ht & Hrun).
  apply dict_get_Ok in Ht as (-> & l' & m' & [= <-] & Hl' & ->).
  rewrite lookup_app_l in Hl' by (by eapply lookup_lt_Some).
  pose proof (eq_trans (eq_sym Hl) Hl') as [= <-]. clear Hl'.
  apply bind_Ok in Hrun as (t_true & h1 & Htrue & Hrun).
  pose proof (truthy_heap (entry m "iteration_time" (VInt 0)) (h ++ [OList []]))
    as Hh1.
  unfold entry in Hh1. rewrite Htrue in Hh1. simpl in Hh1. subst h1.
  apply bind_Ok in Hrun as (fa' & h1 & [-> ->]%unwrap_final_answer_Ok & Hrun).
  apply bind_Ok in Hrun as (ph & h3 & Hph & Hrun).
  pose proof (keeps_stable [] _ _ _ _ _ (keeps_detect_phase [] _ _ _) Hph) as Hst3.
  pose proof (keeps_result [] _ _ _ _ _ (keeps_detect_phase [] _ _ _) Hph) as Hphase.
  assert (extends h h3) as Hext3.
  { eapply extends_stable; [apply extends_alloc, extends_refl | exact Hst3 |].
    by intros ? []%elem_of_nil. }
  apply bind_Ok in Hrun as (lc & h4 & [-> ->]%alloc_Ok & Hrun).
  apply bind_Ok in Hrun as (la & h4 & [-> ->]%alloc_Ok & Hrun).
  apply bind_Ok in Hrun as (blocks & h4 & [-> Hblocks]%iter_Ok & Hrun).
  apply bind_Ok in Hrun as ([] & h6 & Hloop & Hrun).
  apply bind_Ok in Hrun as (wh & h7 & Hsum & Hrun).
  injection Hrun as <- <-.
  assert (length h <= length h3)%nat as Hlen3.
  { destruct Hst3 as [Hlen _]. rewrite length_app in Hlen. lia. }
  pose proof (keeps_stable [] _ _ _ _ _ (keeps_summarize [] _ _ _) Hsum) as Hst7.
  pose proof (keeps_stable [length h3; length (h3 ++ [OList []])] _ _ _ _ _
                (keeps_for_each _ blocks _
                   (fun x => keeps_enrich_block _ (length h3)
                      (length (h3 ++ [OList []])) x
                      (list_elem_of_here _ _)
                      (list_elem_of_further _ _ _ (list_elem_of_here _ _)))) Hloop)
    as Hst6.
  destruct (for_each_blocks h (length h3) (length (h3 ++ [OList []])) blocks)
    with (hk := (h3 ++ [OList []]) ++ [OList []]) (hk' := h6) (acc := @nil val)
    as (news & Hnews & Hemb); try done.
  { rewrite length_app. simpl. lia. }
  { rewrite length_app. simpl. lia. }
  { by apply extends_alloc, extends_alloc. }
  { rewrite !length_app. simpl. lia. }
  { rewrite lookup_app_l by (rewrite length_app; simpl; lia).
    by apply list_lookup_middle. }
  assert (forall x o, h6 !! x = Some o -> h7 !! x = Some o) as H67.
  { intros x o Hx. destruct Hst7 as [_ ->]; [done|by eapply lookup_lt_Some|].
    by intros []%elem_of_nil. }
  repeat split; simpl.
  - unfold entry. apply unwrapped_alloc.
  - intros b Hb.
    apply (truthy_extends _ _ (h ++ [OList []])) in Hb;
      [|apply extends_alloc, extends_refl].
    unfold entry in Hb. rewrite Htrue in Hb. by injection Hb as ->.
  - exists (length h3), news. split; [done|]. split; [done|].
    split; [by apply H67|].
    intros lr bs Hraw Hbs. unfold entry in Hblocks. rewrite Hraw in Hblocks.
    rewrite (Hblocks lr bs eq_refl) in Hemb
      by (apply (extends_alloc h _ _ (extends_alloc h _ _ Hext3)), Hbs).
    eapply Forall2_impl; [exact Hemb|].
    intros b nb Hb. eapply block_embeds_stable; [exact Hb | exact Hst7|].
    by intros ? _ []%elem_of_nil.
  - done.
  - by apply phases_explained.
  - pose proof (keeps_lists _ _ _ _ _ _
                  (keeps_for_each [length h3; length (h3 ++ [OList []])] blocks _
                     (fun x => keeps_enrich_block _ (length h3)
                        (length (h3 ++ [OList []])) x
                        (list_elem_of_here _ _)
                        (list_elem_of_further _ _ _ (list_elem_of_here _ _)))) Hloop)
      as Hli6.
    pose proof (keeps_lists _ _ _ _ _ _ (keeps_summarize [] _ _ _) Hsum) as Hli7.
    destruct (Hli6 (length (h3 ++ [OList []])) []) as [anns6 Hla6];
      [by apply list_lookup_middle|].
    destruct (Hli7 _ _ Hla6) as [anns Hla7].
    exists (length (h3 ++ [OList []])), anns. split; [done|].
    split; [rewrite length_app; lia | done].
Qed.

(** C8. [enrich] never mutates its input: whether it returns or raises,
    every object that exists when it is called (the iteration dict, its
    code-block dicts, their result dicts and everything else on the heap)
    is afterwards what it was before.  When it returns, the record embeds
    the original fields: the iteration number and the response as they
    are in the dict, the final answer (a two-element list standing for its
    second element), the iteration time (0 when it is falsy), one rebuilt
    block per original code block, in order, carrying its code and the
    fields of its result; and it adds the education part: one of the four
    phases with its explanation, and the list of annotations. *)
Theorem enrich_never_mutates_input (h : heap) (iteration_data : val) :
  let r := fst (enrich iteration_data h) in
  let h' := snd (enrich iteration_data h) in
  (forall l o, h !! l = Some o -> h' !! l = Some o) /\
  (forall e, r = Ok e ->
     exists l m, iteration_data = VRef l /\ h !! l = Some (ODict m) /\
                 embeds h h' m e).
Proof.
  simpl. split.
  - intros l o Hl. destruct (keeps_enrich iteration_data h) as [[_ Hst] _].
    rewrite Hst; [done | by eapply lookup_lt_Some | by intros []%elem_of_nil].
  - intros e He. apply enrich_Ok.
    destruct (enrich iteration_data h) as [r h'] eqn:Hrun. simpl in He. by subst r.
Qed.

(** An iteration event with one code block and its result. *)
Definition sample_event : heap :=
  [ODict {["stdout" := VStr "42"]};
   ODict (<["code" := VStr "print(len(context))"]> {["result" := VRef 0%nat]});
   OList [VRef 1%nat];
   ODict (<["iteration" := VInt 1]>
          (<["response" := VStr "Let me measure the context."]>
          (<["code_blocks" := VRef 2%nat]>
          (<["final_answer" := VNone]> {["iteration_time" := VFloat 0.5%float]}))))].

Lemma enrich_never_mutates_input_witness :
  (forall l o, sample_event !! l = Some o ->
               snd (enrich (VRef 3%nat) sample_event) !! l = Some o) /\
  exists e, fst (enrich (VRef 3%nat) sample_event) = Ok e /\
            iteration_number e = VInt 1 /\
            response e = VStr "Let me measure the context." /\
            final_answer e = VNone /\
            phase e = "exploring".
Proof.
  destruct (enrich_never_mutates_input sample_event (VRef 3%nat)) as [Hframe Hemb].
  split; [exact Hframe|].
  destruct (fst (enrich (VRef 3%nat) sample_event)) as [e|err] eqn:Hrun;
    [|by vm_compute in Hrun].
  exists e. split; [done|].
  destruct (Hemb e eq_refl) as (l & m & [= <-] & [= <-] & Hn & Hr & Hfa & _).
  split; [exact Hn|]. split; [exact Hr|]. split; [exact Hfa|].
  vm_compute in Hrun. by injection Hrun as <-.
Defined.

End enrich_properties.


(** * Further properties *)

(** ** The stream logger: sentinels, normal return, divergence, delivery *)

Section stream_more_properties.
Import Json Types StreamLogger.

Definition is_sentinel (item : option dict) : bool :=
  match item with None => true | Some _ => false end.

Definition is_signal_complete (c : call) : bool :=
  match c with CallSignalComplete => true | _ => false end.

(** What a call adds to the queue, as to sentinels. *)
Lemma do_call_sentinels lg c :
  exists new, _queue (do_call lg c) = _queue lg ++ new /\
              List.filter is_sentinel new =
              if is_signal_complete c then [None] else [].
Proof.
  destruct c as [m now|it now|tok i|i code r|]; simpl;
    try (eexists [_]; split; reflexivity).
  unfold log_metadata. destruct (_metadata_logged lg).
  - exists []. by rewrite app_nil_r.
  - eexists [_]. split; reflexivity.
Qed.

Lemma fold_calls_sentinels cs lg :
  List.filter is_sentinel (_queue (fold_left do_call cs lg)) =
  List.filter is_sentinel (_queue lg)
    ++ List.filter is_sentinel
         (map (fun _ => None) (List.filter is_signal_complete cs)).
Proof.
  induction cs as [|c cs IH] using rev_ind; [by rewrite app_nil_r|].
  rewrite fold_left_app. simpl.
  destruct (do_call_sentinels (fold_left do_call cs lg) c) as (new & -> & Hnew).
  rewrite !List.filter_app, map_app, List.filter_app, IH, Hnew, <- app_assoc.
  f_equal. f_equal. simpl. by destruct (is_signal_complete c).
Qed.

(** Only [signal_complete] puts a sentinel: after any sequence of method
    calls on a new logger the queue holds as many sentinels as there were
    calls of [signal_complete]. *)
Theorem sentinels_from_signal_complete (cs : list call) :
  length (List.filter is_sentinel (_queue (after cs))) =
  length (List.filter is_signal_complete cs).
Proof.
  unfold after. rewrite fold_calls_sentinels. simpl.
  induction (List.filter is_signal_complete cs) as [|c l IH]; simpl; [done|].
  by rewrite IH.
Qed.

(** When the completion function returns, or raises something that
    [except Exception] does not catch, the worker adds nothing but the
    sentinel: no [error] event is put. *)
Theorem stream_iterations_normal (fn : completion) (lg : t) (s : state) :
  ending fn = Returns \/ ending fn = RaisesOther ->
  reachable fn lg s -> wk s = WDone ->
  history s = _queue (fold_left do_call (calls fn) lg) ++ [None].
Proof.
  intros Hend [Hw _]%reachable_inv Hdone.
  unfold worker_inv in Hw. rewrite Hdone in Hw. destruct Hw as [_ Hfull].
  apply (f_equal _queue) in Hfull. unfold full in Hfull.
  destruct (logger s). simpl in Hfull. rewrite Hfull.
  unfold before_finally. by destruct Hend as [-> | ->].
Qed.

Definition returning : completion :=
  Completion [CallLogToken "a" 1] Returns "12:00".

Lemma stream_iterations_normal_witness :
  exists s,
    run returning [Consumer; Worker; Worker; Worker; Consumer; Consumer; Consumer]
      (start init) = Some s /\
    gen s = GReturned /\
    history s =
      [Some [("type", JStr "token"); ("iteration", JInt 1); ("content", JStr "a")];
       None].
Proof.
  eexists. split; [vm_compute; reflexivity|]. split; [reflexivity|].
  apply (stream_iterations_normal returning init); [by left | | reflexivity].
  apply (run_reachable _ _
           [Consumer; Worker; Worker; Worker; Consumer; Consumer; Consumer]).
  vm_compute. reflexivity.
Defined.

(** When the completion function never ends, the worker never reaches
    its [finally] clause and the generator never returns. *)
Theorem stream_iterations_diverges (fn : completion) (lg : t) (s : state) :
  ending fn = Diverges -> reachable fn lg s ->
  wk s <> WFinally /\ wk s <> WDone /\ gen s <> GReturned.
Proof.
  intros Hend [Hw (_ & _ & Hret)]%reachable_inv. unfold worker_inv in Hw.
  assert (wk s <> WFinally /\ wk s <> WDone) as [H1 H2].
  { split; intros Hwk; rewrite Hwk in Hw; by destruct Hw. }
  split; [done|]. split; [done|]. intros Hg. by apply H2, Hret.
Qed.

Definition looping : completion :=
  Completion [CallLogToken "a" 1] Diverges "12:00".

Lemma stream_iterations_diverges_witness :
  exists s,
    run looping [Consumer; Worker; Consumer] (start init) = Some s /\
    length (yielded s) = 1%nat /\ gen s <> GReturned.
Proof.
  eexists. split; [vm_compute; reflexivity|]. split; [reflexivity|].
  refine (proj2 (proj2 (stream_iterations_diverges looping init _ eq_refl _))).
  apply (run_reachable _ _ [Consumer; Worker; Consumer]). vm_compute. reflexivity.
Defined.

(** However the completion function ends, as long as it ends: every run
    is finite; the worker thread, once it can be started, runs to its
    end whatever the consumer does; as long as the consumer does not
    close the generator, the run can be continued until the generator
    has returned with the worker joined; a generator the consumer closed
    stays closed and yields nothing more, so it never joins the worker;
    and a run that cannot go on has returned with the worker joined, or
    its generator was closed and the worker has finished or was never
    started. *)
Theorem stream_iterations_terminates (fn : completion) (lg : t) (s : state) :
  ending fn <> Diverges -> reachable fn lg s ->
  (forall s', step fn s s' -> (measure fn s' < measure fn s)%nat) /\
  (~ (wk s = WIdle /\ gen s = GClosed) ->
     exists s', rtc (step fn) s s' /\ wk s' = WDone) /\
  (gen s <> GClosed ->
     exists s', rtc (step fn) s s' /\ gen s' = GReturned /\ wk s' = WDone) /\
  (gen s = GClosed ->
     forall s', rtc (step fn) s s' ->
                gen s' = GClosed /\ yielded s' = yielded s) /\
  ((forall s', ~ step fn s s') ->
     gen s = GReturned /\ wk s = WDone \/
     gen s = GClosed /\ (wk s = WDone \/ wk s = WIdle)).
Proof.
  intros Hend Hinv%reachable_inv. split; [|split; [|split; [|split]]].
  - intros s'. apply step_measure.
  - by apply (worker_completes fn lg).
  - by apply (completes fn lg Hend (measure fn s)).
  - intros Hc s'. by apply rtc_closed.
  - by apply (stuck_returned fn lg).
Qed.

(** The consumer closes the generator after the first token, while the
    worker is still inside the completion function: the generator never
    returns, and the worker finishes unjoined. *)
Lemma stream_iterations_terminates_witness :
  exists s,
    run returning [Consumer; Worker; Consumer; Close] (start init) = Some s /\
    gen s = GClosed /\ wk s = WRunning [] /\
    (exists s', rtc (step returning) s s' /\ wk s' = WDone) /\
    (forall s', rtc (step returning) s s' ->
                gen s' = GClosed /\ length (yielded s') = 1%nat).
Proof.
  eexists. split; [vm_compute; reflexivity|].
  split; [reflexivity|]. split; [reflexivity|].
  destruct (stream_iterations_terminates returning init _ ltac:(done)
              (run_reachable returning init
                 [Consumer; Worker; Consumer; Close] _ eq_refl))
    as (_ & Hworker & _ & Hclosed & _).
  split; [apply Hworker; by intros [? _]|].
  intros s' Hrtc. destruct (Hclosed eq_refl s' Hrtc) as [Hg Hy].
  split; [exact Hg | by rewrite Hy].
Defined.

Lemma sentinel_split (l1 l2 q : list (option dict)) :
  List.filter is_sentinel l1 = [] -> List.filter is_sentinel l2 = [] ->
  (l1 ++ [None]) ++ q = l2 ++ [None] -> l1 = l2 /\ q = [].
Proof.
  revert l2. induction l1 as [|x l1 IH]; intros l2 H1 H2 Heq.
  - destruct l2 as [|y l2]; simpl in *.
    + injection Heq as ->. done.
    + injection Heq as <- _. done.
  - destruct l2 as [|y l2]; simpl in *.
    + injection Heq as -> Hrest. simpl in H1. done.
    + injection Heq as <- Hrest.
      destruct x as [e|]; simpl in *; [|done].
      destruct (IH l2 H1 H2 Hrest) as [-> ->]. done.
Qed.

Lemma fmap_Some_no_sentinel (ys : list dict) :
  List.filter is_sentinel (Some <$> ys) = [].
Proof. induction ys as [|y ys IH]; [done | exact IH]. Qed.

(** The history of a run whose generator has returned. *)
Lemma returned_history (fn : completion) (lg : t) (s : state) :
  reachable fn lg s -> gen s = GReturned ->
  ((Some <$> yielded s) ++ [None]) ++ _queue (logger s)
  = _queue (before_finally fn lg) ++ [None].
Proof.
  intros [Hw (Htk & _ & Hret)]%reachable_inv Hg.
  specialize (Hret Hg). unfold worker_inv in Hw. rewrite Hret in Hw.
  destruct Hw as [_ Hfull]. rewrite Hg in Htk. simpl in Htk.
  apply (f_equal _queue) in Hfull. unfold full, history in Hfull.
  rewrite Htk in Hfull.
  assert (_queue (with_queue (((Some <$> yielded s) ++ [None]) ++ _queue (logger s))
                             (logger s))
          = ((Some <$> yielded s) ++ [None]) ++ _queue (logger s)) as Hq
    by (by destruct (logger s)).
  rewrite Hq in Hfull.
  assert (_queue (signal_complete (before_finally fn lg))
          = _queue (before_finally fn lg) ++ [None]) as Hq'
    by (by destruct (before_finally fn lg)).
  by rewrite Hq' in Hfull.
Qed.

(** Without [signal_complete] among the calls, no sentinel is on the
    queue when the worker enters [finally]. *)
Lemma before_finally_sentinels (fn : completion) (lg : t) :
  List.filter is_sentinel (_queue lg) = [] ->
  List.filter is_signal_complete (calls fn) = [] ->
  List.filter is_sentinel (_queue (before_finally fn lg)) = [].
Proof.
  intros Hlg Hfn. unfold before_finally.
  assert (List.filter is_sentinel (_queue (fold_left do_call (calls fn) lg)) = [])
    as Hcalls by (by rewrite fold_calls_sentinels, Hlg, Hfn).
  destruct (ending fn); try done.
  destruct (fold_left do_call (calls fn) lg). simpl in *.
  by rewrite List.filter_app, Hcalls.
Qed.

(** Nothing is lost: on a logger whose queue holds no sentinel, with a
    completion function that does not call [signal_complete] itself, the
    generator has, when it returns, yielded everything that was on the
    queue or was put on it (the [error] event included), in order, and
    the queue is empty again. *)
Theorem stream_delivers_everything (fn : completion) (lg : t) (s : state) :
  List.filter is_sentinel (_queue lg) = [] ->
  List.filter is_signal_complete (calls fn) = [] ->
  reachable fn lg s -> gen s = GReturned ->
  _queue (logger s) = [] /\
  Some <$> yielded s = _queue (before_finally fn lg).
Proof.
  intros Hlg Hfn Hr Hg.
  pose proof (returned_history fn lg s Hr Hg) as Hfull.
  apply sentinel_split in Hfull as [H1 H2].
  - done.
  - apply fmap_Some_no_sentinel.
  - by apply before_finally_sentinels.
Qed.

Lemma stream_delivers_everything_witness :
  exists s,
    run failing [Consumer; Worker; Worker; Worker; Worker; Consumer; Consumer;
                 Consumer; Consumer] (start init) = Some s /\
    _queue (logger s) = [] /\
    yielded s =
      [[("type", JStr "token"); ("iteration", JInt 1); ("content", JStr "a")];
       error_entry "boom" "12:00"].
Proof.
  eexists. split; [vm_compute; reflexivity|].
  destruct (stream_delivers_everything failing init
              (State init WDone GReturned
                 [[("type", JStr "token"); ("iteration", JInt 1); ("content", JStr "a")];
                  error_entry "boom" "12:00"]
                 [Some [("type", JStr "token"); ("iteration", JInt 1);
                        ("content", JStr "a")];
                  Some (error_entry "boom" "12:00"); None])
              eq_refl eq_refl) as [Hq _]; [|reflexivity|by split].
  apply (run_reachable _ _
           [Consumer; Worker; Worker; Worker; Worker; Consumer; Consumer;
            Consumer; Consumer]).
  vm_compute. reflexivity.
Defined.

End stream_more_properties.


(** ** [rlm/clients/cerebras.py]: the non-streaming path and the
       summaries *)

Module CerebrasCalls.
Import Cerebras.

(** The provider's reply to a non-streaming request: the
    [message.content] of each choice ([None] when it has none) and, when
    reported, the prompt and completion token counts. *)
Record reply : Type := Reply {
  choices : list (option string);
  reply_usage : option (Z * Z)
}.

(** [completion]: usage is tracked before [response.choices[0]] is
    read.  [provider] is what [self.client.chat.completions.create]
    does. *)
Definition completion (c : client) (p : prompt) (model : option string)
    (provider : res reply) : res (option string) * client :=
  match _prepare_messages p with
  | Raise e => (Raise e, c)
  | Ok messages =>
      match resolve_model model c with
      | None =>
          (Raise (ValueError "Model name is required for Cerebras client."), c)
      | Some m =>
          match provider with
          | Raise e => (Raise e, c)
          | Ok r =>
              let c' := _track_usage c (Response "" (reply_usage r)) m in
              match choices r with
              | [] => (Raise IndexError, c')
              | first :: _ => (Ok first, c')
              end
          end
      end
  end.

(** [acompletion] falls back to the synchronous call. *)
Definition acompletion := completion.

(** [ModelUsageSummary]: calls, input tokens, output tokens. *)
Abbreviation usage_summary := (Z * Z * Z)%type.

(** [get_usage_summary].  Reading [self.model_input_tokens[model]] and
    [self.model_output_tokens[model]] of a [defaultdict] enters the model
    with count 0 where it is absent, so the client is returned too. *)
Definition get_usage_summary (c : client) : gmap string usage_summary * client :=
  let zeros := (fun _ : Z => 0) <$> model_call_counts c in
  (map_imap (fun model calls =>
               Some (calls, counter (model_input_tokens c) model,
                     counter (model_output_tokens c) model))
            (model_call_counts c),
   Client (model_name c) (model_call_counts c)
          (model_input_tokens c ∪ zeros) (model_output_tokens c ∪ zeros)
          (last_prompt_tokens c) (last_completion_tokens c)).

(** A request made to the client, with what the provider does. *)
Inductive request : Type :=
| Complete (p : prompt) (model : option string) (provider : res reply)
| StreamAll (p : prompt) (model : option string) (st : stream).

(** The client after a request. *)
Definition serve (c : client) (r : request) : client :=
  match r with
  | Complete p model provider => snd (completion c p model provider)
  | StreamAll p model st => snd (stream_completion c p model st)
  end.

(** The model a request is accounted to, if it gets that far. *)
Definition accounted (c : client) (r : request) : option string :=
  match r with
  | Complete p model provider =>
      match _prepare_messages p, provider with
      | Ok _, Ok _ => resolve_model model c
      | _, _ => None
      end
  | StreamAll p model st =>
      match _prepare_messages p, failure st with
      | Ok _, None => resolve_model model c
      | _, _ => None
      end
  end.

End CerebrasCalls.

Section usage_more_properties.
Import Cerebras CerebrasCalls.

(** A request that fails before the provider has replied in full leaves
    the client as it was: an invalid prompt, a missing model name, a
    provider error, a stream that breaks.  The one failure after the
    accounting is a reply without choices, which raises [IndexError] with
    the call already counted. *)
Theorem failed_request_not_accounted :
  (forall c p model st tokens e c',
     stream_completion c p model st = (tokens, Raise e, c') -> c' = c) /\
  (forall c p model provider e c',
     completion c p model provider = (Raise e, c') ->
     c' = c \/
     exists r m, provider = Ok r /\ choices r = [] /\ e = IndexError /\
                 resolve_model model c = Some m /\
                 c' = _track_usage c (Response "" (reply_usage r)) m).
Proof.
  split.
  - intros c p model st tokens e c'. unfold stream_completion.
    destruct (_prepare_messages p); [|by intros [= _ _ <-]].
    destruct (resolve_model model c); [|by intros [= _ _ <-]].
    destruct (failure st); by intros [= _ _ <-].
  - intros c p model provider e c'. unfold completion.
    destruct (_prepare_messages p); [|intros [= _ <-]; by left].
    destruct (resolve_model model c) as [m|]; [|intros [= _ <-]; by left].
    destruct provider as [r|e']; [|intros [= _ <-]; by left].
    destruct (choices r) eqn:Hch; [|done].
    intros [= <- <-]. right. by exists r, m.
Qed.

(** A non-streaming completion accounted to model [m]: the call count
    goes up by 1; with reported usage the token tables go up by the
    reported counts and the last-call counters are set to them; without,
    no token counter changes. *)
Theorem completion_usage (c : client) (p : prompt) (model : option string)
    (r : reply) (m : string) msgs :
  _prepare_messages p = Ok msgs ->
  resolve_model model c = Some m ->
  let c' := snd (completion c p model (Ok r)) in
  counter (model_call_counts c') m = counter (model_call_counts c) m + 1 /\
  match reply_usage r with
  | Some (prompt_tokens, completion_tokens) =>
      counter (model_input_tokens c') m =
        counter (model_input_tokens c) m + prompt_tokens /\
      counter (model_output_tokens c') m =
        counter (model_output_tokens c) m + completion_tokens /\
      get_last_usage c' = (1, prompt_tokens, completion_tokens)
  | None =>
      model_input_tokens c' = model_input_tokens c /\
      model_output_tokens c' = model_output_tokens c /\
      get_last_usage c' = get_last_usage c
  end.
Proof.
  intros Hp Hm. unfold completion. rewrite Hp, Hm.
  simpl. destruct (choices r); simpl; unfold _track_usage; simpl;
    destruct (reply_usage r) as [[pt ct]|]; simpl; by rewrite ?counter_bump.
Qed.

Lemma completion_usage_witness :
  let c' := snd (completion (init (Some "gpt-oss-120b")) (PromptStr "hi") None
                   (Ok (Reply [Some "hello"] (Some (7, 3))))) in
  counter (model_call_counts c') "gpt-oss-120b" = 1 /\
  counter (model_input_tokens c') "gpt-oss-120b" = 7 /\
  counter (model_output_tokens c') "gpt-oss-120b" = 3 /\
  get_last_usage c' = (1, 7, 3).
Proof.
  destruct (completion_usage (init (Some "gpt-oss-120b")) (PromptStr "hi") None
              (Reply [Some "hello"] (Some (7, 3))) "gpt-oss-120b"
              [Some [("role", "user"); ("content", "hi")]] eq_refl eq_refl)
    as (H1 & H2 & H3 & H4).
  repeat split; assumption.
Defined.

Lemma serve_calls c r m :
  counter (model_call_counts (serve c r)) m =
  counter (model_call_counts c) m
  + (if bool_decide (accounted c r = Some m) then 1 else 0).
Proof.
  assert (forall m', counter (bump (model_call_counts c) m' 1) m =
                     counter (model_call_counts c) m
                     + (if bool_decide (Some m' = Some m) then 1 else 0)) as Hbump.
  { intros m'. case_bool_decide as Hm.
    - injection Hm as ->. apply counter_bump.
    - rewrite counter_bump_ne; [lia | congruence]. }
  assert (forall o : option string,
            o = None ->
            counter (model_call_counts c) m =
            counter (model_call_counts c) m
            + (if bool_decide (o = Some m) then 1 else 0)) as Hnone.
  { intros o ->. rewrite bool_decide_eq_false_2 by done. lia. }
  destruct r as [p model provider|p model st]; unfold serve, accounted.
  - unfold completion. destruct (_prepare_messages p); [|by apply Hnone].
    destruct provider as [r|e].
    + destruct (resolve_model model c) as [m'|]; [|by apply Hnone].
      rewrite <- Hbump.
      destruct (choices r); simpl; unfold _track_usage; simpl;
        by destruct (reply_usage r) as [[]|].
    + destruct (resolve_model model c); by apply Hnone.
  - unfold stream_completion. destruct (_prepare_messages p); [|by apply Hnone].
    destruct (failure st).
    + destruct (resolve_model model c); by apply Hnone.
    + destruct (resolve_model model c) as [m'|]; [|by apply Hnone].
      by rewrite <- Hbump.
Qed.

Lemma serve_model_name c r : model_name (serve c r) = model_name c.
Proof.
  destruct r as [p model provider|p model st]; simpl.
  - unfold completion. destruct (_prepare_messages p); [|done].
    destruct (resolve_model model c); [|done]. destruct provider as [r|]; [|done].
    destruct (choices r); simpl; unfold _track_usage; simpl;
      by destruct (reply_usage r) as [[]|].
  - unfold stream_completion. destruct (_prepare_messages p); [|done].
    destruct (resolve_model model c); [|done]. by destruct (failure st).
Qed.

Lemma accounted_model_name c c' r :
  model_name c' = model_name c -> accounted c' r = accounted c r.
Proof.
  intros Hn. destruct r; simpl; unfold resolve_model; by rewrite Hn.
Qed.

(** Call counts add up: after any sequence of requests, streaming or not,
    the call count of a model has grown by the number of requests that
    were accounted to it; failed requests do not count. *)
Theorem call_counts_add_up (c : client) (rs : list request) (m : string) :
  counter (model_call_counts (fold_left serve rs c)) m =
  counter (model_call_counts c) m
  + Z.of_nat (length (List.filter
                        (fun r => bool_decide (accounted c r = Some m)) rs)).
Proof.
  induction rs as [|r rs IH] using rev_ind; [simpl; lia|].
  rewrite fold_left_app, List.filter_app, length_app. simpl.
  rewrite serve_calls, IH.
  assert (model_name (fold_left serve rs c) = model_name c) as Hn.
  { clear. induction rs as [|r rs IH] using rev_ind; [done|].
    rewrite fold_left_app. simpl. by rewrite serve_model_name. }
  rewrite (accounted_model_name _ _ _ Hn).
  destruct (bool_decide (accounted c r = Some m)); simpl; lia.
Qed.

(** [get_usage_summary] lists the models that have been called, with
    their counters; it changes the value of no counter, and a second call
    gives the same summary and changes nothing at all. *)
Theorem get_usage_summary_reads (c : client) :
  let summary := fst (get_usage_summary c) in
  let c' := snd (get_usage_summary c) in
  (forall m, summary !! m =
     (fun calls => (calls, counter (model_input_tokens c) m,
                    counter (model_output_tokens c) m))
       <$> model_call_counts c !! m) /\
  (forall m,
     counter (model_call_counts c') m = counter (model_call_counts c) m /\
     counter (model_input_tokens c') m = counter (model_input_tokens c) m /\
     counter (model_output_tokens c') m = counter (model_output_tokens c) m) /\
  get_last_usage c' = get_last_usage c /\
  get_usage_summary c' = (summary, c').
Proof.
  assert (forall (t z : gmap string Z) m,
            (forall k v, z !! k = Some v -> v = 0) ->
            counter (t ∪ z) m = counter t m) as Hcounter.
  { intros t z m Hz. unfold counter. rewrite lookup_union.
    destruct (t !! m) as [x|] eqn:Ht; destruct (z !! m) as [y|] eqn:Hzm;
      simpl; try done. by rewrite (Hz _ _ Hzm). }
  assert (forall k v, ((fun _ : Z => 0) <$> model_call_counts c) !! k = Some v
                      -> v = 0) as Hzeros.
  { intros k v. rewrite lookup_fmap. by destruct (model_call_counts c !! k);
      intros [= <-]. }
  assert (forall t z : gmap string Z, (t ∪ z) ∪ z = t ∪ z) as Hidem.
  { intros t z. by rewrite <- (assoc_L (∪)), (idemp_L (∪)). }
  simpl. split; [|split; [|split]].
  - intros m. rewrite map_lookup_imap.
    by destruct (model_call_counts c !! m).
  - intros m. by rewrite !Hcounter.
  - done.
  - unfold get_usage_summary. simpl. rewrite !Hidem. f_equal.
    apply map_eq. intros m. rewrite !map_lookup_imap.
    destruct (model_call_counts c !! m); simpl; [|done].
    by rewrite !Hcounter.
Qed.

End usage_more_properties.


(** ** The code annotator: short lines, and a pattern that never decides *)

Section annotator_more_properties.
Import Regex Annotations.

(** The least number of characters a match of [r] takes. *)
Fixpoint min_length (r : re) : nat :=
  match r with
  | Lit l => String.length l
  | AnyStar => 0
  | WordB => 0
  | Seq r1 r2 => min_length r1 + min_length r2
  | Alt r1 r2 => Nat.min (min_length r1) (min_length r2)
  end.

Lemma lit_length l prev s k :
  lit l prev s k = true ->
  exists p' s', k p' s' = true /\
                (String.length l + String.length s' <= String.length s)%nat.
Proof.
  revert prev s. induction l as [|c l IH]; intros prev s; simpl.
  - intros Hk. exists prev, s. split; [done | lia].
  - destruct s as [|d s]; [done|]. destruct (Ascii.eqb c d); [|done].
    intros (p' & s' & Hk & Hlen)%IH. exists p', s'. split; [done | simpl; lia].
Qed.

Lemma any_star_length prev s k :
  any_star prev s k = true ->
  exists p' s', k p' s' = true /\ (String.length s' <= String.length s)%nat.
Proof.
  revert prev. induction s as [|c s IH]; intros prev; simpl.
  - intros Hk. by exists prev, "".
  - intros [[_ (p' & s' & Hk & Hlen)%IH]%andb_true_iff | Hk]%orb_true_iff.
    + exists p', s'. split; [done | lia].
    + exists prev, (String c s). split; [done | simpl; lia].
Qed.

Lemma matches_length r prev s k :
  matches r prev s k = true ->
  exists p' s', k p' s' = true /\
                (min_length r + String.length s' <= String.length s)%nat.
Proof.
  revert prev s k. induction r as [l| | |r1 IH1 r2 IH2|r1 IH1 r2 IH2];
    intros prev s k; simpl.
  - apply lit_length.
  - apply any_star_length.
  - intros [_ Hk]%andb_true_iff. exists prev, s. split; [done | lia].
  - intros (p1 & s1 & (p2 & s2 & Hk & H2)%IH2 & H1)%IH1.
    exists p2, s2. split; [done | lia].
  - intros [(p' & s' & Hk & Hlen)%IH1 | (p' & s' & Hk & Hlen)%IH2]%orb_true_iff;
      exists p', s'; (split; [done | lia]).
Qed.

Lemma search_from_length r prev s :
  search_from r prev s = true -> (min_length r <= String.length s)%nat.
Proof.
  revert prev. induction s as [|c s IH]; intros prev; simpl.
  - rewrite orb_false_r. intros (p' & s' & _ & Hlen)%matches_length. simpl in Hlen. lia.
  - intros [(p' & s' & _ & Hlen)%matches_length | Hs%IH]%orb_true_iff;
      simpl in *; lia.
Qed.

(** No pattern of [CODE_PATTERNS] matches a line of fewer than four
    characters: empty and very short lines are never annotated. *)
Theorem short_lines_not_annotated (code : string) (i : nat) (l : string) :
  Text.split Text.newline code !! i = Some l ->
  (String.length l < 4)%nat ->
  filter (fun a => line a = Z.of_nat i + 1) (annotate code) = [].
Proof.
  intros Hl Hshort. unfold annotate.
  rewrite (annotate_from_line _ 1 _ i l) by (done || lia).
  rewrite first_match_none; [done|].
  apply Forall_forall. intros p Hp.
  destruct (search (regex p) l) eqn:Hs; [|done].
  apply search_from_length in Hs.
  assert (4 <= min_length (regex p))%nat; [|lia].
  unfold CODE_PATTERNS in Hp. rewrite !elem_of_cons, elem_of_nil in Hp.
  repeat (destruct Hp as [-> | Hp]; [simpl; lia|]). done.
Qed.

Lemma short_lines_not_annotated_witness :
  filter (fun a => line a = 2) (annotate "x = context
y=1
print(x)") = [].
Proof.
  apply (short_lines_not_annotated _ 1%nat "y=1"); [reflexivity | simpl; lia].
Defined.

Lemma search_from_skip r prev pre s :
  (forall p, search_from r p s = true) ->
  search_from r prev (pre +:+ s) = true.
Proof.
  intros Hs. revert prev. induction pre as [|c pre IH]; intros prev.
  - apply Hs.
  - rewrite append_cons. simpl. rewrite IH. apply orb_true_r.
Qed.

Lemma search_from_cons r prev c s :
  search_from r (Some c) s = true -> search_from r prev (String c s) = true.
Proof. intros Hs. simpl. rewrite Hs. apply orb_true_r. Qed.

(** The first pattern of [CODE_PATTERNS], the access to the context. *)
Definition context_pattern : pattern :=
  Pattern
    (Alt (Seq (Lit "context[") (Seq AnyStar (Lit "]")))
         (Alt (Lit "context[:") (Seq WordB (Seq (Lit "context") WordB))))
    "Accessing the transcript data. RLM treats your document as a variable it can slice and analyze."
    "key".

(** A line that contains [len(context)] is annotated as an access to the
    context, with importance [key]: the alternative [len\(context\)] of
    the seventh pattern never decides an annotation, the first pattern
    comes before it. *)
Theorem len_context_is_context_access (code : string) (i : nat)
    (before rest : string) :
  Text.split Text.newline code !! i = Some (before +:+ "len(context)" +:+ rest) ->
  filter (fun a => line a = Z.of_nat i + 1) (annotate code) =
  [Annotation (Z.of_nat i + 1) (pat_explanation context_pattern) "key"].
Proof.
  intros Hl. unfold annotate.
  rewrite (annotate_from_line _ 1 _ i _) by (done || lia).
  assert (search (regex context_pattern) (before +:+ "len(context)" +:+ rest) = true)
    as Hs.
  { apply search_from_skip. intros p.
    do 4 apply search_from_cons.
    change (search_from (regex context_pattern) (Some "("%char)
              (String "c" ("ontext" +:+ String ")" rest)) = true).
    cbn [search_from]. apply orb_true_iff. left. reflexivity. }
  rewrite (first_match_first CODE_PATTERNS _ context_pattern); [done|].
  exists [], (tail CODE_PATTERNS). split; [reflexivity|]. split; [exact Hs | constructor].
Qed.

Lemma len_context_is_context_access_witness :
  filter (fun a => line a = 1) (annotate "n = len(context)") =
  [Annotation 1 (pat_explanation context_pattern) "key"].
Proof. exact (len_context_is_context_access "n = len(context)" 0 "n = " "" eq_refl). Defined.

End annotator_more_properties.


(** ** [server/main.py] *)

Module Main.
Import Json.

(** [c.isspace()] on a code point. *)
Definition is_space (cp : Z) : bool :=
  ((9 <=? cp) && (cp <=? 13)) || ((28 <=? cp) && (cp <=? 32))
  || (cp =? 133) || (cp =? 160) || (cp =? 5760)
  || ((8192 <=? cp) && (cp <=? 8202))
  || (cp =? 8232) || (cp =? 8233) || (cp =? 8239) || (cp =? 8287)
  || (cp =? 12288).

Fixpoint lstrip (s : list Z) : list Z :=
  match s with
  | cp :: s' => if is_space cp then lstrip s' else s
  | [] => []
  end.

(** [s.strip()]. *)
Definition strip (s : list Z) : list Z := rev (lstrip (rev (lstrip s))).

(** [not s.strip()]. *)
Definition blank (s : list Z) : bool :=
  match strip s with [] => true | _ => false end.

(** The request body of [/api/process]. *)
Record ProcessRequest : Type := {
  transcript : list Z;
  question : list Z;
  max_iterations : Z;
  backend : string;
  api_key : option string
}.

(** The arguments with which [RLM(...)] is constructed, and what is
    streamed to it. *)
Record rlm_call : Type := {
  rlm_backend : string;
  rlm_backend_kwargs : list (string * string);
  rlm_environment : string;
  rlm_max_iterations : Z;
  rlm_verbose : bool;
  rlm_context : list Z;
  rlm_root_prompt : list Z
}.

(** How a request handler ends: with an [HTTPException], with another
    exception, or by constructing the RLM and returning the streaming
    response. *)
Inductive outcome : Type :=
| HTTPException (status_code : Z) (detail : string)
| Propagated (e : exn)
| Streaming (call : rlm_call).

(** Truth value of an optional string. *)
Definition given (o : option string) : bool :=
  match o with Some s => Text.nonempty s | None => false end.

Section Handlers.

(** [str.upper], [os.environ.get] and the [marker] package. *)
Variable upper : string -> string.
Variable environ : string -> option string.
Variable marker : option (list Z -> res (list Z)).

(** [env_var_map.get(backend, f"{backend.upper()}_API_KEY")]. *)
Definition env_var_for (backend : string) : string :=
  if String.eqb backend "cerebras" then "CEREBRAS_API_KEY"
  else if String.eqb backend "openai" then "OPENAI_API_KEY"
  else if String.eqb backend "anthropic" then "ANTHROPIC_API_KEY"
  else if String.eqb backend "gemini" then "GOOGLE_API_KEY"
  else if String.eqb backend "openrouter" then "OPENROUTER_API_KEY"
  else upper backend +:+ "_API_KEY".

(** The dict [backend_kwargs], in insertion order. *)
Definition backend_kwargs (backend key : string) : list (string * string) :=
  ("api_key", key) ::
  (if String.eqb backend "cerebras" then [("model_name", "gpt-oss-120b")]
   else if String.eqb backend "openai" then [("model_name", "gpt-5-nano-2025-08-07")]
   else if String.eqb backend "anthropic" then [("model_name", "claude-haiku-4-5")]
   else if String.eqb backend "gemini" then [("model_name", "gemini-3-flash-preview")]
   else if String.eqb backend "openrouter" then
     [("model_name", "openai/gpt-5-nano");
      ("base_url", "https://openrouter.ai/api/v1")]
   else []).

(** [process_transcript], up to the construction of the RLM. *)
Definition process_transcript (request : ProcessRequest) : outcome :=
  if blank (transcript request) then
    HTTPException 400 "Transcript cannot be empty"
  else if blank (question request) then
    HTTPException 400 "Question cannot be empty"
  else
    let start key :=
      Streaming {| rlm_backend := backend request;
                   rlm_backend_kwargs := backend_kwargs (backend request) key;
                   rlm_environment := "local";
                   rlm_max_iterations := max_iterations request;
                   rlm_verbose := false;
                   rlm_context := transcript request;
                   rlm_root_prompt := question request |} in
    if given (api_key request) then start (default "" (api_key request))
    else
      let env_var := env_var_for (backend request) in
      if given (environ env_var) then start (default "" (environ env_var))
      else
        HTTPException 400
          ("API key required for " +:+ backend request
           +:+ ". Either provide one or set " +:+ env_var
           +:+ " environment variable.").

(** [process_file]: the request it delegates has the default iteration
    budget and backend and no key. *)
Definition process_file (filename : option string) (content : list Z)
    (question : list Z) : outcome :=
  match filename with
  | None => HTTPException 400 "No file provided"
  | Some name =>
      if negb (Text.nonempty name) then HTTPException 400 "No file provided"
      else
        match FileParser.parse_file marker name content with
        | Raise (ValueError msg) => HTTPException 400 msg
        | Raise (ImportError msg) => HTTPException 500 msg
        | Raise e => Propagated e
        | Ok (text, file_type) =>
            process_transcript {| transcript := text;
                                  question := question;
                                  max_iterations := 10;
                                  backend := "cerebras";
                                  api_key := None |}
        end
  end.

(** [str(e)], and the enrichment of one iteration event as [generate]
    sees it: [json.dumps(enricher.enrich(json.loads(item)).to_dict())]. *)
Variable str_of_exn : exn -> string.
Variable enrich_event : dict -> res dict.

Definition complete_event : dict := [("type", JStr "complete")].

Definition error_event (e : exn) : dict :=
  [("type", JStr "error"); ("error", JStr (str_of_exn e))].

(** The event types [generate] forwards as they are. *)
Definition passed_through (ty : string) : bool :=
  String.eqb ty "token" || String.eqb ty "code_result"
  || String.eqb ty "metadata" || String.eqb ty "error".

(** [generate]: the payloads of the SSE messages sent for the items the
    logger's generator yields; an item is the entry the logger dumped,
    which [json.loads] gives back. *)
Fixpoint generate (items : list dict) : list dict :=
  match items with
  | [] => [complete_event]
  | item :: rest =>
      match dict_get "type" item with
      | Some (JStr ty) =>
          if passed_through ty then item :: generate rest
          else if String.eqb ty "iteration" then
            match enrich_event item with
            | Ok enriched => enriched :: generate rest
            | Raise e => [error_event e]
            end
          else generate rest
      | _ => generate rest
      end
  end.

End Handlers.

End Main.

Section main_properties.
Import Json Main.

Lemma lstrip_nil s : lstrip s = [] <-> forallb is_space s = true.
Proof.
  induction s as [|c s IH]; simpl; [done|].
  destruct (is_space c); simpl; [done|]. split; done.
Qed.

Lemma forallb_rev {A} (f : A -> bool) (l : list A) :
  forallb f (rev l) = forallb f l.
Proof.
  induction l as [|x l IH]; [done|]. simpl.
  rewrite forallb_app, IH. simpl. by rewrite andb_true_r, andb_comm.
Qed.

Lemma lstrip_spaces s : forallb is_space (lstrip s) = forallb is_space s.
Proof.
  induction s as [|c s IH]; [done|]. simpl.
  destruct (is_space c) eqn:Hc; simpl; [done | by rewrite Hc].
Qed.

(** [not s.strip()] holds exactly for the strings made of whitespace
    only. *)
Lemma blank_spaces s : blank s = true <-> forallb is_space s = true.
Proof.
  unfold blank, strip.
  destruct (rev (lstrip (rev (lstrip s)))) as [|c t] eqn:Hs.
  - split; [intros _|done].
    apply (f_equal (@rev Z)) in Hs. rewrite rev_involutive in Hs. simpl in Hs.
    apply lstrip_nil in Hs. by rewrite forallb_rev, lstrip_spaces in Hs.
  - split; [done|]. intros Hall.
    assert (lstrip s = []) as Hl by (by apply lstrip_nil).
    rewrite Hl in Hs. done.
Qed.

(** [/api/process] refuses exactly the transcripts that consist of
    whitespace only (the empty one included) with status 400 and the
    message that the transcript cannot be empty, whatever the other
    fields are. *)
Theorem blank_transcript_refused upper environ (request : ProcessRequest) :
  process_transcript upper environ request
    = HTTPException 400 "Transcript cannot be empty"
  <-> forallb is_space (transcript request) = true.
Proof.
  rewrite <- blank_spaces. unfold process_transcript.
  destruct (blank (transcript request)); [done|].
  split; [|done].
  destruct (blank (question request)); [done|].
  destruct (given (api_key request)); [done|].
  destruct (given (environ _)); [done|]. intros [=].
Qed.

(** The RLM is only ever constructed with a transcript and a question
    that are not blank and with a key that is not empty; the key is the
    one of the request when it has one, otherwise the one of the
    environment variable of the backend; transcript, question and
    iteration budget are handed on unchanged. *)
Theorem streaming_needs_key upper environ (request : ProcessRequest)
    (call : rlm_call) :
  process_transcript upper environ request = Streaming call ->
  blank (transcript request) = false /\
  blank (question request) = false /\
  rlm_context call = transcript request /\
  rlm_root_prompt call = question request /\
  rlm_max_iterations call = max_iterations request /\
  rlm_backend call = backend request /\
  exists key rest,
    rlm_backend_kwargs call = ("api_key", key) :: rest /\
    key <> "" /\
    (api_key request = Some key \/
     (given (api_key request) = false /\
      environ (env_var_for upper (backend request)) = Some key)).
Proof.
  unfold process_transcript.
  destruct (blank (transcript request)); [done|].
  destruct (blank (question request)); [done|].
  destruct (given (api_key request)) eqn:Hkey.
  - intros [= <-]. simpl. repeat split; try done.
    destruct (api_key request) as [key|]; [|done]. simpl in *.
    eexists key, _. split; [done|]. split; [by destruct key | by left].
  - destruct (given (environ _)) eqn:Henv; [|done].
    intros [= <-]. simpl. repeat split; try done.
    destruct (environ _) as [key|]; [|done]. simpl in *.
    eexists key, _. split; [done|]. split; [by destruct key | by right].
Qed.

Definition sample_request : ProcessRequest :=
  {| transcript := [104; 105]; question := [63]; max_iterations := 3;
     backend := "mistral"; api_key := None |}.

Definition sample_environ (v : string) : option string :=
  if String.eqb v "MISTRAL_API_KEY" then Some "msk" else None.

Lemma streaming_needs_key_witness :
  exists call,
    process_transcript (fun _ => "MISTRAL") sample_environ sample_request
      = Streaming call /\
    rlm_backend_kwargs call = [("api_key", "msk")].
Proof.
  eexists. split; [reflexivity|].
  destruct (streaming_needs_key (fun _ => "MISTRAL") sample_environ
              sample_request _ eq_refl)
    as (_ & _ & _ & _ & _ & _ & key & rest & Hkw & _ & [Hk | [_ Hk]]).
  - discriminate Hk.
  - reflexivity.
Defined.

(** A key sent with the request takes precedence: when the request
    carries a non-empty key, the environment is not consulted, so the
    outcome is the same whatever it holds. *)
Theorem user_key_ignores_environment upper1 upper2 environ1 environ2
    (request : ProcessRequest) :
  given (api_key request) = true ->
  process_transcript upper1 environ1 request
    = process_transcript upper2 environ2 request.
Proof.
  intros Hkey. unfold process_transcript. by rewrite Hkey.
Qed.

Lemma user_key_ignores_environment_witness :
  process_transcript (fun s => s) (fun _ => None)
    {| transcript := [104; 105]; question := [63]; max_iterations := 3;
       backend := "openai"; api_key := Some "usk" |}
  = process_transcript (fun _ => "X") sample_environ
    {| transcript := [104; 105]; question := [63]; max_iterations := 3;
       backend := "openai"; api_key := Some "usk" |}.
Proof.
  apply (user_key_ignores_environment (fun s => s) (fun _ => "X")
           (fun _ => None) sample_environ); reflexivity.
Defined.

Lemma parse_file_no_dot marker name content :
  Text.contains "." name = false ->
  FileParser.parse_file marker name content =
  Raise (ValueError ("File has no extension: " +:+ name
                     +:+ ". Supported extensions: .txt, .md, .pdf")).
Proof.
  intros Hdot. unfold FileParser.parse_file, Text.rsplit1.
  rewrite rcut_none; [done|]. by rewrite contains_dot_lower.
Qed.

Lemma nonempty_with_dot stem e : Text.nonempty (stem +:+ "." +:+ e) = true.
Proof. by destruct stem. Qed.

(** An upload whose file name is empty, has no dot, or ends in an
    extension other than txt, md and pdf (in any letter case) is
    answered with status 400, whatever its content, the question, the
    environment and the installed packages are. *)
Theorem upload_rejected_by_name upper environ marker (name : string)
    (content question : list Z) :
  Text.contains "." name = false \/
  (exists stem e, name = stem +:+ "." +:+ e /\ Text.contains "." e = false /\
                  Text.lower e ∉ FileParser.get_supported_extensions) ->
  exists detail,
    process_file upper environ marker (Some name) content question
      = HTTPException 400 detail.
Proof.
  intros [Hdot|(stem & e & -> & He & Hext)]; unfold process_file.
  - destruct (Text.nonempty name); simpl; [|by eexists].
    rewrite (parse_file_no_dot _ _ _ Hdot). by eexists.
  - rewrite nonempty_with_dot. simpl.
    rewrite (parse_file_with_extension _ _ _ _ He). cbv zeta.
    assert (Text.lower e <> "txt" /\ Text.lower e <> "md" /\ Text.lower e <> "pdf")
      as (Htxt & Hmd & Hpdf).
    { unfold FileParser.get_supported_extensions in Hext.
      rewrite !not_elem_of_cons in Hext. tauto. }
    apply String.eqb_neq in Htxt, Hmd, Hpdf. rewrite Htxt, Hmd, Hpdf. simpl.
    by eexists.
Qed.

Lemma upload_rejected_by_name_witness :
  exists detail,
    process_file (fun s => s) (fun _ => Some "key") None (Some "notes.docx")
      [104; 105] [63] = HTTPException 400 detail.
Proof.
  apply (upload_rejected_by_name (fun s => s) (fun _ => Some "key") None
           "notes.docx" [104; 105] [63]).
  right. exists "notes", "docx". split; [reflexivity|]. split; [reflexivity|].
  unfold FileParser.get_supported_extensions. rewrite !not_elem_of_cons.
  split; [discriminate|]. split; [discriminate|]. split; [discriminate|].
  apply not_elem_of_nil.
Defined.

(** A PDF upload on a server without the marker package is answered
    with status 500 and the installation hint, not with 400: the
    content and the question are not looked at. *)
Theorem pdf_upload_without_marker upper environ (stem e : string)
    (content question : list Z) :
  Text.contains "." e = false -> Text.lower e = "pdf" ->
  process_file upper environ None (Some (stem +:+ "." +:+ e)) content question
    = HTTPException 500
        "marker-pdf is required for PDF parsing. Install with: pip install marker-pdf".
Proof.
  intros He Hpdf. unfold process_file. rewrite nonempty_with_dot. simpl.
  rewrite (parse_file_with_extension _ _ _ _ He). cbv zeta. by rewrite Hpdf.
Qed.

Lemma pdf_upload_without_marker_witness :
  process_file (fun s => s) (fun _ => Some "key") None (Some "paper.PDF")
    [37; 80; 68; 70] [63]
  = HTTPException 500
      "marker-pdf is required for PDF parsing. Install with: pip install marker-pdf".
Proof.
  apply (pdf_upload_without_marker (fun s => s) (fun _ => Some "key")
           "paper" "PDF" [37; 80; 68; 70] [63]); reflexivity.
Defined.

(** An upload that reaches the RLM always runs on the cerebras backend
    with model gpt-oss-120b, ten iterations and the key of the server's
    CEREBRAS_API_KEY variable, which is then set and not empty; the
    context is the text [parse_file] returned for the upload and the
    root prompt is the question. *)
Theorem upload_uses_server_key upper environ marker (filename : option string)
    (content question : list Z) (call : rlm_call) :
  process_file upper environ marker filename content question = Streaming call ->
  rlm_backend call = "cerebras" /\
  rlm_max_iterations call = 10 /\
  rlm_root_prompt call = question /\
  (exists key,
     environ "CEREBRAS_API_KEY" = Some key /\ key <> "" /\
     rlm_backend_kwargs call
       = [("api_key", key); ("model_name", "gpt-oss-120b")]) /\
  (exists name tag,
     filename = Some name /\
     FileParser.parse_file marker name content = Ok (rlm_context call, tag)).
Proof.
  unfold process_file. destruct filename as [name|]; [|done].
  destruct (Text.nonempty name); simpl; [|done].
  destruct (FileParser.parse_file marker name content) as [[text tag]|e] eqn:Hparse;
    [|by destruct e].
  unfold process_transcript. simpl.
  destruct (blank text); [done|]. destruct (blank question); [done|].
  change (env_var_for upper "cerebras") with "CEREBRAS_API_KEY".
  destruct (environ "CEREBRAS_API_KEY") as [key|] eqn:Henv; simpl; [|done].
  destruct (Text.nonempty key) eqn:Hkey; [|done].
  intros [= <-]. simpl. repeat split; try done.
  - exists key. split; [done|]. split; [by destruct key | done].
  - by exists name, tag.
Qed.

Lemma upload_uses_server_key_witness :
  exists call,
    process_file (fun s => s)
      (fun v => if String.eqb v "CEREBRAS_API_KEY" then Some "csk" else None)
      None (Some "a.md") [104; 105] [63] = Streaming call /\
    rlm_backend call = "cerebras" /\
    rlm_backend_kwargs call = [("api_key", "csk"); ("model_name", "gpt-oss-120b")].
Proof.
  eexists. split; [reflexivity|].
  destruct (upload_uses_server_key (fun s => s)
              (fun v => if String.eqb v "CEREBRAS_API_KEY" then Some "csk" else None)
              None (Some "a.md") [104; 105] [63] _ eq_refl)
    as (Hb & _ & _ & (key & Hkey & _ & Hkw) & _).
  split; [exact Hb|]. injection Hkey as <-. exact Hkw.
Defined.

(** A txt or md upload is answered with status 400 and the message that
    the transcript cannot be empty exactly when its content, decoded
    with replacement of ill-formed bytes, consists of whitespace only:
    an empty file is refused whatever the environment holds. *)
Theorem blank_upload_refused upper environ marker (stem e : string)
    (content question : list Z) :
  Text.contains "." e = false ->
  Text.lower e = "txt" \/ Text.lower e = "md" ->
  (process_file upper environ marker (Some (stem +:+ "." +:+ e)) content question
     = HTTPException 400 "Transcript cannot be empty"
   <-> forallb is_space (Utf8.decode_lossy content) = true).
Proof.
  intros He Hext. unfold process_file. rewrite nonempty_with_dot. simpl.
  rewrite (parse_file_with_extension _ _ _ _ He). cbv zeta.
  assert (String.eqb (Text.lower e) "txt" || String.eqb (Text.lower e) "md" = true)
    as ->.
  { by destruct Hext as [-> | ->]. }
  assert (match Utf8.decode content with
          | Some text => text
          | None => Utf8.decode_lossy content
          end = Utf8.decode_lossy content) as ->.
  { destruct (Utf8.decode content) as [text|] eqn:Hd; [|done].
    symmetry. by apply decode_replace_strict. }
  rewrite <- blank_spaces. unfold process_transcript. simpl.
  destruct (blank (Utf8.decode_lossy content)); [done|].
  split; [|done].
  destruct (blank question); [done|].
  destruct (given (environ _)); [done|]. intros [=].
Qed.

Lemma blank_upload_refused_witness :
  process_file (fun s => s) (fun _ => Some "key") None (Some "empty.TXT")
    [32; 10; 9] [63]
  = HTTPException 400 "Transcript cannot be empty".
Proof.
  apply (blank_upload_refused (fun s => s) (fun _ => Some "key") None
           "empty" "TXT" [32; 10; 9] [63]);
    [reflexivity | left; reflexivity | reflexivity].
Defined.

End main_properties.

Section generate_properties.
Import Json StreamLogger Main.

Context (str_of_exn : exn -> string) (enrich_event : dict -> res dict).

Local Abbreviation generate := (Main.generate str_of_exn enrich_event).
Local Abbreviation error_event := (Main.error_event str_of_exn).

Lemma generate_not_nil items : generate items <> [].
Proof.
  induction items as [|item items IH]; simpl; [done|].
  repeat case_match; done.
Qed.

Lemma generate_app pre post out :
  generate pre = out ++ [complete_event] ->
  generate (pre ++ post) = out ++ generate post.
Proof.
  revert out. induction pre as [|item pre IH]; intros out; simpl.
  - destruct out as [|x [|y out]]; [done | done | done].
  - assert (forall x, x :: generate pre = out ++ [complete_event] ->
                      x :: generate (pre ++ post) = out ++ generate post) as Hcons.
    { intros x Hx. destruct out as [|y out]; simpl in *.
      - injection Hx as _ Hnil. by destruct (generate_not_nil pre).
      - injection Hx as <- Hrest. by rewrite (IH _ Hrest). }
    destruct (dict_get "type" item) as [[| | | |ty| |]|]; try apply IH.
    destruct (passed_through ty); [apply Hcons|].
    destruct (String.eqb ty "iteration"); [|apply IH].
    destruct (enrich_event item) as [enriched|e]; [apply Hcons|].
    destruct out as [|x [|y out]]; done.
Qed.

Lemma generate_ok pre :
  (forall item, item ∈ pre -> dict_get "type" item = Some (JStr "iteration") ->
                exists d, enrich_event item = Ok d) ->
  exists out, generate pre = out ++ [complete_event] /\
              (length out <= length pre)%nat.
Proof.
  induction pre as [|item pre IH]; intros Hok; simpl.
  - exists []. done.
  - destruct IH as (out & Hout & Hlen).
    { intros x Hx. apply Hok. by apply list_elem_of_further. }
    pose proof (Hok item (list_elem_of_here _ _)) as Hitem.
    assert (exists out', generate pre = out' ++ [complete_event] /\
                         (length out' <= S (length pre))%nat) as Hskip
      by (exists out; split; [done | lia]).
    assert (forall x, exists out', x :: generate pre = out' ++ [complete_event] /\
                                   (length out' <= S (length pre))%nat) as Hcons.
    { intros x. exists (x :: out). rewrite Hout. split; [done | simpl; lia]. }
    destruct (dict_get "type" item) as [[| | | |ty| |]|]; try apply Hskip.
    destruct (passed_through ty); [apply Hcons|].
    destruct (String.eqb_spec ty "iteration") as [->|_]; [|apply Hskip].
    destruct (Hitem eq_refl) as [d ->]. apply Hcons.
Qed.

(** The SSE stream always ends with exactly one closing message, the
    [complete] event or the [error] event of a failed enrichment, and
    before it at most one message is sent for each item of the
    logger. *)
Theorem generate_always_closes (items : list dict) :
  exists out,
    (length out <= length items)%nat /\
    (generate items = out ++ [complete_event] \/
     exists e, generate items = out ++ [error_event e]).
Proof.
  induction items as [|item items (out & Hlen & IH)]; simpl.
  - exists []. split; [done | by left].
  - assert (exists out', (length out' <= S (length items))%nat /\
              (generate items = out' ++ [complete_event] \/
               exists e, generate items = out' ++ [error_event e])) as Hskip
      by (exists out; split; [lia | done]).
    assert (forall x, exists out', (length out' <= S (length items))%nat /\
              (x :: generate items = out' ++ [complete_event] \/
               exists e, x :: generate items = out' ++ [error_event e])) as Hcons.
    { intros x. exists (x :: out). split; [simpl; lia|].
      destruct IH as [-> | [e ->]]; [by left | right; by exists e]. }
    destruct (dict_get "type" item) as [[| | | |ty| |]|]; try apply Hskip.
    destruct (passed_through ty); [apply Hcons|].
    destruct (String.eqb ty "iteration"); [|apply Hskip].
    destruct (enrich_event item) as [enriched|e]; [apply Hcons|].
    exists []. split; [simpl; lia|]. right. by exists e.
Qed.

(** When the enrichment of an iteration event fails, the stream is cut
    there: what was sent for the items before it is followed by one
    [error] event carrying the exception's text, and nothing is sent for
    the items after it, no [complete] event either. *)
Theorem generate_stops_at_failed_enrichment
    (pre : list dict) (bad : dict) (post out : list dict) (e : exn) :
  generate pre = out ++ [complete_event] ->
  dict_get "type" bad = Some (JStr "iteration") ->
  enrich_event bad = Raise e ->
  generate (pre ++ bad :: post) = out ++ [error_event e].
Proof.
  intros Hpre Hty He. rewrite (generate_app _ _ _ Hpre). simpl.
  by rewrite Hty, He.
Qed.

(** When the completion function raises an exception, the client is
    sent the logger's [error] event and, after it, still the [complete]
    event: provided the function did not call [signal_complete] itself
    and no enrichment fails, the stream of a returned generator ends
    with these two messages. *)
Theorem failure_reaches_client (fn : completion) (s : state) (msg : string) :
  ending fn = RaisesException msg ->
  List.filter is_signal_complete (calls fn) = [] ->
  reachable fn init s -> gen s = GReturned ->
  (forall item, item ∈ yielded s ->
     dict_get "type" item = Some (JStr "iteration") ->
     exists d, enrich_event item = Ok d) ->
  exists out,
    generate (yielded s)
    = out ++ [error_entry msg (error_time fn); complete_event].
Proof.
  intros Hend Hfn Hr Hg Hok.
  pose proof (returned_history fn init s Hr Hg) as Hy.
  apply sentinel_split in Hy as [Hy _];
    [| apply fmap_Some_no_sentinel | by apply before_finally_sentinels].
  unfold before_finally in Hy. rewrite Hend in Hy. simpl in Hy.
  apply fmap_app_inv in Hy as (pre & last & Hpre & Hlast & Hys).
  destruct last as [|x [|y last]]; try done. injection Hlast as <-.
  destruct (generate_ok pre) as (out & Hout & _).
  { intros item Hin. apply Hok. rewrite Hys. apply elem_of_app. by left. }
  exists out. rewrite Hys, (generate_app _ _ _ Hout). done.
Qed.

End generate_properties.

Section generate_examples.
Import Json StreamLogger Main.

Definition rejecting (d : dict) : res dict :=
  match dict_get "iteration" d with
  | Some (JInt _) => Ok (("phase", JStr "exploring") :: d)
  | _ => Raise TypeError
  end.

Lemma generate_stops_at_failed_enrichment_witness :
  generate (fun _ => "bad event") rejecting
    ([[("type", JStr "token"); ("content", JStr "a")]]
       ++ [("type", JStr "iteration"); ("iteration", JNull)]
       :: [[("type", JStr "token"); ("content", JStr "b")]])
  = [[("type", JStr "token"); ("content", JStr "a")]]
      ++ [[("type", JStr "error"); ("error", JStr "bad event")]].
Proof.
  apply (generate_stops_at_failed_enrichment (fun _ => "bad event") rejecting
           [[("type", JStr "token"); ("content", JStr "a")]]
           [("type", JStr "iteration"); ("iteration", JNull)]
           [[("type", JStr "token"); ("content", JStr "b")]]
           [[("type", JStr "token"); ("content", JStr "a")]] TypeError);
    reflexivity.
Defined.

Lemma failure_reaches_client_witness :
  exists s out,
    run failing [Consumer; Worker; Worker; Worker; Worker; Consumer; Consumer;
                 Consumer; Consumer] (start init) = Some s /\
    generate (fun _ => "bad event") rejecting (yielded s)
    = out ++ [error_entry "boom" "12:00"; complete_event].
Proof.
  eexists.
  assert (run failing [Consumer; Worker; Worker; Worker; Worker; Consumer; Consumer;
                       Consumer; Consumer] (start init)
          = Some (State init WDone GReturned
                 [[("type", JStr "token"); ("iteration", JInt 1); ("content", JStr "a")];
                  error_entry "boom" "12:00"]
                 [Some [("type", JStr "token"); ("iteration", JInt 1);
                        ("content", JStr "a")];
                  Some (error_entry "boom" "12:00"); None])) as Hrun
    by (vm_compute; reflexivity).
  destruct (failure_reaches_client (fun _ => "bad event") rejecting failing _ "boom"
              eq_refl eq_refl (run_reachable _ _ _ _ Hrun) eq_refl) as [out Hout].
  - intros item Hin Hty. exists (("phase", JStr "exploring") :: item).
    simpl in Hin.
    apply elem_of_cons in Hin as [-> | Hin]; [reflexivity|].
    apply elem_of_cons in Hin as [-> | Hin]; [discriminate Hty|].
    by apply elem_of_nil in Hin.
  - exists out. split; [exact Hrun | exact Hout].
Defined.

End generate_examples.

Section annotate_heap_properties.
Import Heap Enricher.

Lemma annotation_step (la : loc) (pre : heap) (acc : list val) (ds : list obj)
    (a : Annotations.annotation) :
  length pre = la ->
  (d ← alloc (annotation_dict a); list_append la (VRef d))
    (pre ++ OList acc :: ds)
  = (Ok tt, pre ++ OList (acc ++ [VRef (S la + length ds)%nat])
                :: ds ++ [annotation_dict a]).
Proof.
  intros Hla. unfold mbind, M_bind, alloc, list_append, read, write.
  unfold mbind, M_bind.
  rewrite <- (app_assoc pre (OList acc :: ds) [annotation_dict a]). simpl.
  rewrite (list_lookup_middle pre _ (OList acc) la) by done.
  subst la. f_equal. rewrite insert_app_r_alt by lia.
  rewrite Nat.sub_diag, length_app. simpl. by rewrite <- plus_n_Sm.
Qed.

Lemma for_each_annotations (la : loc) (pre : heap) (acc : list val)
    (ds : list obj) (anns : list Annotations.annotation) :
  length pre = la ->
  for_each anns (fun a =>
      d ← alloc (annotation_dict a); list_append la (VRef d))
    (pre ++ OList acc :: ds)
  = (Ok tt,
     pre ++ OList (acc ++ (VRef <$> seq (S la + length ds) (length anns)))
         :: ds ++ (annotation_dict <$> anns)).
Proof.
  intros Hla. revert acc ds.
  induction anns as [|a anns IH]; intros acc ds.
  - simpl. by rewrite !app_nil_r.
  - cbn [for_each]. unfold mbind at 1. unfold M_bind at 1.
    rewrite (annotation_step la pre acc ds a Hla), IH.
    rewrite <- !app_assoc, length_app. simpl.
    by rewrite Nat.add_1_r, <- plus_n_Sm.
Qed.

(** On a string the annotator never raises: it returns a new list of new
    dicts, one for each annotation of the code in line order, each with
    the keys line, explanation and importance; nothing that was on the
    heap changes.  On anything but a string it raises
    [AttributeError]. *)
Theorem annotate_builds_dicts (code : val) (h : heap) :
  Enricher.annotate code h =
  match code with
  | VStr s =>
      (Ok (length h),
       h ++ OList (VRef <$> seq (S (length h)) (length (Annotations.annotate s)))
         :: (annotation_dict <$> Annotations.annotate s))
  | _ => (Raise AttributeError, h)
  end.
Proof.
  destruct code as [| | | |s|]; try reflexivity.
  unfold Enricher.annotate.
  unfold mbind at 1. unfold M_bind at 1. unfold alloc at 1.
  unfold mbind at 1. unfold M_bind at 1.
  rewrite (for_each_annotations (length h) h [] [] _ eq_refl).
  simpl. by rewrite Nat.add_0_r.
Qed.

End annotate_heap_properties.

Section summary_properties.
Import Heap Enricher.

Lemma str_lower_Ok v h s h' : str_lower v h = (Ok s, h') -> h' = h.
Proof. destruct v; try done. by intros [= _ <-]. Qed.

Lemma truthy_Ok v h b h' : truthy v h = (Ok b, h') -> fst (truthy v h) = Ok b.
Proof. by intros ->. Qed.

(** [_detect_phase] answers "answering" exactly when the final answer is
    truthy. *)
Lemma detect_phase_answering response blocks final_answer h p h' :
  _detect_phase response blocks final_answer h = (Ok p, h') ->
  exists answered, fst (truthy final_answer h) = Ok answered /\
                   (p = "answering" <-> answered = true).
Proof.
  unfold _detect_phase. intros (lower & h1 & ->%str_lower_Ok & Hrun)%bind_Ok.
  apply bind_Ok in Hrun as (answered & h2 & Htr%truthy_Ok & Hrun).
  exists answered. split; [done|]. destruct answered.
  - by injection Hrun as <- _.
  - apply bind_Ok in Hrun as (bs & h3 & _ & Hrun).
    apply bind_Ok in Hrun as (q & h4 & _ & Hrun).
    apply bind_Ok in Hrun as (b & h5 & _ & Hrun).
    repeat case_match; injection Hrun as <- _; done.
Qed.

(** So does [_summarize] with its first sentence. *)
Lemma summarize_answering n blocks final_answer h w h' :
  _summarize n blocks final_answer h = (Ok w, h') ->
  exists h1 answered,
    stable [] h h1 /\ fst (truthy final_answer h1) = Ok answered /\
    (w = "RLM found the answer after analyzing the document."
     <-> answered = true).
Proof.
  unfold _summarize. intros (bs & h1 & [-> _]%iter_Ok & Hrun)%bind_Ok.
  apply bind_Ok in Hrun as (calls & h2 & Hsum & Hrun).
  apply bind_Ok in Hrun as (answered & h3 & Htr%truthy_Ok & Hrun).
  exists h2, answered. split; [|split; [done|]].
  { eapply keeps_stable; [|exact Hsum]. apply keeps_sum_of. intros b.
    eapply keeps_bind; [apply keeps_alloc|]. intros d _.
    eapply keeps_bind; [apply keeps_dict_get|]. intros c _. apply keeps_len. }
  assert (forall m rest,
            "RLM " +:+ String m rest
              = "RLM found the answer after analyzing the document." ->
            m = "f"%char) as Hfifth.
  { intros m rest H. apply (f_equal (String.get 4)) in H.
    by injection H as ->. }
  destruct answered.
  - by injection Hrun as <- _.
  - destruct (0 <? calls).
    + injection Hrun as <- _. split; [|done].
      intros H. by apply (Hfifth "c"%char) in H.
    + apply bind_Ok in Hrun as ([] & h4 & _ & Hrun).
      * apply bind_Ok in Hrun as (k & h5 & _ & Hrun). injection Hrun as <- _.
        split; [|done]. intros H. by apply (Hfifth "w"%char) in H.
      * injection Hrun as <- _. split; [|done].
        intros H. by apply (Hfifth "i"%char) in H.
Qed.

(** The phase and the summary of an enriched iteration agree: the phase
    is "answering" exactly when the summary says that the answer was
    found, and both exactly when the final answer of the record is
    truthy. *)
Theorem enrich_phase_matches_summary (h : heap) (iteration_data : val)
    (e : EnrichedIteration) (h' : heap) :
  enrich iteration_data h = (Ok e, h') ->
  (phase e = "answering" <-> fst (truthy (final_answer e) h') = Ok true) /\
  (what_happened e = "RLM found the answer after analyzing the document."
   <-> phase e = "answering").
Proof.
  intros Hrun. unfold enrich in Hrun.
  apply bind_Ok in Hrun as (n & h1 & [-> _]%dict_get_Ok & Hrun).
  apply bind_Ok in Hrun as (resp & h1 & [-> _]%dict_get_Ok & Hrun).
  apply bind_Ok in Hrun as (d & h1 & [-> ->]%alloc_Ok & Hrun).
  apply bind_Ok in Hrun as (raw & h1 & [-> _]%dict_get_Ok & Hrun).
  apply bind_Ok in Hrun as (fa & h1 & [-> _]%dict_get_Ok & Hrun).
  apply bind_Ok in Hrun as (t & h1 & [-> _]%dict_get_Ok & Hrun).
  apply bind_Ok in Hrun as (t_true & h1 & Htrue & Hrun).
  pose proof (truthy_heap t (h ++ [OList []])) as Hh1.
  rewrite Htrue in Hh1. simpl in Hh1. subst h1.
  apply bind_Ok in Hrun as (fa' & h1 & [-> _]%unwrap_final_answer_Ok & Hrun).
  apply bind_Ok in Hrun as (ph & h3 & Hph & Hrun).
  apply bind_Ok in Hrun as (lc & h4 & [-> ->]%alloc_Ok & Hrun).
  apply bind_Ok in Hrun as (la & h4 & [-> ->]%alloc_Ok & Hrun).
  apply bind_Ok in Hrun as (blocks & h4 & [-> _]%iter_Ok & Hrun).
  apply bind_Ok in Hrun as ([] & h6 & Hloop & Hrun).
  apply bind_Ok in Hrun as (wh & h7 & Hsum & Hrun).
  injection Hrun as <- <-. simpl.
  set (hA := h ++ [OList []]) in *.
  pose proof (keeps_stable [] _ _ _ _ _ (keeps_detect_phase [] _ _ _) Hph) as Hst3.
  pose proof (keeps_stable [length h3; length (h3 ++ [OList []])] _ _ _ _ _
                (keeps_for_each _ blocks _
                   (fun x => keeps_enrich_block _ (length h3)
                      (length (h3 ++ [OList []])) x
                      (list_elem_of_here _ _)
                      (list_elem_of_further _ _ _ (list_elem_of_here _ _)))) Hloop)
    as Hst6.
  pose proof (keeps_stable [] _ _ _ _ _ (keeps_summarize [] _ _ _) Hsum) as Hst7.
  assert (extends hA h6) as Hext6.
  { eapply extends_stable; [|exact Hst6|].
    - apply extends_alloc, extends_alloc.
      eapply extends_stable; [apply extends_refl | exact Hst3 |].
      by intros ? []%elem_of_nil.
    - destruct Hst3 as [Hlen _].
      intros l [->|[->|[]%elem_of_nil]%elem_of_cons]%elem_of_cons;
        [|rewrite length_app]; lia. }
  destruct (detect_phase_answering _ _ _ _ _ _ Hph) as (a1 & Ha1 & Hphase).
  destruct (summarize_answering _ _ _ _ _ _ Hsum) as (h6' & a2 & Hst & Ha2 & Hwh).
  assert (a2 = a1) as ->.
  { apply (truthy_extends _ _ h6') in Ha1.
    - rewrite Ha1 in Ha2. by injection Ha2.
    - eapply extends_stable; [exact Hext6 | exact Hst |].
      by intros ? []%elem_of_nil. }
  apply (truthy_extends _ _ h7) in Ha1.
  2:{ eapply extends_stable; [exact Hext6 | exact Hst7 |].
      by intros ? []%elem_of_nil. }
  rewrite Ha1, Hphase, Hwh. split; [|done].
  split; [by intros -> | by intros [= ->]].
Qed.

(** An iteration event that carries the final answer. *)
Definition answered_event : heap :=
  [ODict (<["iteration" := VInt 2]>
          (<["response" := VStr "Done."]> {["final_answer" := VStr "42"]}))].

Lemma enrich_phase_matches_summary_witness :
  exists e h',
    enrich (VRef 0%nat) answered_event = (Ok e, h') /\
    phase e = "answering" /\
    what_happened e = "RLM found the answer after analyzing the document.".
Proof.
  destruct (enrich (VRef 0%nat) answered_event) as [[e|err] h'] eqn:Hrun;
    [|by vm_compute in Hrun].
  exists e, h'. split; [done|].
  destruct (enrich_phase_matches_summary _ _ _ _ Hrun) as [Hph Hwh].
  assert (phase e = "answering") as Hphase.
  { apply Hph. vm_compute in Hrun. by injection Hrun as <- <-. }
  split; [exact Hphase | by apply Hwh].
Defined.

End summary_properties.

Section bare_event_properties.
Import Heap Enricher.

Lemma bind_run {A B} (c : M A) (k : A -> M B) h a h1 :
  c h = (Ok a, h1) -> (c ≫= k) h = k a h1.
Proof. unfold mbind, M_bind. by intros ->. Qed.

Lemma dict_get_run l m k default h :
  h !! l = Some (ODict m) ->
  dict_get (VRef l) k default h = (Ok (entry m k default), h).
Proof.
  intros Hl. unfold dict_get, mbind, M_bind, read. by rewrite Hl.
Qed.

Lemma iter_run l xs h : h !! l = Some (OList xs) -> iter (VRef l) h = (Ok xs, h).
Proof. intros Hl. unfold iter, mbind, M_bind, read. by rewrite Hl. Qed.

Lemma truthy_run v h :
  (forall r, v <> VRef r) -> exists b, truthy v h = (Ok b, h).
Proof. intros Hv. destruct v; try by eexists. by destruct (Hv l). Qed.

(** An event without code blocks and without final answer is always
    enriched: when the list of code blocks is empty (or the key is
    absent), the final answer is [None] (or absent), the response is a
    string and the iteration time is a number (or absent), [enrich]
    returns, allocating three empty lists (the default for the blocks,
    the new blocks, the annotations) and changing nothing else; the
    phase is "analyzing" when the response mentions chunk or split in
    any letter case and "exploring" otherwise, and the summary says that
    the RLM is thinking. *)
Theorem enrich_bare_event (h : heap) (l : loc) (m : gmap string val)
    (s : string) :
  h !! l = Some (ODict m) ->
  (m !! "code_blocks" = None \/
   exists lr, m !! "code_blocks" = Some (VRef lr) /\ h !! lr = Some (OList [])) ->
  entry m "final_answer" VNone = VNone ->
  entry m "response" (VStr "") = VStr s ->
  (forall r, entry m "iteration_time" (VInt 0) <> VRef r) ->
  exists e,
    enrich (VRef l) h = (Ok e, h ++ [OList []; OList []; OList []]) /\
    iteration_number e = entry m "iteration" (VInt 0) /\
    response e = VStr s /\
    final_answer e = VNone /\
    code_blocks e = VRef (S (length h)) /\
    code_annotations e = VRef (S (S (length h))) /\
    phase e = (if Text.contains "chunk" (Text.lower s)
                  || Text.contains "split" (Text.lower s)
               then "analyzing" else "exploring") /\
    what_happened e = "RLM is thinking about how to approach the question.".
Proof.
  intros Hl Hblocks Hfa Hresp Htime.
  assert ((h ++ [OList []]) !! l = Some (ODict m)) as Hl1
    by (by apply lookup_app_l_Some).
  assert (exists lb, entry m "code_blocks" (VRef (length h)) = VRef lb /\
                     (h ++ [OList []]) !! lb = Some (OList []))
    as (lb & Hcb & Hd).
  { unfold entry. destruct Hblocks as [-> | (lr & -> & Hlr)].
    - exists (length h). split; [done | by apply list_lookup_middle].
    - exists lr. split; [done | by apply lookup_app_l_Some]. }
  destruct (truthy_run _ (h ++ [OList []]) Htime) as [b Hb].
  unfold enrich.
  rewrite (bind_run _ _ _ _ _ (dict_get_run l m "iteration" _ h Hl)).
  rewrite (bind_run _ _ _ _ _ (dict_get_run l m "response" _ h Hl)).
  rewrite (bind_run (alloc (OList [])) _ h (length h) (h ++ [OList []]) eq_refl).
  rewrite (bind_run _ _ _ _ _ (dict_get_run l m "code_blocks" _ _ Hl1)).
  rewrite (bind_run _ _ _ _ _ (dict_get_run l m "final_answer" _ _ Hl1)).
  rewrite (bind_run _ _ _ _ _ (dict_get_run l m "iteration_time" _ _ Hl1)).
  rewrite (bind_run _ _ _ _ _ Hb).
  rewrite Hfa, Hresp, Hcb.
  rewrite (bind_run (unwrap_final_answer VNone) _ _ VNone _ eq_refl).
  set (p := if Text.contains "chunk" (Text.lower s)
               || Text.contains "split" (Text.lower s)
            then "analyzing" else "exploring").
  assert (_detect_phase (VStr s) (VRef lb) VNone (h ++ [OList []])
          = (Ok p, h ++ [OList []])) as Hphase.
  { unfold _detect_phase.
    rewrite (bind_run (str_lower (VStr s)) _ _ (Text.lower s) _ eq_refl).
    rewrite (bind_run (truthy VNone) _ _ false _ eq_refl).
    rewrite (bind_run _ _ _ _ _ (iter_run _ _ _ Hd)). simpl.
    unfold mbind, M_bind, mret, M_ret. subst p. cbn [andb].
    by destruct (Text.contains "chunk" (Text.lower s)
                 || Text.contains "split" (Text.lower s)). }
  rewrite (bind_run _ _ _ _ _ Hphase).
  rewrite (bind_run (alloc (OList [])) _ _ _ _ eq_refl).
  rewrite (bind_run (alloc (OList [])) _ _ _ _ eq_refl).
  set (h3 := (h ++ [OList []]) ++ [OList []]).
  assert ((h3 ++ [OList []]) !! lb = Some (OList [])) as Hd3.
  { apply lookup_app_l_Some. by apply lookup_app_l_Some. }
  assert ((h3 ++ [OList []]) !! length (h ++ [OList []]) = Some (OList [])) as Hc3.
  { apply lookup_app_l_Some. by apply list_lookup_middle. }
  rewrite (bind_run _ _ _ _ _ (iter_run _ _ _ Hd3)).
  rewrite (bind_run (for_each [] _) _ _ tt _ eq_refl).
  assert (_summarize (entry m "iteration" (VInt 0))
            (VRef (length (h ++ [OList []]))) VNone (h3 ++ [OList []])
          = (Ok "RLM is thinking about how to approach the question.",
             h3 ++ [OList []])) as Hsum.
  { unfold _summarize.
    rewrite (bind_run _ _ _ _ _ (iter_run _ _ _ Hc3)). simpl.
    unfold mbind, M_bind, mret, M_ret, read.
    change (0 <? 0) with false. cbv beta iota. by rewrite Hc3. }
  rewrite (bind_run _ _ _ _ _ Hsum).
  eexists. split.
  { unfold mret, M_ret. f_equal. subst h3. by rewrite <- !app_assoc. }
  simpl. subst h3. rewrite !length_app. simpl.
  split; [done|]. split; [done|]. split; [done|].
  split; [f_equal; lia|]. split; [f_equal; lia | done].
Qed.

(** An iteration event as the logger sends it, with an empty list of
    code blocks and no final answer. *)
Definition bare_event : heap :=
  [OList [];
   ODict (<["type" := VStr "iteration"]>
          (<["iteration" := VInt 1]>
          (<["timestamp" := VStr "12:00"]>
          (<["prompt" := VStr "What is said?"]>
          (<["response" := VStr "First I will SPLIT the text."]>
          (<["code_blocks" := VRef 0%nat]>
          (<["final_answer" := VNone]>
           {["iteration_time" := VFloat 0.5%float]})))))))].

Lemma enrich_bare_event_witness :
  exists e,
    enrich (VRef 1%nat) bare_event
      = (Ok e, bare_event ++ [OList []; OList []; OList []]) /\
    iteration_number e = VInt 1 /\
    phase e = "analyzing" /\
    what_happened e = "RLM is thinking about how to approach the question.".
Proof.
  destruct (enrich_bare_event bare_event 1%nat _
              "First I will SPLIT the text." eq_refl)
    as (e & Hrun & Hn & _ & _ & _ & _ & Hphase & Hwh);
    [right; exists 0%nat; split; reflexivity
    | reflexivity | reflexivity | discriminate |].
  exists e. split; [exact Hrun|]. split; [exact Hn|].
  split; [exact Hphase | exact Hwh].
Defined.

End bare_event_properties.
